(** * Federated analytics: node-side partial statistics and server-side reduction

    A shallow embedding of [fed_analytics_app/client_app.py] (the [query]
    handler run on every node) and of [fed_analytics_app/server_app.py]
    (the [aggregate_features] reduction run by the coordinator), followed by
    the properties of the aggregation protocol.

    Numbers.  Python floats and ints are idealised as exact real numbers
    extended with one not-a-number value: [Fin x] is the number [x] and
    [NaN] is what pandas stores for a missing cell and what [np.sqrt]
    returns on a negative argument.  Two places where the machine numbers
    of the source leave the reals are modelled: the element-wise square of
    an [int64] column wraps around modulo 2^64, and the square of a Python
    float raises [OverflowError] beyond the largest float.  Rounding and
    infinities are outside the model.

    Dictionaries.  A [dict] indexed by run-time strings (the columns of a
    data frame, a metric record, the per-feature tables) is a [gmap string];
    a [dict] whose keys are fixed literals of the source (["sum"],
    ["count"], ["sum_sqd"], and ["mean"]/["std"] below a feature) is a
    record, with [option] fields where the source may leave the key out.

    Exceptions.  A computation that may raise returns [result]; text sent to
    [print] or [log] is collected in a list of lines that survives a raise. *)

From Stdlib Require Import Reals Lra Psatz.
From Stdlib Require Import Permutation.
From Stdlib Require Import Ascii.
From stdpp Require Import gmap strings list fin_maps.

(** ** Numbers *)

Module Num.

Inductive num : Type :=
  | Fin (x : R)
  | NaN.

Definition zero : num := Fin 0%R.
Definition one : num := Fin 1%R.
Definition of_nat (n : nat) : num := Fin (INR n).

Definition add (a b : num) : num :=
  match a, b with
  | Fin x, Fin y => Fin (x + y)%R
  | _, _ => NaN
  end.

Definition sub (a b : num) : num :=
  match a, b with
  | Fin x, Fin y => Fin (x - y)%R
  | _, _ => NaN
  end.

Definition mul (a b : num) : num :=
  match a, b with
  | Fin x, Fin y => Fin (x * y)%R
  | _, _ => NaN
  end.

Arguments add !a !b /.
Arguments sub !a !b /.
Arguments mul !a !b /.

(** [a ** 2] *)
Definition pow2 (a : num) : num := mul a a.

(** [a == 0]; a comparison with NaN is false. *)
Definition eq0 (a : num) : bool :=
  match a with
  | Fin x => if Req_dec_T x 0 then true else false
  | NaN => false
  end.

(** [a <= 1] *)
Definition le1 (a : num) : bool :=
  match a with
  | Fin x => if Rle_dec x 1 then true else false
  | NaN => false
  end.

(** [a < 0] *)
Definition lt0 (a : num) : bool :=
  match a with
  | Fin x => if Rlt_dec x 0 then true else false
  | NaN => false
  end.

(** [a >= 0], used to state invariants. *)
Definition ge0 (a : num) : bool :=
  match a with
  | Fin x => if Rle_dec 0 x then true else false
  | NaN => false
  end.

(** [np.sqrt] *)
Definition sqrt (a : num) : num :=
  match a with
  | Fin x => if Rlt_dec x 0 then NaN else Fin (R_sqrt.sqrt x)
  | NaN => NaN
  end.
Arguments sqrt : simpl never.

(** The builtin [sum] of a column: a left fold of [+] that starts at 0. *)
Definition sum (l : list num) : num := foldl add zero l.

Definition is_nan (a : num) : bool :=
  match a with
  | Fin _ => false
  | NaN => true
  end.

End Num.

Import Num.

(** ** Exceptions *)

Inductive error : Type :=
  | KeyError (key : string)
  | ValueError (msg : string)
  | ZeroDivisionError
  | OverflowError.

Inductive result (A : Type) : Type :=
  | Ok (a : A)
  | Raise (e : error).
Arguments Ok {A} a.
Arguments Raise {A} e.

Global Instance result_ret : MRet result := λ A a, Ok a.
Global Instance result_bind : MBind result := λ A B f m,
  match m with
  | Ok a => f a
  | Raise e => Raise e
  end.

(** [d[k]] on a dictionary *)
Definition getitem {A : Type} (d : gmap string A) (k : string) : result A :=
  match d !! k with
  | Some v => Ok v
  | None => Raise (KeyError k)
  end.

(** [d[k]] where [k] is one of the literal keys kept as a record field *)
Definition getfield {A : Type} (k : string) (field : option A) : result A :=
  match field with
  | Some v => Ok v
  | None => Raise (KeyError k)
  end.

(** [a / b] on Python numbers *)
Definition truediv (a b : num) : result num :=
  match a, b with
  | Fin x, Fin y => if Req_dec_T y 0 then Raise ZeroDivisionError else Ok (Fin (x / y)%R)
  | _, _ => Ok NaN
  end.

(** A loop whose body may raise. *)
Fixpoint foldlM {A B : Type} (f : A → B → result A) (a : A) (l : list B) : result A :=
  match l with
  | [] => Ok a
  | x :: l' => a' ← f a x; foldlM f a' l'
  end.

(** ** The node side: [client_app.query] *)

(** A column of a data frame, with the dtype that [pd.read_csv] gives it:
    [int64] when every cell is an integer, [float64] otherwise, where a
    missing cell is NaN. *)
Inductive Series : Type :=
  | IntSeries (l : list Z)
  | FloatSeries (l : list num).

(** The elements that iterating over a column yields, as Python numbers:
    [sum] and [len] see these. *)
Definition tolist (s : Series) : list num :=
  match s with
  | IntSeries l => (λ z, Fin (IZR z)) <$> l
  | FloatSeries l => l
  end.

(** The value that 64 bits in two's complement hold for an integer. *)
Definition wrap64 (z : Z) : Z := ((z + 2 ^ 63) `mod` 2 ^ 64 - 2 ^ 63)%Z.

(** [series ** 2]: element-wise, in the dtype of the column. *)
Definition pow2_series (s : Series) : Series :=
  match s with
  | IntSeries l => IntSeries ((λ z, wrap64 (z * z)) <$> l)
  | FloatSeries l => FloatSeries (pow2 <$> l)
  end.

(** [df]: the columns of the local data set, by name. *)
Abbreviation DataFrame := (gmap string Series).

(** [metrics], then the [MetricRecord] of the reply *)
Abbreviation MetricRecord := (gmap string num).

Definition not_recognized (agg : string) : string :=
  "Aggregation method '" +:+ agg +:+ "' not recognized.".

Definition feature_not_found (feature : string) : string :=
  "Feature '" +:+ feature +:+ "' not found in dataset columns.".

(** The body of [for agg in feature_aggregation], on the state
    [(metrics, printed lines)]. *)
Definition query_agg (feature : string) (col : Series)
    (st : MetricRecord * list string) (agg : string) : MetricRecord * list string :=
  let (metrics, out) := st in
  if decide (agg = "mean") then
    (<[feature +:+ "_" +:+ agg +:+ "_count" := of_nat (length (tolist col))]>
       (<[feature +:+ "_" +:+ agg +:+ "_sum" := sum (tolist col)]> metrics), out)
  else if decide (agg = "std") then
    (<[feature +:+ "_" +:+ agg +:+ "_sum_sqd" := sum (tolist (pow2_series col))]>
       (<[feature +:+ "_" +:+ agg +:+ "_count" := of_nat (length (tolist col))]>
          (<[feature +:+ "_" +:+ agg +:+ "_sum" := sum (tolist col)]> metrics)), out)
  else (metrics, out ++ [not_recognized agg]).

(** [for feature in selected_features] *)
Fixpoint query_loop (df : DataFrame) (selected_features feature_aggregation : list string)
    (st : MetricRecord * list string) : list string * result MetricRecord :=
  match selected_features with
  | [] => (st.2, Ok st.1)
  | feature :: rest =>
      match df !! feature with
      | None => (st.2, Raise (ValueError (feature_not_found feature)))
      | Some col =>
          query_loop df rest feature_aggregation
            (foldl (query_agg feature col) st feature_aggregation)
      end
  end.

(** [query]: the printed lines, and the metrics of the reply or the
    exception. *)
Definition query (df : DataFrame) (selected_features feature_aggregation : list string)
    : list string * result MetricRecord :=
  query_loop df selected_features feature_aggregation (∅, []).

(** ** Messages *)

(** A reply either carries an error or a content, a dictionary of
    records; the values of a record are the 64-bit integers and the floats
    that a [MetricRecord] carries. *)
Inductive Message : Type :=
  | MsgError (reason : string)
  | MsgContent (content : gmap string (gmap string num)).

Definition has_error (msg : Message) : bool :=
  match msg with
  | MsgError _ => true
  | MsgContent _ => false
  end.

(** What the messaging runtime delivers for a node: the reply built by
    [query], or an error reply when [query] raised. *)
Definition node_reply (df : DataFrame) (selected_features feature_aggregation : list string)
    : Message :=
  match (query df selected_features feature_aggregation).2 with
  | Ok metrics => MsgContent {[ "query_results" := metrics ]}
  | Raise (ValueError msg) => MsgError msg
  | Raise (KeyError k) => MsgError k
  | Raise ZeroDivisionError => MsgError "division by zero"
  | Raise OverflowError => MsgError "numerical result out of range"
  end.

(** ** The server side: [server_app.aggregate_features] *)

(** [{"sum": _, "count": _}] *)
Record MeanStats : Type := { mean_sum : num; mean_count : num }.

(** [{"sum": _, "count": _, "sum_sqd": _}] *)
Record StdStats : Type := { std_sum : num; std_count : num; std_sum_sqd : num }.

(** [stats[feature]]: a dictionary with keys among ["mean"] and ["std"]. *)
Record FeatureStats : Type :=
  { at_mean : option MeanStats; at_std : option StdStats }.

Definition no_stats : FeatureStats := {| at_mean := None; at_std := None |}.

Definition set_mean (fs : FeatureStats) (m : MeanStats) : FeatureStats :=
  {| at_mean := Some m; at_std := at_std fs |}.

Definition set_std (fs : FeatureStats) (s : StdStats) : FeatureStats :=
  {| at_mean := at_mean fs; at_std := Some s |}.

Definition init_method (fs : FeatureStats) (agg_method : string) : FeatureStats :=
  if decide (agg_method = "mean") then
    set_mean fs {| mean_sum := zero; mean_count := zero |}
  else if decide (agg_method = "std") then
    set_std fs {| std_sum := zero; std_count := zero; std_sum_sqd := zero |}
  else fs.

Definition initialize_aggregation_stats (selected_features feature_aggregation : list string)
    : gmap string FeatureStats :=
  foldl (λ stats feature, <[feature := foldl init_method no_stats feature_aggregation]> stats)
        ∅ selected_features.

Definition accumulate_statistics (aggregated_stats : gmap string FeatureStats)
    (results : gmap string num) (feature agg_method : string)
    : result (gmap string FeatureStats) :=
  if decide (agg_method = "mean") then
    fs ← getitem aggregated_stats feature;
    m ← getfield "mean" (at_mean fs);
    s ← getitem results (feature +:+ "_mean_sum");
    c ← getitem results (feature +:+ "_mean_count");
    Ok (<[feature := set_mean fs {| mean_sum := add (mean_sum m) s;
                                    mean_count := add (mean_count m) c |}]> aggregated_stats)
  else if decide (agg_method = "std") then
    fs ← getitem aggregated_stats feature;
    m ← getfield "std" (at_std fs);
    s ← getitem results (feature +:+ "_std_sum");
    c ← getitem results (feature +:+ "_std_count");
    q ← getitem results (feature +:+ "_std_sum_sqd");
    Ok (<[feature := set_std fs {| std_sum := add (std_sum m) s;
                                   std_count := add (std_count m) c;
                                   std_sum_sqd := add (std_sum_sqd m) q |}]> aggregated_stats)
  else Ok aggregated_stats.

Definition no_data_mean (feature : string) : string :=
  "No data available for feature '" +:+ feature +:+ "' mean calculation".

Definition insufficient_std (feature : string) : string :=
  "Insufficient data for feature '" +:+ feature +:+ "' std calculation (need > 1 samples)".

Definition unsupported_method (agg_method : string) : string :=
  "Unsupported aggregation method: " +:+ agg_method.

(** The largest finite float, [sys.float_info.max]. *)
Definition float_max : R := IZR (2 ^ 1024 - 2 ^ 971).
Arguments float_max : simpl never.

(** [a ** 2] on a Python float: [OverflowError] when the square is out of
    the range of the floats.  The square of a float is beyond the largest
    float exactly when it rounds to infinity: the largest float whose
    square is in range is 2^512 - 2^459, and the square of the next one is
    2^1024. *)
Definition float_pow2 (a : num) : result num :=
  match a with
  | Fin x => if Rlt_dec float_max (x * x) then Raise OverflowError else Ok (Fin (x * x)%R)
  | NaN => Ok NaN
  end.

(** The variance from the reduced totals, before the floor. *)
Definition raw_variance (sum count sum_sqd : num) : result num :=
  mean ← truediv sum count;
  mean_sqd ← float_pow2 mean;
  truediv (sub sum_sqd (mul count mean_sqd)) (sub count one).

Definition compute_final_statistics (aggregated_stats : gmap string FeatureStats)
    (feature agg_method : string) : result num :=
  if decide (agg_method = "mean") then
    fs ← getitem aggregated_stats feature;
    stats ← getfield "mean" (at_mean fs);
    if eq0 (mean_count stats) then Raise (ValueError (no_data_mean feature))
    else truediv (mean_sum stats) (mean_count stats)
  else if decide (agg_method = "std") then
    fs ← getitem aggregated_stats feature;
    stats ← getfield "std" (at_std fs);
    if le1 (std_count stats) then Raise (ValueError (insufficient_std feature))
    else
      variance ← raw_variance (std_sum stats) (std_count stats) (std_sum_sqd stats);
      Ok (sqrt (if lt0 variance then zero else variance))
  else Raise (ValueError (unsupported_method agg_method)).

(** The accumulation of one valid reply:
    [for feature in selected_features: for agg_method in feature_aggregation]. *)
Definition accumulate_reply (selected_features feature_aggregation : list string)
    (query_results : gmap string num) (aggregated_stats : gmap string FeatureStats)
    : result (gmap string FeatureStats) :=
  foldlM (λ stats feature,
            foldlM (λ stats' agg_method,
                      accumulate_statistics stats' query_results feature agg_method)
                   stats feature_aggregation)
         aggregated_stats selected_features.

(** [for message in messages], on the state
    [(aggregated_stats, valid_message_count)]. *)
Fixpoint reduce_messages (messages : list Message)
    (selected_features feature_aggregation : list string)
    (st : gmap string FeatureStats * nat) : result (gmap string FeatureStats * nat) :=
  match messages with
  | [] => Ok st
  | message :: rest =>
      match message with
      | MsgError _ =>
          (* [if message.has_error(): continue] *)
          reduce_messages rest selected_features feature_aggregation st
      | MsgContent content =>
          query_results ← getitem content "query_results";
          stats ← accumulate_reply selected_features feature_aggregation query_results st.1;
          reduce_messages rest selected_features feature_aggregation (stats, S st.2)
      end
  end.

(** [final_stats]: feature, then method, then a float or [None]. *)
Abbreviation FinalStats := (gmap string (gmap string (option num))).

Definition warning (e : string) : string := "Warning: " +:+ e.

(** [for agg_method in feature_aggregation] of the final loop, with its
    [try]/[except ValueError], on the state [(final_stats[feature], log)]. *)
Fixpoint final_methods (aggregated_stats : gmap string FeatureStats) (feature : string)
    (feature_aggregation : list string) (entry : gmap string (option num))
    (log : list string) : list string * result (gmap string (option num)) :=
  match feature_aggregation with
  | [] => (log, Ok entry)
  | agg_method :: rest =>
      match compute_final_statistics aggregated_stats feature agg_method with
      | Ok v => final_methods aggregated_stats feature rest (<[agg_method := Some v]> entry) log
      | Raise (ValueError e) =>
          final_methods aggregated_stats feature rest (<[agg_method := None]> entry)
                        (log ++ [warning e])
      | Raise e => (log, Raise e)
      end
  end.

Fixpoint final_features (aggregated_stats : gmap string FeatureStats)
    (selected_features feature_aggregation : list string) (final_stats : FinalStats)
    (log : list string) : list string * result FinalStats :=
  match selected_features with
  | [] => (log, Ok final_stats)
  | feature :: rest =>
      match final_methods aggregated_stats feature feature_aggregation ∅ log with
      | (log', Ok entry) =>
          final_features aggregated_stats rest feature_aggregation
                         (<[feature := entry]> final_stats) log'
      | (log', Raise e) => (log', Raise e)
      end
  end.

Definition no_valid_messages : string := "No valid messages received from clients".

(** The reduction phase: the accumulated totals and [valid_message_count]. *)
Definition reduce_round (messages : list Message)
    (selected_features feature_aggregation : list string)
    : result (gmap string FeatureStats * nat) :=
  reduce_messages messages selected_features feature_aggregation
    (initialize_aggregation_stats selected_features feature_aggregation, 0).

Definition aggregate_features (messages : list Message)
    (selected_features feature_aggregation : list string)
    : list string * result FinalStats :=
  match reduce_round messages selected_features feature_aggregation with
  | Raise e => ([], Raise e)
  | Ok (aggregated_stats, valid_message_count) =>
      if decide (valid_message_count = 0) then ([], Raise (ValueError no_valid_messages))
      else final_features aggregated_stats selected_features feature_aggregation ∅ []
  end.

(** ** The coordinator: the request of a round, [server_app.main] *)

(** [s.split(sep)] for a separator of one character: the pieces of [s]
    between the occurrences of the separator, the empty ones included; the
    result is never empty. *)
Fixpoint split (sep : ascii) (s : string) : list string :=
  match s with
  | EmptyString => [EmptyString]
  | String c s' =>
      if decide (c = sep) then EmptyString :: split sep s'
      else match split sep s' with
           | [] => [String c EmptyString]
           | w :: ws => String c w :: ws
           end
  end.

(** [sep.join(l)] *)
Fixpoint join (sep : string) (l : list string) : string :=
  match l with
  | [] => EmptyString
  | w :: l' =>
      match l' with
      | [] => w
      | _ :: _ => w +:+ sep +:+ join sep l'
      end
  end.

(** [str(context.run_config[...]).split(",")], for a value that is a
    string. *)
Definition parse_list (value : string) : list string := split ","%char value.

(** The messages of the coordinator: a content of configuration records, a
    type, a destination and a group. *)
Inductive MessageType : Type := TRAIN | EVALUATE | QUERY.

Record Request : Type :=
  { rq_content : gmap string (gmap string (list string));
    rq_message_type : MessageType;
    rq_dst_node_id : Z;
    rq_group_id : string }.

(** [ConfigRecord({...})] *)
Definition make_config (selected_features feature_aggregation : list string)
    : gmap string (list string) :=
  {[ "selected_features" := selected_features;
     "feature_aggregation" := feature_aggregation ]}.

(** [for node_id in node_ids: messages.append(Message(...))] *)
Definition make_messages (selected_features feature_aggregation : list string)
    (node_ids : list Z) : list Request :=
  (λ node_id,
     {| rq_content := {[ "config" := make_config selected_features feature_aggregation ]};
        rq_message_type := QUERY;
        rq_dst_node_id := node_id;
        rq_group_id := "1" |}) <$> node_ids.

(** The handler [query(msg, context)] of the node, on the data frame read
    from the data set path: the two lists are read from the message, the
    metrics are computed by the loop [query] above, and the reply content is
    [RecordDict({"query_results": MetricRecord(metrics)})]. *)
Definition query_message (msg : Request) (df : DataFrame)
    : list string * result (gmap string (gmap string num)) :=
  match getitem (rq_content msg) "config" with
  | Raise e => ([], Raise e)
  | Ok config =>
      match getitem config "selected_features" with
      | Raise e => ([], Raise e)
      | Ok selected_features =>
          match getitem config "feature_aggregation" with
          | Raise e => ([], Raise e)
          | Ok feature_aggregation =>
              let (out, metrics) := query df selected_features feature_aggregation in
              (out, m ← metrics; Ok {[ "query_results" := m ]})
          end
      end
  end.

(** What the messaging runtime delivers for a run of the handler. *)
Definition deliver (run : list string * result (gmap string (gmap string num))) : Message :=
  match run.2 with
  | Ok content => MsgContent content
  | Raise (ValueError msg) => MsgError msg
  | Raise (KeyError k) => MsgError k
  | Raise ZeroDivisionError => MsgError "division by zero"
  | Raise OverflowError => MsgError "numerical result out of range"
  end.

(** The features of a request up to the first one that a data frame
    lacks. *)
Fixpoint present_prefix (df : DataFrame) (selected_features : list string) : list string :=
  match selected_features with
  | [] => []
  | feature :: rest =>
      match df !! feature with
      | Some _ => feature :: present_prefix df rest
      | None => []
      end
  end.

(** ** Definitions used in the statements *)

(** The sum of the reals of a list without NaN. *)
Fixpoint rsum (xs : list R) : R :=
  match xs with
  | [] => 0
  | x :: xs' => x + rsum xs'
  end%R.

(** The endings of the keys that [query] writes and [aggregate_features]
    reads. *)
Definition key_endings : list string :=
  ["_mean_sum"; "_mean_count"; "_std_sum"; "_std_count"; "_std_sum_sqd"].

(** The keys and values that one pass of the body of [query] stores for a
    feature with column [col] and a method [agg]. *)
Definition entries (feature : string) (col : Series) (agg : string) : list (string * num) :=
  if decide (agg = "mean") then
    [(feature +:+ "_mean_sum", sum (tolist col));
     (feature +:+ "_mean_count", of_nat (length (tolist col)))]
  else if decide (agg = "std") then
    [(feature +:+ "_std_sum", sum (tolist col));
     (feature +:+ "_std_count", of_nat (length (tolist col)));
     (feature +:+ "_std_sum_sqd", sum (tolist (pow2_series col)))]
  else [].

(** The statistic of a column that belongs under a key with ending [e]. *)
Definition statistic (e : string) (col : Series) : num :=
  if decide (e = "_mean_sum" ∨ e = "_std_sum") then sum (tolist col)
  else if decide (e = "_std_sum_sqd") then sum (tolist (pow2_series col))
  else of_nat (length (tolist col)).

(** A method is recognised by the node when it is ["mean"] or ["std"]. *)
Definition recognized (agg : string) : bool :=
  bool_decide (agg = "mean") || bool_decide (agg = "std").

(** The value that a lookup with a default returns for an absent key plays
    no role on a reply that has the key. *)
Global Instance num_inhabited : Inhabited num := populate NaN.

(** [stats[feature]["mean"]] and [stats[feature]["std"]], when present. *)
Definition mean_at (stats : gmap string FeatureStats) (feature : string) : option MeanStats :=
  stats !! feature ≫= at_mean.

Definition std_at (stats : gmap string FeatureStats) (feature : string) : option StdStats :=
  stats !! feature ≫= at_std.

(** How often [x] occurs in a request list. *)
Definition occurrences (x : string) (l : list string) : nat :=
  length (filter (λ y, y = x) l).

(** [x] added [k] times to [a]. *)
Definition add_times (k : nat) (x a : num) : num := Nat.iter k (λ a', add a' x) a.

(** The statistics of the reply [r] for feature [g], added [k] times. *)
Definition bump_mean (r : gmap string num) (g : string) (k : nat) (m : MeanStats) : MeanStats :=
  {| mean_sum := add_times k (r !!! (g +:+ "_mean_sum")) (mean_sum m);
     mean_count := add_times k (r !!! (g +:+ "_mean_count")) (mean_count m) |}.

Definition bump_std (r : gmap string num) (g : string) (k : nat) (s : StdStats) : StdStats :=
  {| std_sum := add_times k (r !!! (g +:+ "_std_sum")) (std_sum s);
     std_count := add_times k (r !!! (g +:+ "_std_count")) (std_count s);
     std_sum_sqd := add_times k (r !!! (g +:+ "_std_sum_sqd")) (std_sum_sqd s) |}.

(** The keys of [results] that [_accumulate_statistics] looks up for a
    feature and a method. *)
Definition lookups (feature agg_method : string) : list string :=
  if decide (agg_method = "mean") then
    [feature +:+ "_mean_sum"; feature +:+ "_mean_count"]
  else if decide (agg_method = "std") then
    [feature +:+ "_std_sum"; feature +:+ "_std_count"; feature +:+ "_std_sum_sqd"]
  else [].

(** All the keys looked up while one reply is accumulated. *)
Definition keys_read (selected_features feature_aggregation : list string) : list string :=
  feature ← selected_features; agg_method ← feature_aggregation; lookups feature agg_method.

(** The accumulators that the two loops of the reduction index exist. *)
Definition initialised (selected_features feature_aggregation : list string)
    (stats : gmap string FeatureStats) : Prop :=
  ∀ f, f ∈ selected_features →
    ("mean" ∈ feature_aggregation → is_Some (mean_at stats f)) ∧
    ("std" ∈ feature_aggregation → is_Some (std_at stats f)).

(** The record of a valid reply. *)
Definition results_of (msg : Message) : option (gmap string num) :=
  match msg with
  | MsgError _ => None
  | MsgContent content => content !! "query_results"
  end.

(** The records of the valid replies of a round, in order. *)
Definition valid_results (messages : list Message) : list (gmap string num) :=
  omap results_of messages.
Arguments valid_results : simpl never.

(** A valid reply carries a record with every key of the request. *)
Definition well_formed (selected_features feature_aggregation : list string)
    (msg : Message) : Prop :=
  match msg with
  | MsgError _ => True
  | MsgContent content =>
      match content !! "query_results" with
      | Some r =>
          Forall (λ k, is_Some (r !! k)) (keys_read selected_features feature_aggregation)
      | None => False
      end
  end.

Global Instance well_formed_dec fs ms msg : Decision (well_formed fs ms msg).
Proof.
  destruct msg as [reason|content]; cbn; [apply _|].
  destruct (content !! "query_results"); apply _.
Defined.

(** The total of the values under key [k] over the records [rs]. *)
Definition total (k : string) (rs : list (gmap string num)) : num :=
  sum ((λ r : gmap string num, r !!! k) <$> rs).

(** [x] added [k] times to zero. *)
Definition scale (k : nat) (x : num) : num := add_times k x zero.

(** [final_stats[feature][agg_method]]: [None] when the entry is absent,
    [Some None] when it is null. *)
Definition final_at (final_stats : FinalStats) (feature agg_method : string)
    : option (option num) :=
  final_stats !! feature ≫= (λ entry, entry !! agg_method).

(** The value that the final loop stores for an entry: the statistic, or
    null when its computation raised. *)
Definition final_value (stats : gmap string FeatureStats) (feature agg_method : string)
    : option num :=
  match compute_final_statistics stats feature agg_method with
  | Ok v => Some v
  | Raise _ => None
  end.

(** The lines that the final loop logs for an entry, for a feature, and for
    the whole request. *)
Definition warnings_at (stats : gmap string FeatureStats) (feature agg_method : string)
    : list string :=
  match compute_final_statistics stats feature agg_method with
  | Raise (ValueError e) => [warning e]
  | _ => []
  end.

Definition warnings_for (stats : gmap string FeatureStats) (feature : string)
    (feature_aggregation : list string) : list string :=
  agg_method ← feature_aggregation; warnings_at stats feature agg_method.

Definition all_warnings (stats : gmap string FeatureStats)
    (selected_features feature_aggregation : list string) : list string :=
  feature ← selected_features; warnings_for stats feature feature_aggregation.

(** The exceptions that the [except ValueError] of the final loop catches. *)
Definition caught {A : Type} (x : result A) : Prop :=
  match x with
  | Ok _ | Raise (ValueError _) => True
  | Raise _ => False
  end.

(** A node whose local data set has every requested feature. *)
Definition has_features (selected_features : list string) (df : DataFrame) : Prop :=
  Forall (λ feature, is_Some (df !! feature)) selected_features.

Global Instance has_features_dec fs df : Decision (has_features fs df).
Proof. unfold has_features. apply _. Defined.

(** The column of a feature on a node, its values, and the values of the
    columns of the nodes that answer a request. *)
Definition series (feature : string) (df : DataFrame) : Series :=
  default (FloatSeries []) (df !! feature).

Definition column (feature : string) (df : DataFrame) : list num :=
  tolist (series feature df).

Definition valid_frames (selected_features : list string) (dfs : list DataFrame)
    : list DataFrame :=
  filter (has_features selected_features) dfs.

Definition columns (feature : string) (selected_features : list string)
    (dfs : list DataFrame) : list (list num) :=
  column feature <$> valid_frames selected_features dfs.

(** The squares that the nodes that answer a request compute, column by
    column. *)
Definition square_columns (feature : string) (selected_features : list string)
    (dfs : list DataFrame) : list (list num) :=
  (λ df, tolist (pow2_series (series feature df))) <$> valid_frames selected_features dfs.

(** The columns of a data frame have the same number of rows. *)
Definition rectangular (df : DataFrame) : Prop :=
  map_Forall (λ _ s, map_Forall (λ _ t, length (tolist s) = length (tolist t)) df) df.

Global Instance rectangular_dec df : Decision (rectangular df).
Proof. unfold rectangular. apply _. Defined.

(** The squares of an [int64] column that fit in 64 bits. *)
Definition squares_fit (col : Series) : Prop :=
  match col with
  | IntSeries l => Forall (λ z, z * z < 2 ^ 63)%Z l
  | FloatSeries _ => True
  end.

(** Totals of a standard deviation that pass the guard on the count and
    whose mean has a square beyond the largest float. *)
Definition overflows (s : StdStats) : Prop :=
  match std_sum s, std_count s with
  | Fin x, Fin c => (1 < c)%R ∧ (float_max < x / c * (x / c))%R
  | _, _ => False
  end.

(** No standard deviation requested in a round has such totals. *)
Definition no_overflow (messages : list Message)
    (selected_features feature_aggregation : list string) : Prop :=
  ∀ stats n feature s,
    reduce_round messages selected_features feature_aggregation = Ok (stats, n) →
    feature ∈ selected_features → "std" ∈ feature_aggregation →
    std_at stats feature = Some s → ¬ overflows s.

(** The replies of a round, one for each node. *)
Definition replies (dfs : list DataFrame) (selected_features feature_aggregation : list string)
    : list Message :=
  (λ df, node_reply df selected_features feature_aggregation) <$> dfs.

(** The number of rows of a column that hold a value. *)
Definition non_missing (col : list num) : nat :=
  length (filter (λ x, is_nan x = false) col).

(** The sample standard deviation of a list of values, computed directly
    on the list as the specification words it: the mean, the squared
    deviations from the mean, the N-1 denominator, the square root. *)
Definition sample_std (values : list num) : result num :=
  mean ← truediv (sum values) (of_nat (length values));
  variance ← truediv (sum ((λ x, pow2 (sub x mean)) <$> values))
                     (sub (of_nat (length values)) one);
  Ok (sqrt variance).

(** The replies of the mean scenario: node A, node B (an error) and
    node C. *)
Definition scenario_replies : list Message :=
  [MsgContent {[ "query_results" :=
     ({[ "age_mean_sum" := Fin 30; "age_mean_count" := Fin 3 ]} : gmap string num) ]};
   MsgError "node B failed";
   MsgContent {[ "query_results" :=
     ({[ "age_mean_sum" := Fin 50; "age_mean_count" := Fin 5 ]} : gmap string num) ]}].

(** A reply whose totals for [bmi] have a mean beyond the square root of
    the largest float, beside totals for [age] with a single sample. *)
Definition overflow_replies : list Message :=
  [MsgContent {[ "query_results" :=
     ({[ "age_std_sum" := Fin 5; "age_std_count" := Fin 1; "age_std_sum_sqd" := Fin 25;
         "bmi_std_sum" := Fin (2 * IZR (10 ^ 200)); "bmi_std_count" := Fin 2;
         "bmi_std_sum_sqd" := Fin 0 ]} : gmap string num) ]}].

(** * Properties *)

(** ** Arithmetic of numbers with NaN *)

Section num_facts.

Lemma add_zero_l a : add zero a = a.
Proof. destruct a as [x|]; simpl; [f_equal; lra | done]. Qed.

Lemma add_zero_r a : add a zero = a.
Proof. destruct a as [x|]; simpl; [f_equal; lra | done]. Qed.

Lemma add_assoc a b c : add a (add b c) = add (add a b) c.
Proof. destruct a, b, c; simpl; try done. f_equal; lra. Qed.

Lemma add_comm a b : add a b = add b a.
Proof. destruct a, b; simpl; try done. f_equal; lra. Qed.

Lemma add_nan_r a : add a NaN = NaN.
Proof. by destruct a. Qed.

Lemma foldl_add a l : foldl add a l = add a (sum l).
Proof.
  unfold sum. revert a. induction l as [|x l IH]; intros a; cbn [foldl].
  - by rewrite add_zero_r.
  - rewrite (IH (add a x)), (IH (add zero x)), add_zero_l. by rewrite add_assoc.
Qed.

Lemma sum_nil : sum [] = zero.
Proof. done. Qed.

Lemma sum_cons x l : sum (x :: l) = add x (sum l).
Proof. unfold sum at 1. cbn [foldl]. by rewrite foldl_add, add_zero_l. Qed.

Lemma sum_app l1 l2 : sum (l1 ++ l2) = add (sum l1) (sum l2).
Proof.
  induction l1 as [|x l1 IH]; simpl.
  - by rewrite sum_nil, add_zero_l.
  - by rewrite !sum_cons, IH, add_assoc.
Qed.

Lemma sum_concat (ls : list (list num)) : sum (concat ls) = sum (sum <$> ls).
Proof.
  induction ls as [|l ls IH]; simpl; [done|].
  by rewrite sum_app, sum_cons, IH.
Qed.

Lemma sum_Permutation l1 l2 : Permutation l1 l2 → sum l1 = sum l2.
Proof.
  induction 1 as [|x l l' _ IH|x y l|l l' l'' _ IH1 _ IH2].
  - done.
  - by rewrite !sum_cons, IH.
  - rewrite !sum_cons, !add_assoc. by rewrite (add_comm y x).
  - by rewrite IH1.
Qed.

Lemma sum_Fin (xs : list R) : sum (Fin <$> xs) = Fin (rsum xs).
Proof.
  induction xs as [|x xs IH]; [done|].
  rewrite fmap_cons, sum_cons, IH. done.
Qed.

Lemma sum_nan (l : list num) : NaN ∈ l → sum l = NaN.
Proof.
  induction l as [|x l IH]; [by intros ?%elem_of_nil|].
  rewrite sum_cons. intros [<-|Hin]%elem_of_cons; [done|].
  by rewrite IH, add_nan_r.
Qed.

Lemma fin_or_nan (l : list num) : (∃ xs, l = Fin <$> xs) ∨ NaN ∈ l.
Proof.
  induction l as [|[x|] l [[xs ->]|Hin]].
  - left. by exists [].
  - left. by exists (x :: xs).
  - right. by apply elem_of_cons; right.
  - right. apply elem_of_cons; by left.
  - right. apply elem_of_cons; by left.
Qed.

Lemma pow2_Fin (xs : list R) : pow2 <$> (Fin <$> xs) = Fin <$> ((λ x, x * x)%R <$> xs).
Proof. induction xs as [|x xs IH]; [done|]. rewrite !fmap_cons, IH. done. Qed.

Lemma pow2_nan (l : list num) : NaN ∈ l → NaN ∈ pow2 <$> l.
Proof. intros Hin. by apply (list_elem_of_fmap_2 pow2) in Hin. Qed.

Lemma rsum_sq_nonneg (xs : list R) : (0 <= rsum ((λ x, x * x)%R <$> xs))%R.
Proof.
  induction xs as [|x xs IH]; [simpl; lra|].
  rewrite fmap_cons. cbn [rsum]. nra.
Qed.

Lemma rsum_app xs ys : rsum (xs ++ ys) = (rsum xs + rsum ys)%R.
Proof. induction xs as [|x xs IH]; simpl; lra. Qed.

End num_facts.

(** ** The keys of a metric record *)

Section keys.

Local Abbreviation list_ascii_of_string := Stdlib.Strings.String.list_ascii_of_string.
Local Abbreviation string_of_list_ascii_of_string :=
  Stdlib.Strings.String.string_of_list_ascii_of_string.

Lemma chars_app (s t : string) :
  list_ascii_of_string (s +:+ t) = list_ascii_of_string s ++ list_ascii_of_string t.
Proof. induction s as [|c s IH]; simpl; [done | by rewrite IH]. Qed.

Lemma chars_inj (s t : string) :
  list_ascii_of_string s = list_ascii_of_string t → s = t.
Proof.
  intros H. rewrite <- (string_of_list_ascii_of_string s), H.
  apply string_of_list_ascii_of_string.
Qed.

(** Two keys are equal only when they name the same feature and end alike. *)
Lemma key_inj (f f' e e' : string) :
  e ∈ key_endings → e' ∈ key_endings → f +:+ e = f' +:+ e' → f = f' ∧ e = e'.
Proof.
  intros He He' Heq.
  apply (f_equal list_ascii_of_string) in Heq. rewrite !chars_app in Heq.
  apply (f_equal reverse) in Heq. rewrite !reverse_app in Heq.
  unfold key_endings in He, He'.
  repeat (apply elem_of_cons in He as [->|He]); [..|by apply elem_of_nil in He];
  repeat (apply elem_of_cons in He' as [->|He']); try (by apply elem_of_nil in He');
  cbn in Heq; try discriminate Heq;
  (split; [|done]); apply chars_inj, (inj reverse); congruence.
Qed.

Lemma key_feature_inj (f f' e : string) :
  e ∈ key_endings → f +:+ e = f' +:+ e → f = f'.
Proof. intros He Heq. by destruct (key_inj f f' e e He He Heq). Qed.

Lemma key_ending_ne (f f' e e' : string) :
  e ∈ key_endings → e' ∈ key_endings → e ≠ e' → f +:+ e ≠ f' +:+ e'.
Proof. intros He He' Hne Heq. by destruct (key_inj f f' e e' He He' Heq). Qed.

End keys.

(** ** What [query] writes *)

Section query_facts.

Implicit Types (df : DataFrame) (metrics r : MetricRecord) (col : Series).
Implicit Types (f feature agg m k : string) (v : num) (out : list string).

Lemma query_agg_mean f col metrics out :
  query_agg f col (metrics, out) "mean"
  = (<[f +:+ "_mean_count" := of_nat (length (tolist col))]>
       (<[f +:+ "_mean_sum" := sum (tolist col)]> metrics), out).
Proof. reflexivity. Qed.

Lemma query_agg_std f col metrics out :
  query_agg f col (metrics, out) "std"
  = (<[f +:+ "_std_sum_sqd" := sum (tolist (pow2_series col))]>
       (<[f +:+ "_std_count" := of_nat (length (tolist col))]>
          (<[f +:+ "_std_sum" := sum (tolist col)]> metrics)), out).
Proof. reflexivity. Qed.

Lemma query_agg_other f col metrics out agg :
  agg ≠ "mean" → agg ≠ "std" →
  query_agg f col (metrics, out) agg = (metrics, out ++ [not_recognized agg]).
Proof. intros H1 H2. unfold query_agg. by rewrite !decide_False. Qed.

(** Every entry after one pass is a stored one or was there before. *)
Lemma query_agg_lookup f col st agg k v :
  (query_agg f col st agg).1 !! k = Some v →
  (k, v) ∈ entries f col agg ∨ st.1 !! k = Some v.
Proof.
  destruct st as [metrics out]. unfold entries.
  destruct (decide (agg = "mean")) as [->|Hm]; [|destruct (decide (agg = "std")) as [->|Hs]].
  - rewrite query_agg_mean. cbn [fst]. rewrite !lookup_insert.
    repeat case_decide; simplify_eq; intros; simplify_eq; auto;
      left; rewrite !elem_of_cons; auto.
  - rewrite query_agg_std. cbn [fst]. rewrite !lookup_insert.
    repeat case_decide; simplify_eq; intros; simplify_eq; auto;
      left; rewrite !elem_of_cons; auto.
  - rewrite query_agg_other by done. auto.
Qed.

(** Nothing is removed by a pass. *)
Lemma query_agg_mono f col st agg k :
  is_Some (st.1 !! k) → is_Some ((query_agg f col st agg).1 !! k).
Proof.
  destruct st as [metrics out]. intros Hk.
  destruct (decide (agg = "mean")) as [->|Hm]; [|destruct (decide (agg = "std")) as [->|Hs]].
  - rewrite query_agg_mean. cbn [fst]. rewrite !lookup_insert. by repeat case_decide.
  - rewrite query_agg_std. cbn [fst]. rewrite !lookup_insert. by repeat case_decide.
  - by rewrite query_agg_other.
Qed.

(** Every stored key is present after the pass. *)
Lemma query_agg_present f col st agg k v :
  (k, v) ∈ entries f col agg → is_Some ((query_agg f col st agg).1 !! k).
Proof.
  destruct st as [metrics out]. unfold entries.
  destruct (decide (agg = "mean")) as [->|Hm]; [|destruct (decide (agg = "std")) as [->|Hs]].
  - rewrite query_agg_mean. cbn [fst]. rewrite !lookup_insert, !elem_of_cons, elem_of_nil.
    intros [?|[?|[]]]; simplify_eq; by repeat case_decide.
  - rewrite query_agg_std. cbn [fst]. rewrite !lookup_insert, !elem_of_cons, elem_of_nil.
    intros [?|[?|[?|[]]]]; simplify_eq; by repeat case_decide.
  - by intros ?%elem_of_nil.
Qed.

Lemma query_fold_lookup f col aggs st k v :
  (foldl (query_agg f col) st aggs).1 !! k = Some v →
  (∃ agg, agg ∈ aggs ∧ (k, v) ∈ entries f col agg) ∨ st.1 !! k = Some v.
Proof.
  revert st. induction aggs as [|a aggs IH]; intros st; cbn [foldl]; [auto|].
  intros [(agg & Hin & He)|Hst]%IH.
  - left. exists agg. split; [by apply elem_of_cons; right | done].
  - apply query_agg_lookup in Hst as [He|Hst]; [|auto].
    left. exists a. split; [by apply elem_of_cons; left | done].
Qed.

Lemma query_fold_mono f col aggs st k :
  is_Some (st.1 !! k) → is_Some ((foldl (query_agg f col) st aggs).1 !! k).
Proof.
  revert st. induction aggs as [|a aggs IH]; intros st; cbn [foldl]; [done|].
  intros Hk. by apply IH, query_agg_mono.
Qed.

Lemma query_fold_present f col aggs st agg k v :
  agg ∈ aggs → (k, v) ∈ entries f col agg →
  is_Some ((foldl (query_agg f col) st aggs).1 !! k).
Proof.
  revert st. induction aggs as [|a aggs IH]; intros st; cbn [foldl].
  - by intros ?%elem_of_nil.
  - intros [->|Hin]%elem_of_cons He.
    + eapply query_fold_mono, query_agg_present, He.
    + by apply IH.
Qed.

Lemma query_fold_out_mono f col aggs st line :
  line ∈ st.2 → line ∈ (foldl (query_agg f col) st aggs).2.
Proof.
  revert st. induction aggs as [|a aggs IH]; intros st; cbn [foldl]; [done|].
  intros Hin. apply IH. destruct st as [metrics out]. unfold query_agg.
  repeat case_decide; cbn [snd] in *; [done..|]. apply elem_of_app; by left.
Qed.

Lemma query_fold_prints f col aggs st agg :
  agg ∈ aggs → recognized agg = false →
  not_recognized agg ∈ (foldl (query_agg f col) st aggs).2.
Proof.
  unfold recognized. intros Hin [Hm Hs]%orb_false_elim.
  apply bool_decide_eq_false in Hm, Hs.
  revert st Hin. induction aggs as [|a aggs IH]; intros st; cbn [foldl].
  - by intros ?%elem_of_nil.
  - intros [<-|Hin]%elem_of_cons; [|by apply IH].
    apply query_fold_out_mono. destruct st as [metrics out].
    rewrite query_agg_other by done. cbn [snd].
    apply elem_of_app; right. by apply list_elem_of_singleton.
Qed.

(** The methods that the node does not recognise leave the metrics alone. *)
Lemma query_fold_recognized f col aggs st st' :
  st.1 = st'.1 →
  (foldl (query_agg f col) st aggs).1
  = (foldl (query_agg f col) st' (filter (λ agg, recognized agg = true) aggs)).1.
Proof.
  revert st st'. induction aggs as [|a aggs IH]; intros [m o] [m' o'] Heq;
    cbn [fst] in Heq; subst m'; cbn [foldl]; [done|].
  destruct (recognized a) eqn:Hrec.
  - rewrite filter_cons_True by done. cbn [foldl]. apply IH.
    unfold query_agg. by repeat case_decide.
  - rewrite filter_cons_False by (by rewrite Hrec). apply IH.
    apply orb_false_elim in Hrec as [Hm Hs].
    apply bool_decide_eq_false in Hm, Hs. by rewrite query_agg_other.
Qed.

(** The loop over the features. *)

Lemma query_loop_ok df fs ms st :
  (∀ f, f ∈ fs → is_Some (df !! f)) → ∃ r, (query_loop df fs ms st).2 = Ok r.
Proof.
  revert st. induction fs as [|f fs IH]; intros st Hall; cbn [query_loop].
  - by eexists.
  - destruct (Hall f) as [col ->]; [by apply elem_of_cons; left|].
    apply IH. intros g Hg. apply Hall. by apply elem_of_cons; right.
Qed.

Lemma query_loop_raise df fs ms st e :
  (query_loop df fs ms st).2 = Raise e →
  ∃ f, f ∈ fs ∧ df !! f = None ∧ e = ValueError (feature_not_found f).
Proof.
  revert st. induction fs as [|f fs IH]; intros st; cbn [query_loop]; [done|].
  destruct (df !! f) as [col|] eqn:Hf.
  - intros (g & Hg & Hnone & ->)%IH. exists g. split; [by apply elem_of_cons; right | done].
  - cbn [snd]. intros [= <-]. exists f. split; [by apply elem_of_cons; left | done].
Qed.

Lemma query_loop_absent df fs ms st f :
  f ∈ fs → df !! f = None → ∃ e, (query_loop df fs ms st).2 = Raise e.
Proof.
  revert st. induction fs as [|g fs IH]; intros st; cbn [query_loop].
  - by intros ?%elem_of_nil.
  - intros Hin Hnone. destruct (df !! g) as [col|] eqn:Hg; [|by eexists].
    apply IH; [|done]. apply elem_of_cons in Hin as [->|Hin]; [congruence | done].
Qed.

Lemma query_loop_mono df fs ms st r k :
  (query_loop df fs ms st).2 = Ok r → is_Some (st.1 !! k) → is_Some (r !! k).
Proof.
  revert st. induction fs as [|f fs IH]; intros st; cbn [query_loop].
  - by intros [= <-].
  - destruct (df !! f) as [col|]; [|done].
    intros Hr Hk. eapply IH; [done|]. by apply query_fold_mono.
Qed.

Lemma query_loop_present df fs ms st r f col m k v :
  (query_loop df fs ms st).2 = Ok r →
  f ∈ fs → m ∈ ms → df !! f = Some col → (k, v) ∈ entries f col m →
  is_Some (r !! k).
Proof.
  revert st. induction fs as [|g fs IH]; intros st; cbn [query_loop].
  - by intros _ ?%elem_of_nil.
  - destruct (df !! g) as [colg|] eqn:Hg; [|done].
    intros Hr [->|Hin]%elem_of_cons Hm Hf He.
    + eapply query_loop_mono; [done|]. simplify_eq. by eapply query_fold_present.
    + by eapply IH.
Qed.

Lemma query_loop_lookup df fs ms st r k v :
  (query_loop df fs ms st).2 = Ok r → r !! k = Some v →
  (∃ f col m, f ∈ fs ∧ m ∈ ms ∧ df !! f = Some col ∧ (k, v) ∈ entries f col m)
  ∨ st.1 !! k = Some v.
Proof.
  revert st. induction fs as [|g fs IH]; intros st; cbn [query_loop].
  - intros [= <-]. auto.
  - destruct (df !! g) as [colg|] eqn:Hg; [|done].
    intros Hr Hk. destruct (IH _ Hr Hk) as [(f & col & m & Hf & Hm & Hdf & He)|Hst].
    + left. exists f, col, m. split; [by apply elem_of_cons; right | done].
    + apply query_fold_lookup in Hst as [(m & Hm & He)|Hst]; [|auto].
      left. exists g, colg, m. split; [by apply elem_of_cons; left | done].
Qed.

Lemma query_loop_out_mono df fs ms st line :
  line ∈ st.2 → line ∈ (query_loop df fs ms st).1.
Proof.
  revert st. induction fs as [|f fs IH]; intros st; cbn [query_loop]; [done|].
  destruct (df !! f) as [col|]; [|done].
  intros Hin. by apply IH, query_fold_out_mono.
Qed.

Lemma query_loop_prints df fs ms st r f m :
  (query_loop df fs ms st).2 = Ok r → f ∈ fs → m ∈ ms → recognized m = false →
  not_recognized m ∈ (query_loop df fs ms st).1.
Proof.
  revert st. induction fs as [|g fs IH]; intros st; cbn [query_loop].
  - by intros _ ?%elem_of_nil.
  - destruct (df !! g) as [colg|] eqn:Hg; [|done].
    intros Hr [->|Hin]%elem_of_cons Hm Hrec.
    + by apply query_loop_out_mono, query_fold_prints.
    + by eapply IH.
Qed.

Lemma query_loop_recognized df fs ms st st' :
  st.1 = st'.1 →
  (query_loop df fs ms st).2
  = (query_loop df fs (filter (λ agg, recognized agg = true) ms) st').2.
Proof.
  revert st st'. induction fs as [|f fs IH]; intros st st' Heq; cbn [query_loop].
  - cbn [snd]. by rewrite Heq.
  - destruct (df !! f) as [col|]; [|done]. by apply IH, query_fold_recognized.
Qed.

(** Two stored entries with the same key belong to the same feature and
    hold the same statistic. *)
Lemma entries_shape f col m k v :
  (k, v) ∈ entries f col m →
  ∃ e, e ∈ key_endings ∧ k = f +:+ e ∧ v = statistic e col.
Proof.
  unfold entries, key_endings.
  repeat case_decide; subst; rewrite ?elem_of_cons, ?elem_of_nil;
    intros He; destruct_or?; simplify_eq; try done;
    eexists; (split; [|split; [reflexivity|reflexivity]]);
    rewrite !elem_of_cons; auto 10.
Qed.

Lemma entries_key_inj f f' col col' m m' k v v' :
  (k, v) ∈ entries f col m → (k, v') ∈ entries f' col' m' →
  f = f' ∧ (col = col' → v = v').
Proof.
  intros (e & He & -> & ->)%entries_shape (e' & He' & Hk & ->)%entries_shape.
  destruct (key_inj _ _ _ _ He He' Hk) as [-> ->]. split; [done | by intros ->].
Qed.

(** The value under a key of the reply is the statistic of the local
    column. *)
Lemma query_lookup df fs ms out r f col m k v :
  query df fs ms = (out, Ok r) →
  f ∈ fs → m ∈ ms → df !! f = Some col → (k, v) ∈ entries f col m →
  r !! k = Some v.
Proof.
  unfold query. intros Hq Hf Hm Hdf He.
  assert (Hr : (query_loop df fs ms (∅, [])).2 = Ok r) by by rewrite Hq.
  destruct (query_loop_present _ _ _ _ _ _ _ _ _ _ Hr Hf Hm Hdf He) as [v' Hv'].
  destruct (query_loop_lookup _ _ _ _ _ _ _ Hr Hv')
    as [(f' & col' & m' & Hf' & Hm' & Hdf' & He')|Hemp]; [|by cbn [fst] in Hemp; rewrite lookup_empty in Hemp].
  destruct (entries_key_inj _ _ _ _ _ _ _ _ _ He He') as [<- Hv].
  rewrite Hv'. f_equal. symmetry. apply Hv. congruence.
Qed.

End query_facts.

(** ** The reduction on the server *)

Section reduce_facts.

Implicit Types (stats st : gmap string FeatureStats) (r : gmap string num).
Implicit Types (f g m : string) (fs ms : list string).

Lemma bind_Ok {A B} (x : result A) (k : A → result B) b :
  x ≫= k = Ok b → ∃ a, x = Ok a ∧ k a = Ok b.
Proof. destruct x as [a|e]; [by exists a | done]. Qed.

Lemma getitem_Ok {A} (d : gmap string A) k v : getitem d k = Ok v → d !! k = Some v.
Proof. unfold getitem. by destruct (d !! k); intros [= ->]. Qed.

Lemma getfield_Ok {A} k (o : option A) v : getfield k o = Ok v → o = Some v.
Proof. unfold getfield. by destruct o; intros [= ->]. Qed.

Lemma add_times_0 x a : add_times 0 x a = a.
Proof. done. Qed.

Lemma add_times_1 x a : add_times 1 x a = add a x.
Proof. done. Qed.

Lemma add_times_plus j k x a : add_times (j + k) x a = add_times j x (add_times k x a).
Proof. unfold add_times. by rewrite Nat.iter_add. Qed.

Lemma bump_mean_0 r g (o : option MeanStats) : bump_mean r g 0 <$> o = o.
Proof. by destruct o as [[]|]. Qed.

Lemma bump_std_0 r g (o : option StdStats) : bump_std r g 0 <$> o = o.
Proof. by destruct o as [[]|]. Qed.

Lemma bump_mean_plus r g j k (o : option MeanStats) :
  bump_mean r g j <$> (bump_mean r g k <$> o) = bump_mean r g (j + k) <$> o.
Proof. destruct o as [[]|]; [|done]. unfold bump_mean. simpl. by rewrite !add_times_plus. Qed.

Lemma bump_std_plus r g j k (o : option StdStats) :
  bump_std r g j <$> (bump_std r g k <$> o) = bump_std r g (j + k) <$> o.
Proof. destruct o as [[]|]; [|done]. unfold bump_std. simpl. by rewrite !add_times_plus. Qed.

(** One call of [_accumulate_statistics], seen from the accumulator of the
    mean of a feature [g]. *)
Lemma accumulate_mean_at st r f m st' g :
  accumulate_statistics st r f m = Ok st' →
  mean_at st' g
  = bump_mean r g (if decide (f = g ∧ m = "mean") then 1 else 0) <$> mean_at st g.
Proof.
  unfold accumulate_statistics.
  destruct (decide (m = "mean")) as [->|Hm]; [|destruct (decide (m = "std")) as [->|Hs]].
  - intros (fs & Hfs%getitem_Ok & (ms0 & Hms%getfield_Ok
      & (s & Hs%getitem_Ok & (c & Hc%getitem_Ok & [= <-])%bind_Ok)%bind_Ok)%bind_Ok)%bind_Ok.
    unfold mean_at. rewrite lookup_insert. destruct (decide (f = g)) as [->|Hne].
    + rewrite decide_True by done. rewrite Hfs. simpl. rewrite Hms. simpl.
      unfold bump_mean. by rewrite !add_times_1, (lookup_total_correct _ _ _ Hs),
        (lookup_total_correct _ _ _ Hc).
    + rewrite decide_False by (intros [? ?]; congruence). by rewrite bump_mean_0.
  - intros (fs & Hfs%getitem_Ok & (ms0 & Hms%getfield_Ok
      & (s & Hs%getitem_Ok & (c & Hc%getitem_Ok
      & (q & Hq%getitem_Ok & [= <-])%bind_Ok)%bind_Ok)%bind_Ok)%bind_Ok)%bind_Ok.
    rewrite decide_False by (intros [? ?]; congruence). rewrite bump_mean_0.
    unfold mean_at. rewrite lookup_insert. destruct (decide (f = g)) as [->|Hne]; [|done].
    by rewrite Hfs.
  - intros [= <-]. rewrite decide_False by (intros [? ?]; congruence). by rewrite bump_mean_0.
Qed.

Lemma accumulate_std_at st r f m st' g :
  accumulate_statistics st r f m = Ok st' →
  std_at st' g
  = bump_std r g (if decide (f = g ∧ m = "std") then 1 else 0) <$> std_at st g.
Proof.
  unfold accumulate_statistics.
  destruct (decide (m = "mean")) as [->|Hm]; [|destruct (decide (m = "std")) as [->|Hs]].
  - intros (fs & Hfs%getitem_Ok & (ms0 & Hms%getfield_Ok
      & (s & Hs%getitem_Ok & (c & Hc%getitem_Ok & [= <-])%bind_Ok)%bind_Ok)%bind_Ok)%bind_Ok.
    rewrite decide_False by (intros [? ?]; congruence). rewrite bump_std_0.
    unfold std_at. rewrite lookup_insert. destruct (decide (f = g)) as [->|Hne]; [|done].
    by rewrite Hfs.
  - intros (fs & Hfs%getitem_Ok & (ms0 & Hms%getfield_Ok
      & (s & Hs%getitem_Ok & (c & Hc%getitem_Ok
      & (q & Hq%getitem_Ok & [= <-])%bind_Ok)%bind_Ok)%bind_Ok)%bind_Ok)%bind_Ok.
    unfold std_at. rewrite lookup_insert. destruct (decide (f = g)) as [->|Hne].
    + rewrite decide_True by done. rewrite Hfs. simpl. rewrite Hms. simpl.
      unfold bump_std. by rewrite !add_times_1, (lookup_total_correct _ _ _ Hs),
        (lookup_total_correct _ _ _ Hc), (lookup_total_correct _ _ _ Hq).
    + rewrite decide_False by (intros [? ?]; congruence). by rewrite bump_std_0.
  - intros [= <-]. rewrite decide_False by (intros [? ?]; congruence). by rewrite bump_std_0.
Qed.

Lemma occurrences_nil x : occurrences x [] = 0.
Proof. done. Qed.

Lemma occurrences_cons x y l :
  occurrences x (y :: l) = (if decide (y = x) then 1 else 0) + occurrences x l.
Proof.
  unfold occurrences. destruct (decide (y = x)).
  - by rewrite filter_cons_True.
  - by rewrite filter_cons_False.
Qed.

Lemma occurrences_pos x l : x ∈ l → 0 < occurrences x l.
Proof.
  induction l as [|y l IH]; [by intros ?%elem_of_nil|].
  rewrite occurrences_cons. intros [->|Hin]%elem_of_cons.
  - rewrite decide_True by done. lia.
  - specialize (IH Hin). lia.
Qed.

Lemma occurrences_NoDup x l : NoDup l → x ∈ l → occurrences x l = 1.
Proof.
  induction 1 as [|y l Hy Hnd IH]; [by intros ?%elem_of_nil|].
  rewrite occurrences_cons. intros [->|Hin]%elem_of_cons.
  - rewrite decide_True by done.
    assert (occurrences y l = 0) as ->; [|done].
    clear -Hy. induction l as [|z l IH]; [done|].
    rewrite occurrences_cons. apply not_elem_of_cons in Hy as [Hne Hy].
    rewrite decide_False by done. by rewrite IH.
  - rewrite decide_False by (intros ->; done). by rewrite IH.
Qed.

(** The loop over the methods, for one feature [f]. *)
Lemma methods_mean_at r f ms st st' g :
  foldlM (λ stats' agg_method, accumulate_statistics stats' r f agg_method) st ms = Ok st' →
  mean_at st' g
  = bump_mean r g (if decide (f = g) then occurrences "mean" ms else 0) <$> mean_at st g.
Proof.
  revert st. induction ms as [|m ms IH]; intros st; cbn [foldlM].
  - intros [= <-]. rewrite occurrences_nil. case_decide; by rewrite bump_mean_0.
  - intros (st1 & H1 & Hrest)%bind_Ok.
    rewrite (IH _ Hrest), (accumulate_mean_at _ _ _ _ _ g H1), bump_mean_plus.
    f_equal. f_equal. rewrite occurrences_cons.
    repeat case_decide; destruct_and?; simplify_eq; try lia; naive_solver.
Qed.

Lemma methods_std_at r f ms st st' g :
  foldlM (λ stats' agg_method, accumulate_statistics stats' r f agg_method) st ms = Ok st' →
  std_at st' g
  = bump_std r g (if decide (f = g) then occurrences "std" ms else 0) <$> std_at st g.
Proof.
  revert st. induction ms as [|m ms IH]; intros st; cbn [foldlM].
  - intros [= <-]. rewrite occurrences_nil. case_decide; by rewrite bump_std_0.
  - intros (st1 & H1 & Hrest)%bind_Ok.
    rewrite (IH _ Hrest), (accumulate_std_at _ _ _ _ _ g H1), bump_std_plus.
    f_equal. f_equal. rewrite occurrences_cons.
    repeat case_decide; destruct_and?; simplify_eq; try lia; naive_solver.
Qed.

(** One reply: each statistic is added once for every occurrence of the
    feature and of the method in the request. *)
Lemma accumulate_reply_mean_at fs ms r st st' g :
  accumulate_reply fs ms r st = Ok st' →
  mean_at st' g
  = bump_mean r g (occurrences g fs * occurrences "mean" ms) <$> mean_at st g.
Proof.
  unfold accumulate_reply. revert st. induction fs as [|f fs IH]; intros st; cbn [foldlM].
  - intros [= <-]. by rewrite occurrences_nil, bump_mean_0.
  - intros (st1 & H1 & Hrest)%bind_Ok.
    rewrite (IH _ Hrest), (methods_mean_at _ _ _ _ _ g H1), bump_mean_plus.
    f_equal. f_equal. rewrite occurrences_cons. case_decide; lia.
Qed.

Lemma accumulate_reply_std_at fs ms r st st' g :
  accumulate_reply fs ms r st = Ok st' →
  std_at st' g
  = bump_std r g (occurrences g fs * occurrences "std" ms) <$> std_at st g.
Proof.
  unfold accumulate_reply. revert st. induction fs as [|f fs IH]; intros st; cbn [foldlM].
  - intros [= <-]. by rewrite occurrences_nil, bump_std_0.
  - intros (st1 & H1 & Hrest)%bind_Ok.
    rewrite (IH _ Hrest), (methods_std_at _ _ _ _ _ g H1), bump_std_plus.
    f_equal. f_equal. rewrite occurrences_cons. case_decide; lia.
Qed.

(** *** When the accumulation succeeds *)

Lemma elem_of_keys_read fs ms k :
  k ∈ keys_read fs ms ↔ ∃ f m, f ∈ fs ∧ m ∈ ms ∧ k ∈ lookups f m.
Proof.
  unfold keys_read. rewrite list_elem_of_bind. split.
  - intros (f & (m & Hk & Hm)%list_elem_of_bind & Hf). by exists f, m.
  - intros (f & m & Hf & Hm & Hk). exists f. split; [|done].
    apply list_elem_of_bind. by exists m.
Qed.

Lemma accumulate_ok st r f m :
  (m = "mean" → is_Some (mean_at st f)) →
  (m = "std" → is_Some (std_at st f)) →
  (∀ k, k ∈ lookups f m → is_Some (r !! k)) →
  ∃ st', accumulate_statistics st r f m = Ok st'.
Proof.
  unfold accumulate_statistics, lookups, mean_at, std_at, getitem, getfield.
  intros Hmean Hstd Hkeys.
  destruct (decide (m = "mean")) as [->|Hm]; [|destruct (decide (m = "std")) as [->|Hs]].
  - destruct (Hmean eq_refl) as [x Hx].
    destruct (st !! f) as [fs0|]; [|by cbn in Hx]. cbn in Hx |- *. rewrite Hx. cbn.
    destruct (Hkeys (f +:+ "_mean_sum")) as [s ->]; [rewrite !elem_of_cons; auto|].
    destruct (Hkeys (f +:+ "_mean_count")) as [c ->]; [rewrite !elem_of_cons; auto|].
    by eexists.
  - destruct (Hstd eq_refl) as [x Hx].
    destruct (st !! f) as [fs0|]; [|by cbn in Hx]. cbn in Hx |- *. rewrite Hx. cbn.
    destruct (Hkeys (f +:+ "_std_sum")) as [s ->]; [rewrite !elem_of_cons; auto|].
    destruct (Hkeys (f +:+ "_std_count")) as [c ->]; [rewrite !elem_of_cons; auto|].
    destruct (Hkeys (f +:+ "_std_sum_sqd")) as [q ->]; [rewrite !elem_of_cons; auto|].
    by eexists.
  - by eexists.
Qed.

(** A successful call found every key it looked up. *)
Lemma accumulate_found st r f m st' k :
  accumulate_statistics st r f m = Ok st' → k ∈ lookups f m → is_Some (r !! k).
Proof.
  unfold accumulate_statistics, lookups.
  destruct (decide (m = "mean")) as [->|Hm]; [|destruct (decide (m = "std")) as [->|Hs]].
  - intros (fs0 & _ & (ms0 & _
      & (s & Hs%getitem_Ok & (c & Hc%getitem_Ok & _)%bind_Ok)%bind_Ok)%bind_Ok)%bind_Ok.
    rewrite !elem_of_cons, elem_of_nil. intros [->|[->|[]]]; by eexists.
  - intros (fs0 & _ & (ms0 & _
      & (s & Hs%getitem_Ok & (c & Hc%getitem_Ok
      & (q & Hq%getitem_Ok & _)%bind_Ok)%bind_Ok)%bind_Ok)%bind_Ok)%bind_Ok.
    rewrite !elem_of_cons, elem_of_nil. intros [->|[->|[->|[]]]]; by eexists.
  - by intros _ ?%elem_of_nil.
Qed.

Lemma methods_ok r f ms st :
  ("mean" ∈ ms → is_Some (mean_at st f)) →
  ("std" ∈ ms → is_Some (std_at st f)) →
  (∀ m k, m ∈ ms → k ∈ lookups f m → is_Some (r !! k)) →
  ∃ st', foldlM (λ stats' agg_method, accumulate_statistics stats' r f agg_method) st ms
         = Ok st'.
Proof.
  revert st. induction ms as [|m ms IH]; intros st Hmean Hstd Hkeys; cbn [foldlM].
  - by eexists.
  - destruct (accumulate_ok st r f m) as [st1 H1].
    + intros ->. apply Hmean, elem_of_cons; by left.
    + intros ->. apply Hstd, elem_of_cons; by left.
    + intros k. apply Hkeys, elem_of_cons; by left.
    + rewrite H1. cbn. apply IH.
      * intros Hin. rewrite (accumulate_mean_at _ _ _ _ _ f H1).
        apply fmap_is_Some, Hmean, elem_of_cons; by right.
      * intros Hin. rewrite (accumulate_std_at _ _ _ _ _ f H1).
        apply fmap_is_Some, Hstd, elem_of_cons; by right.
      * intros m' k Hm'. apply Hkeys, elem_of_cons; by right.
Qed.

Lemma methods_found r f ms st st' m k :
  foldlM (λ stats' agg_method, accumulate_statistics stats' r f agg_method) st ms = Ok st' →
  m ∈ ms → k ∈ lookups f m → is_Some (r !! k).
Proof.
  revert st. induction ms as [|m0 ms IH]; intros st; cbn [foldlM].
  - by intros _ ?%elem_of_nil.
  - intros (st1 & H1 & Hrest)%bind_Ok [->|Hin]%elem_of_cons Hk.
    + by eapply accumulate_found.
    + by eapply IH.
Qed.

Lemma initialised_cons f fs ms st : initialised (f :: fs) ms st → initialised fs ms st.
Proof. intros Hi g Hg. apply Hi, elem_of_cons; by right. Qed.

Lemma accumulate_reply_initialised fs ms r st st' fs' ms' :
  accumulate_reply fs ms r st = Ok st' → initialised fs' ms' st → initialised fs' ms' st'.
Proof.
  intros Hacc Hi g Hg. destruct (Hi g Hg) as [Hmean Hstd]. split; intros Hin.
  - rewrite (accumulate_reply_mean_at _ _ _ _ _ g Hacc). by apply fmap_is_Some, Hmean.
  - rewrite (accumulate_reply_std_at _ _ _ _ _ g Hacc). by apply fmap_is_Some, Hstd.
Qed.

Lemma accumulate_reply_ok fs ms r st :
  initialised fs ms st →
  (∀ k, k ∈ keys_read fs ms → is_Some (r !! k)) →
  ∃ st', accumulate_reply fs ms r st = Ok st'.
Proof.
  unfold accumulate_reply. revert st.
  induction fs as [|f fs IH]; intros st Hi Hkeys; cbn [foldlM]; [by eexists|].
  destruct (methods_ok r f ms st) as [st1 H1].
  - apply Hi, elem_of_cons; by left.
  - apply Hi, elem_of_cons; by left.
  - intros m k Hm Hk. apply Hkeys, elem_of_keys_read. exists f, m.
    split; [by apply elem_of_cons; left | done].
  - rewrite H1. cbn. apply IH.
    + apply initialised_cons in Hi. intros g Hg. destruct (Hi g Hg) as [Hmean Hstd].
      split; intros Hin.
      * rewrite (methods_mean_at _ _ _ _ _ g H1). by apply fmap_is_Some, Hmean.
      * rewrite (methods_std_at _ _ _ _ _ g H1). by apply fmap_is_Some, Hstd.
    + intros k (g & m & Hg & Hm & Hk)%elem_of_keys_read. apply Hkeys, elem_of_keys_read.
      exists g, m. split; [by apply elem_of_cons; right | done].
Qed.

Lemma accumulate_reply_found fs ms r st st' k :
  accumulate_reply fs ms r st = Ok st' → k ∈ keys_read fs ms → is_Some (r !! k).
Proof.
  unfold accumulate_reply. intros Hacc (f & m & Hf & Hm & Hk)%elem_of_keys_read.
  revert st Hacc. induction fs as [|g fs IH]; intros st; cbn [foldlM].
  - by apply elem_of_nil in Hf.
  - intros (st1 & H1 & Hrest)%bind_Ok. apply elem_of_cons in Hf as [->|Hf].
    + by eapply methods_found.
    + by eapply IH.
Qed.

(** *** The initial accumulators *)

Lemma init_method_mean ms a0 :
  at_mean (foldl init_method a0 ms)
  = if decide ("mean" ∈ ms) then Some {| mean_sum := zero; mean_count := zero |}
    else at_mean a0.
Proof.
  revert a0. induction ms as [|m ms IH]; intros a0; cbn [foldl].
  - rewrite decide_False; [done | by intros ?%elem_of_nil].
  - rewrite IH. unfold init_method.
    repeat case_decide; subst; try done; exfalso;
      rewrite elem_of_cons in *; intuition congruence.
Qed.

Lemma init_method_std ms a0 :
  at_std (foldl init_method a0 ms)
  = if decide ("std" ∈ ms)
    then Some {| std_sum := zero; std_count := zero; std_sum_sqd := zero |}
    else at_std a0.
Proof.
  revert a0. induction ms as [|m ms IH]; intros a0; cbn [foldl].
  - rewrite decide_False; [done | by intros ?%elem_of_nil].
  - rewrite IH. unfold init_method.
    repeat case_decide; subst; try done; exfalso;
      rewrite elem_of_cons in *; intuition congruence.
Qed.

Lemma init_lookup fs ms f :
  initialize_aggregation_stats fs ms !! f
  = if decide (f ∈ fs) then Some (foldl init_method no_stats ms) else None.
Proof.
  unfold initialize_aggregation_stats.
  assert (∀ st0 : gmap string FeatureStats,
    foldl (λ stats feature, <[feature := foldl init_method no_stats ms]> stats) st0 fs !! f
    = if decide (f ∈ fs) then Some (foldl init_method no_stats ms) else st0 !! f) as H.
  { induction fs as [|g fs IH]; intros st0; cbn [foldl].
    - rewrite decide_False; [done | by intros ?%elem_of_nil].
    - rewrite IH. destruct (decide (f ∈ fs)) as [Hin|Hnin].
      + rewrite decide_True; [done | by apply elem_of_cons; right].
      + rewrite lookup_insert. destruct (decide (g = f)) as [->|Hne].
        * rewrite decide_True; [done | by apply elem_of_cons; left].
        * rewrite decide_False; [done|]. intros [?|?]%elem_of_cons; congruence. }
  by rewrite H, lookup_empty.
Qed.

Lemma init_mean_at fs ms f :
  f ∈ fs → "mean" ∈ ms →
  mean_at (initialize_aggregation_stats fs ms) f
  = Some {| mean_sum := zero; mean_count := zero |}.
Proof.
  intros Hf Hm. unfold mean_at. rewrite init_lookup, decide_True by done.
  cbn. by rewrite init_method_mean, decide_True.
Qed.

Lemma init_std_at fs ms f :
  f ∈ fs → "std" ∈ ms →
  std_at (initialize_aggregation_stats fs ms) f
  = Some {| std_sum := zero; std_count := zero; std_sum_sqd := zero |}.
Proof.
  intros Hf Hm. unfold std_at. rewrite init_lookup, decide_True by done.
  cbn. by rewrite init_method_std, decide_True.
Qed.

Lemma init_initialised fs ms : initialised fs ms (initialize_aggregation_stats fs ms).
Proof.
  intros f Hf. split; intros Hm.
  - by rewrite init_mean_at.
  - by rewrite init_std_at.
Qed.

(** *** The loop over the messages *)

Lemma well_formed_content fs ms (content : gmap string (gmap string num)) :
  well_formed fs ms (MsgContent content)
  ↔ ∃ r, content !! "query_results" = Some r
         ∧ ∀ k, k ∈ keys_read fs ms → is_Some (r !! k).
Proof.
  cbn. destruct (content !! "query_results") as [r|].
  - rewrite Forall_forall. split; [intros H; by exists r | by intros (? & [= <-] & H)].
  - split; [done | by intros (? & ? & _)].
Qed.

Lemma valid_results_nil : valid_results [] = [].
Proof. done. Qed.

Lemma valid_results_error reason msgs :
  valid_results (MsgError reason :: msgs) = valid_results msgs.
Proof. done. Qed.

Lemma valid_results_content content msgs r :
  content !! "query_results" = Some r →
  valid_results (MsgContent content :: msgs) = r :: valid_results msgs.
Proof. intros Hr. unfold valid_results. cbn [omap list_omap results_of]. by rewrite Hr. Qed.

Lemma reduce_messages_count msgs fs ms st n st' n' :
  reduce_messages msgs fs ms (st, n) = Ok (st', n') →
  n' = n + length (valid_results msgs).
Proof.
  revert st n. induction msgs as [|[reason|content] msgs IH]; intros st n;
    cbn [reduce_messages].
  - intros [= <- <-]. rewrite valid_results_nil. cbn. lia.
  - intros ->%IH. by rewrite valid_results_error.
  - intros (r & Hr%getitem_Ok & (st1 & H1 & ->%IH)%bind_Ok)%bind_Ok.
    rewrite (valid_results_content _ _ _ Hr). cbn. lia.
Qed.

Lemma reduce_messages_mean_at msgs fs ms st n st' n' g :
  reduce_messages msgs fs ms (st, n) = Ok (st', n') →
  mean_at st' g
  = foldl (λ o r, bump_mean r g (occurrences g fs * occurrences "mean" ms) <$> o)
          (mean_at st g) (valid_results msgs).
Proof.
  revert st n. induction msgs as [|[reason|content] msgs IH]; intros st n;
    cbn [reduce_messages].
  - by intros [= <- <-].
  - intros ->%IH. by rewrite valid_results_error.
  - intros (r & Hr%getitem_Ok & (st1 & H1 & ->%IH)%bind_Ok)%bind_Ok.
    rewrite (valid_results_content _ _ _ Hr). cbn [foldl].
    cbn [fst] in H1. by rewrite (accumulate_reply_mean_at _ _ _ _ _ g H1).
Qed.

Lemma reduce_messages_std_at msgs fs ms st n st' n' g :
  reduce_messages msgs fs ms (st, n) = Ok (st', n') →
  std_at st' g
  = foldl (λ o r, bump_std r g (occurrences g fs * occurrences "std" ms) <$> o)
          (std_at st g) (valid_results msgs).
Proof.
  revert st n. induction msgs as [|[reason|content] msgs IH]; intros st n;
    cbn [reduce_messages].
  - by intros [= <- <-].
  - intros ->%IH. by rewrite valid_results_error.
  - intros (r & Hr%getitem_Ok & (st1 & H1 & ->%IH)%bind_Ok)%bind_Ok.
    rewrite (valid_results_content _ _ _ Hr). cbn [foldl].
    cbn [fst] in H1. by rewrite (accumulate_reply_std_at _ _ _ _ _ g H1).
Qed.

Lemma reduce_messages_initialised msgs fs ms st n st' n' :
  reduce_messages msgs fs ms (st, n) = Ok (st', n') →
  initialised fs ms st → initialised fs ms st'.
Proof.
  intros Hred Hi g Hg. destruct (Hi g Hg) as [Hmean Hstd]. split; intros Hin.
  - rewrite (reduce_messages_mean_at _ _ _ _ _ _ _ g Hred).
    specialize (Hmean Hin). revert Hmean. generalize (mean_at st g).
    induction (valid_results msgs) as [|r rs IH]; intros o Ho; cbn [foldl]; [done|].
    by apply IH, fmap_is_Some.
  - rewrite (reduce_messages_std_at _ _ _ _ _ _ _ g Hred).
    specialize (Hstd Hin). revert Hstd. generalize (std_at st g).
    induction (valid_results msgs) as [|r rs IH]; intros o Ho; cbn [foldl]; [done|].
    by apply IH, fmap_is_Some.
Qed.

(** Well-formed replies are always reduced. *)
Lemma reduce_messages_ok msgs fs ms st n :
  initialised fs ms st → Forall (well_formed fs ms) msgs →
  ∃ st', reduce_messages msgs fs ms (st, n) = Ok (st', n + length (valid_results msgs)).
Proof.
  intros Hi Hwf. revert st n Hi.
  induction Hwf as [|[reason|content] msgs Hmsg Hwf IH]; intros st n Hi;
    cbn [reduce_messages].
  - exists st. rewrite valid_results_nil. cbn. do 2 f_equal. lia.
  - rewrite valid_results_error. by apply IH.
  - apply well_formed_content in Hmsg as (r & Hr & Hkeys).
    rewrite (valid_results_content _ _ _ Hr). unfold getitem. rewrite Hr. cbn.
    destruct (accumulate_reply_ok fs ms r st Hi Hkeys) as [st1 H1]. rewrite H1. cbn.
    destruct (IH st1 (S n)) as [st' Hst']; [by eapply accumulate_reply_initialised|].
    exists st'. rewrite Hst'. do 2 f_equal. lia.
Qed.

(** A successful reduction saw only well-formed replies. *)
Lemma reduce_messages_well_formed msgs fs ms st n st' n' :
  reduce_messages msgs fs ms (st, n) = Ok (st', n') → Forall (well_formed fs ms) msgs.
Proof.
  revert st n. induction msgs as [|[reason|content] msgs IH]; intros st n;
    cbn [reduce_messages].
  - by constructor.
  - intros ?%IH. by constructor.
  - intros (r & Hr%getitem_Ok & (st1 & H1 & ?%IH)%bind_Ok)%bind_Ok.
    constructor; [|done]. apply well_formed_content. exists r. split; [done|].
    intros k Hk. by eapply accumulate_reply_found.
Qed.

(** Error replies contribute nothing. *)
Lemma reduce_messages_skip_errors msgs fs ms (sn : gmap string FeatureStats * nat) :
  reduce_messages msgs fs ms sn
  = reduce_messages (filter (λ msg, has_error msg = false) msgs) fs ms sn.
Proof.
  revert sn. induction msgs as [|[reason|content] msgs IH]; intros sn.
  - done.
  - rewrite filter_cons_False by done. cbn [reduce_messages]. apply IH.
  - rewrite filter_cons_True by done. cbn [reduce_messages].
    destruct (getitem content "query_results") as [r|e]; [|done]. cbn.
    destruct (accumulate_reply fs ms r sn.1) as [st1|e]; [|done]. cbn. apply IH.
Qed.

(** *** The reduced totals in closed form *)

Lemma add_times_S k x a : add_times (S k) x a = add (add_times k x a) x.
Proof. done. Qed.

Lemma add_times_scale k x a : add_times k x a = add a (scale k x).
Proof.
  unfold scale. induction k as [|k IH].
  - by rewrite !add_times_0, add_zero_r.
  - by rewrite !add_times_S, IH, add_assoc.
Qed.

Lemma scale_0 x : scale 0 x = zero.
Proof. done. Qed.

Lemma scale_S k x : scale (S k) x = add (scale k x) x.
Proof. done. Qed.

Lemma scale_zero k : scale k zero = zero.
Proof. induction k as [|k IH]; [done|]. by rewrite scale_S, IH, add_zero_l. Qed.

Lemma scale_add k x y : scale k (add x y) = add (scale k x) (scale k y).
Proof.
  induction k as [|k IH]; [by rewrite !scale_0, add_zero_l|].
  rewrite !scale_S, IH, !add_assoc. f_equal.
  rewrite <- !add_assoc. f_equal. apply add_comm.
Qed.

Lemma scale_Fin k x : scale k (Fin x) = Fin (INR k * x).
Proof.
  induction k as [|k IH].
  - rewrite scale_0. unfold zero. f_equal. simpl. lra.
  - rewrite scale_S, IH, S_INR. simpl. f_equal. lra.
Qed.

Lemma scale_nan k : 0 < k → scale k NaN = NaN.
Proof. destruct k; [lia|]. intros _. by rewrite scale_S, add_nan_r. Qed.

Lemma total_nil k : total k [] = zero.
Proof. done. Qed.

Lemma total_cons k r rs : total k (r :: rs) = add (r !!! k) (total k rs).
Proof. unfold total. by rewrite fmap_cons, sum_cons. Qed.

Lemma fold_bump_mean g K (rs : list (gmap string num)) (m0 : MeanStats) :
  foldl (λ o r, bump_mean r g K <$> o) (Some m0) rs
  = Some {| mean_sum := add (mean_sum m0) (scale K (total (g +:+ "_mean_sum") rs));
            mean_count := add (mean_count m0) (scale K (total (g +:+ "_mean_count") rs)) |}.
Proof.
  revert m0. induction rs as [|r rs IH]; intros [s c]; cbn [foldl].
  - by rewrite !total_nil, !scale_zero, !add_zero_r.
  - cbn [fmap option_fmap option_map]. rewrite IH. unfold bump_mean.
    cbn [mean_sum mean_count].
    by rewrite !total_cons, !scale_add, !add_times_scale, !add_assoc.
Qed.

Lemma fold_bump_std g K (rs : list (gmap string num)) (s0 : StdStats) :
  foldl (λ o r, bump_std r g K <$> o) (Some s0) rs
  = Some {| std_sum := add (std_sum s0) (scale K (total (g +:+ "_std_sum") rs));
            std_count := add (std_count s0) (scale K (total (g +:+ "_std_count") rs));
            std_sum_sqd :=
              add (std_sum_sqd s0) (scale K (total (g +:+ "_std_sum_sqd") rs)) |}.
Proof.
  revert s0. induction rs as [|r rs IH]; intros [s c q]; cbn [foldl].
  - by rewrite !total_nil, !scale_zero, !add_zero_r.
  - cbn [fmap option_fmap option_map]. rewrite IH. unfold bump_std.
    cbn [std_sum std_count std_sum_sqd].
    by rewrite !total_cons, !scale_add, !add_times_scale, !add_assoc.
Qed.

(** The reduced totals of a round: the totals over the valid replies, each
    counted once for every occurrence of the feature and of the method in the
    request. *)
Lemma reduce_round_mean_at msgs fs ms st n g :
  reduce_round msgs fs ms = Ok (st, n) → g ∈ fs → "mean" ∈ ms →
  mean_at st g
  = Some {| mean_sum := scale (occurrences g fs * occurrences "mean" ms)
                          (total (g +:+ "_mean_sum") (valid_results msgs));
            mean_count := scale (occurrences g fs * occurrences "mean" ms)
                            (total (g +:+ "_mean_count") (valid_results msgs)) |}.
Proof.
  unfold reduce_round. intros Hred Hg Hm.
  rewrite (reduce_messages_mean_at _ _ _ _ _ _ _ g Hred), init_mean_at by done.
  rewrite fold_bump_mean. cbn [mean_sum mean_count]. by rewrite !add_zero_l.
Qed.

Lemma reduce_round_std_at msgs fs ms st n g :
  reduce_round msgs fs ms = Ok (st, n) → g ∈ fs → "std" ∈ ms →
  std_at st g
  = Some {| std_sum := scale (occurrences g fs * occurrences "std" ms)
                         (total (g +:+ "_std_sum") (valid_results msgs));
            std_count := scale (occurrences g fs * occurrences "std" ms)
                           (total (g +:+ "_std_count") (valid_results msgs));
            std_sum_sqd := scale (occurrences g fs * occurrences "std" ms)
                             (total (g +:+ "_std_sum_sqd") (valid_results msgs)) |}.
Proof.
  unfold reduce_round. intros Hred Hg Hm.
  rewrite (reduce_messages_std_at _ _ _ _ _ _ _ g Hred), init_std_at by done.
  rewrite fold_bump_std. cbn [std_sum std_count std_sum_sqd]. by rewrite !add_zero_l.
Qed.

Lemma reduce_round_ok msgs fs ms :
  Forall (well_formed fs ms) msgs →
  ∃ st, reduce_round msgs fs ms = Ok (st, length (valid_results msgs))
        ∧ initialised fs ms st.
Proof.
  intros Hwf. unfold reduce_round.
  destruct (reduce_messages_ok msgs fs ms (initialize_aggregation_stats fs ms) 0)
    as [st Hst]; [apply init_initialised | done |].
  exists st. split; [done|].
  eapply reduce_messages_initialised; [done | apply init_initialised].
Qed.

End reduce_facts.

(** ** The final statistics *)

Section final_facts.

Implicit Types (stats st : gmap string FeatureStats) (final : FinalStats).
Implicit Types (f g m : string) (fs ms : list string) (log : list string).
Implicit Types (entry : gmap string (option num)).

Lemma compute_final_mean st f s :
  mean_at st f = Some s →
  compute_final_statistics st f "mean"
  = if eq0 (mean_count s) then Raise (ValueError (no_data_mean f))
    else truediv (mean_sum s) (mean_count s).
Proof.
  unfold mean_at, compute_final_statistics, getitem. intros Hs.
  destruct (st !! f) as [a|]; [|done]. cbn in Hs |- *. by rewrite Hs.
Qed.

Lemma compute_final_std st f s :
  std_at st f = Some s →
  compute_final_statistics st f "std"
  = if le1 (std_count s) then Raise (ValueError (insufficient_std f))
    else variance ← raw_variance (std_sum s) (std_count s) (std_sum_sqd s);
         Ok (sqrt (if lt0 variance then zero else variance)).
Proof.
  unfold std_at, compute_final_statistics, getitem. intros Hs.
  destruct (st !! f) as [a|]; [|done]. cbn in Hs |- *. by rewrite Hs.
Qed.

Lemma compute_final_other st f m :
  m ≠ "mean" → m ≠ "std" →
  compute_final_statistics st f m = Raise (ValueError (unsupported_method m)).
Proof. intros H1 H2. unfold compute_final_statistics. by rewrite !decide_False. Qed.

(** The guards keep the divisions away from zero. *)
Lemma truediv_guarded a b : eq0 b = false → ∃ v, truediv a b = Ok v.
Proof.
  unfold eq0, truediv. destruct a as [x|], b as [y|]; try by eexists.
  destruct (Req_dec_T y 0); [done | by eexists].
Qed.

(** Past its guard the variance is computed, unless the square of the mean
    leaves the range of the floats. *)
Lemma raw_variance_guarded s c q :
  le1 c = false → (∃ v, raw_variance s c q = Ok v) ∨ raw_variance s c q = Raise OverflowError.
Proof.
  unfold raw_variance, le1, truediv. intros Hc.
  destruct c as [y|]; [|left; destruct s, q; cbn; by eexists].
  destruct (Rle_dec y 1) as [|Hy]; [done|].
  destruct s as [x|]; cbn; [|left; destruct q; cbn; by eexists].
  destruct (Req_dec_T y 0) as [->|_]; [lra|]. cbn.
  destruct (Rlt_dec float_max (x / y * (x / y))); cbn; [by right | left].
  destruct q as [z|]; cbn; [|by eexists].
  destruct (Req_dec_T (y - 1) 0); [lra | by eexists].
Qed.

(** On initialised accumulators the final computation raises nothing but
    a [ValueError], which the final loop catches, or the [OverflowError] of
    a standard deviation, which it does not. *)
Lemma compute_final_cases fs ms st f m :
  initialised fs ms st → f ∈ fs → m ∈ ms →
  caught (compute_final_statistics st f m)
  ∨ (m = "std" ∧ compute_final_statistics st f "std" = Raise OverflowError).
Proof.
  intros Hi Hf Hm. destruct (Hi f Hf) as [Hmean Hstd].
  destruct (decide (m = "mean")) as [->|Hne1]; [|destruct (decide (m = "std")) as [->|Hne2]].
  - left. destruct (Hmean Hm) as [s Hs]. rewrite (compute_final_mean _ _ _ Hs).
    destruct (eq0 (mean_count s)) eqn:Hc; [done|].
    by destruct (truediv_guarded (mean_sum s) _ Hc) as [v ->].
  - destruct (Hstd Hm) as [s Hs]. rewrite (compute_final_std _ _ _ Hs).
    destruct (le1 (std_count s)) eqn:Hc; [by left|].
    destruct (raw_variance_guarded (std_sum s) _ (std_sum_sqd s) Hc) as [[v ->]| ->];
      [by left | by right].
  - left. by rewrite compute_final_other.
Qed.

(** The standard deviation raises [OverflowError] exactly on the totals
    that overflow. *)
Lemma compute_final_overflow st f s :
  std_at st f = Some s →
  compute_final_statistics st f "std" = Raise OverflowError ↔ overflows s.
Proof.
  intros Hs. rewrite (compute_final_std _ _ _ Hs).
  unfold overflows, raw_variance, truediv, float_pow2, le1.
  destruct (std_sum s) as [x|], (std_count s) as [c|], (std_sum_sqd s) as [q|]; cbn;
    repeat first [ destruct (Rle_dec _ _) | destruct (Req_dec_T _ _)
                 | destruct (Rlt_dec _ _) | progress cbn ];
    (split; [try done | try (intros [? ?]; done || lra); try done]); try lra;
    intros; split; lra.
Qed.

Lemma compute_final_overflow_inv st f :
  compute_final_statistics st f "std" = Raise OverflowError →
  ∃ s, std_at st f = Some s ∧ overflows s.
Proof.
  intros Hov. destruct (std_at st f) as [s|] eqn:Hs.
  - exists s. split; [done|]. by apply (compute_final_overflow st f s Hs).
  - exfalso. revert Hov. unfold compute_final_statistics, std_at, getitem in *.
    rewrite decide_False, decide_True by done.
    destruct (st !! f) as [a|]; [|done]. cbn in Hs |- *. by rewrite Hs.
Qed.

(** The loop over the methods of the final phase. *)
Lemma final_methods_spec st f ms entry log :
  (∀ m, m ∈ ms → caught (compute_final_statistics st f m)) →
  ∃ entry', final_methods st f ms entry log = (log ++ warnings_for st f ms, Ok entry')
    ∧ ∀ m, entry' !! m = if decide (m ∈ ms) then Some (final_value st f m) else entry !! m.
Proof.
  unfold warnings_for.
  revert entry log. induction ms as [|a ms IH]; intros entry log Hc; cbn [final_methods].
  - exists entry. rewrite app_nil_r. split; [done|]. intros m.
    rewrite decide_False; [done | by intros ?%elem_of_nil].
  - assert (Hca := Hc a ltac:(by apply elem_of_cons; left)).
    assert (Hrest : ∀ m, m ∈ ms → caught (compute_final_statistics st f m)).
    { intros m Hm. apply Hc, elem_of_cons. by right. }
    cbn [mbind list_bind]. fold (mbind (M := list) (warnings_at st f) ms).
    pose proof (eq_refl : final_value st f a = final_value st f a) as Hfv.
    unfold final_value at 2 in Hfv. unfold warnings_at at 1.
    destruct (compute_final_statistics st f a) as [v|[k|e| |]] eqn:Hcomp; try done.
    + destruct (IH (<[a := Some v]> entry) log Hrest) as (entry' & -> & Hlook).
      exists entry'. split; [done|]. intros m. rewrite Hlook.
      destruct (decide (m ∈ ms)) as [Hin|Hnin].
      * rewrite decide_True; [done | by apply elem_of_cons; right].
      * rewrite lookup_insert. destruct (decide (a = m)) as [->|Hne].
        -- rewrite decide_True; [by rewrite Hfv | by apply elem_of_cons; left].
        -- rewrite decide_False; [done|]. intros [?|?]%elem_of_cons; congruence.
    + destruct (IH (<[a := None]> entry) (log ++ [warning e]) Hrest) as (entry' & -> & Hlook).
      exists entry'. split; [by rewrite <- app_assoc|]. intros m. rewrite Hlook.
      destruct (decide (m ∈ ms)) as [Hin|Hnin].
      * rewrite decide_True; [done | by apply elem_of_cons; right].
      * rewrite lookup_insert. destruct (decide (a = m)) as [->|Hne].
        -- rewrite decide_True; [by rewrite Hfv | by apply elem_of_cons; left].
        -- rewrite decide_False; [done|]. intros [?|?]%elem_of_cons; congruence.
Qed.

(** The loop over the features of the final phase. *)
Lemma final_features_spec st fs ms final log :
  (∀ f m, f ∈ fs → m ∈ ms → caught (compute_final_statistics st f m)) →
  ∃ final', final_features st fs ms final log = (log ++ all_warnings st fs ms, Ok final')
    ∧ ∀ f m, final_at final' f m
             = if decide (f ∈ fs)
               then (if decide (m ∈ ms) then Some (final_value st f m) else None)
               else final_at final f m.
Proof.
  unfold all_warnings.
  revert final log. induction fs as [|a fs IH]; intros final log Hc; cbn [final_features].
  - exists final. rewrite app_nil_r. split; [done|]. intros f m.
    rewrite decide_False; [done | by intros ?%elem_of_nil].
  - destruct (final_methods_spec st a ms ∅ log) as (entry & -> & Hentry).
    { intros m Hm. apply Hc; [by apply elem_of_cons; left | done]. }
    destruct (IH (<[a := entry]> final) (log ++ warnings_for st a ms))
      as (final' & -> & Hlook).
    { intros f m Hf Hm. apply Hc; [by apply elem_of_cons; right | done]. }
    exists final'. split.
    { cbn [mbind list_bind]. by rewrite <- app_assoc. }
    intros f m. rewrite Hlook. destruct (decide (f ∈ fs)) as [Hin|Hnin].
    + rewrite (decide_True (P := f ∈ a :: fs)); [done | by apply elem_of_cons; right].
    + unfold final_at. rewrite lookup_insert. destruct (decide (a = f)) as [->|Hne].
      * rewrite (decide_True (P := f ∈ f :: fs)) by (by apply elem_of_cons; left). cbn.
        rewrite Hentry, lookup_empty. done.
      * rewrite (decide_False (P := f ∈ a :: fs)); [done|].
        intros [?|?]%elem_of_cons; congruence.
Qed.

(** An exception that leaves the final loops was raised by the computation
    of an entry and is not a [ValueError]; when the loops return, no entry
    raised such an exception. *)
Lemma final_methods_raise st f ms entry log log' e :
  final_methods st f ms entry log = (log', Raise e) →
  ∃ m, m ∈ ms ∧ compute_final_statistics st f m = Raise e
       ∧ ¬ caught (Raise e : result num).
Proof.
  revert entry log. induction ms as [|a ms IH]; intros entry log; cbn [final_methods]; [done|].
  destruct (compute_final_statistics st f a) as [v|[k|msg| |]] eqn:Hcomp;
    try (intros (m & Hm & H)%IH; exists m; split; [by apply elem_of_cons; right | done]);
    intros [= <- <-]; exists a; (split; [by apply elem_of_cons; left|]); split; auto.
Qed.

Lemma final_features_raise st fs ms final log log' e :
  final_features st fs ms final log = (log', Raise e) →
  ∃ f m, f ∈ fs ∧ m ∈ ms ∧ compute_final_statistics st f m = Raise e
         ∧ ¬ caught (Raise e : result num).
Proof.
  revert final log. induction fs as [|a fs IH]; intros final log; cbn [final_features]; [done|].
  destruct (final_methods st a ms ∅ log) as [log1 [entry|e1]] eqn:Hm.
  - intros (f & m & Hf & H)%IH. exists f, m. split; [by apply elem_of_cons; right | done].
  - intros [= <- <-]. apply final_methods_raise in Hm as (m & Hm & H).
    exists a, m. split; [by apply elem_of_cons; left | done].
Qed.

Lemma final_methods_Ok st f ms entry log log' entry' :
  final_methods st f ms entry log = (log', Ok entry') →
  ∀ m, m ∈ ms → caught (compute_final_statistics st f m).
Proof.
  revert entry log. induction ms as [|a ms IH]; intros entry log; cbn [final_methods].
  - by intros _ m ?%elem_of_nil.
  - destruct (compute_final_statistics st f a) as [v|[k|msg| |]] eqn:Hcomp; try done;
      intros H m [->|Hm]%elem_of_cons; try (by rewrite Hcomp); by eapply IH.
Qed.

Lemma final_features_Ok st fs ms final log log' final' :
  final_features st fs ms final log = (log', Ok final') →
  ∀ f m, f ∈ fs → m ∈ ms → caught (compute_final_statistics st f m).
Proof.
  revert final log. induction fs as [|a fs IH]; intros final log; cbn [final_features].
  - by intros _ f m ?%elem_of_nil.
  - destruct (final_methods st a ms ∅ log) as [log1 [entry|e1]] eqn:Hm; [|done].
    intros H f m [->|Hf]%elem_of_cons Hin.
    + by eapply final_methods_Ok.
    + by eapply IH.
Qed.

Lemma final_features_dom st fs ms final log final' log' :
  final_features st fs ms final log = (log', Ok final') →
  ∀ f, is_Some (final' !! f) ↔ f ∈ fs ∨ is_Some (final !! f).
Proof.
  revert final log. induction fs as [|a fs IH]; intros final log; cbn [final_features].
  - intros [= <- <-] f. rewrite elem_of_nil. tauto.
  - destruct (final_methods st a ms ∅ log) as [log1 [entry|e]]; [|done].
    intros Hrest f. rewrite (IH _ _ Hrest f), lookup_insert, elem_of_cons.
    destruct (decide (a = f)) as [->|Hne].
    + split; [auto | intros _; right; by eexists].
    + split; [intros [?|?]; auto | intros [[?|?]|?]; auto; congruence].
Qed.

(** A round with well-formed replies, one of them valid, and without
    overflow produces its statistics; every requested entry holds its final
    value, computed from the reduced totals, and the log holds the warnings
    of the null ones. *)
Lemma aggregate_features_spec msgs fs ms :
  Forall (well_formed fs ms) msgs → valid_results msgs ≠ [] → no_overflow msgs fs ms →
  ∃ st final,
    reduce_round msgs fs ms = Ok (st, length (valid_results msgs))
    ∧ initialised fs ms st
    ∧ aggregate_features msgs fs ms = (all_warnings st fs ms, Ok final)
    ∧ ∀ f m, final_at final f m
             = if decide (f ∈ fs ∧ m ∈ ms) then Some (final_value st f m) else None.
Proof.
  intros Hwf Hne Hno. destruct (reduce_round_ok msgs fs ms Hwf) as (st & Hred & Hi).
  destruct (final_features_spec st fs ms ∅ []) as (final & Hfinal & Hlook).
  { intros f m Hf Hm.
    destruct (compute_final_cases fs ms st f m Hi Hf Hm) as [?|[-> Hov]]; [done|].
    apply compute_final_overflow_inv in Hov as (s & Hs & Hover).
    by destruct (Hno st _ f s Hred Hf Hm Hs). }
  exists st, final. split; [done|]. split; [done|]. split.
  - unfold aggregate_features. rewrite Hred.
    rewrite decide_False; [done|]. by destruct (valid_results msgs).
  - intros f m. rewrite Hlook. unfold final_at at 1. rewrite lookup_empty. cbn.
    repeat case_decide; try done; tauto.
Qed.

(** The statistics of a round have an entry for exactly the requested
    features. *)
Lemma aggregate_features_dom msgs fs ms log final :
  aggregate_features msgs fs ms = (log, Ok final) → ∀ f, is_Some (final !! f) ↔ f ∈ fs.
Proof.
  unfold aggregate_features. destruct (reduce_round msgs fs ms) as [[st n]|e]; [|done].
  destruct (decide (n = 0)); [done|]. intros Hagg f.
  rewrite (final_features_dom _ _ _ _ _ _ _ Hagg f), lookup_empty.
  split; [intros [?|[? ?]]; done | auto].
Qed.

(** The final values on accumulators that hold numbers. *)
Lemma final_mean_Fin st f x c :
  mean_at st f = Some {| mean_sum := Fin x; mean_count := Fin c |} → c ≠ 0%R →
  compute_final_statistics st f "mean" = Ok (Fin (x / c)).
Proof.
  intros Hs Hc. rewrite (compute_final_mean _ _ _ Hs). cbn.
  by destruct (Req_dec_T c 0).
Qed.

Lemma raw_variance_Fin x c q :
  (1 < c)%R → (x / c * (x / c) <= float_max)%R →
  raw_variance (Fin x) (Fin c) (Fin q)
  = Ok (Fin ((q - c * (x / c * (x / c))) / (c - 1))).
Proof.
  intros Hc Hfit. unfold raw_variance. cbn.
  destruct (Req_dec_T c 0); [lra|]. cbn.
  destruct (Rlt_dec float_max (x / c * (x / c))); [lra|]. cbn.
  destruct (Req_dec_T (c - 1) 0); [lra | done].
Qed.

Lemma raw_variance_overflow x c q :
  (1 < c)%R → (float_max < x / c * (x / c))%R →
  raw_variance (Fin x) (Fin c) q = Raise OverflowError.
Proof.
  intros Hc Hbig. unfold raw_variance. cbn.
  destruct (Req_dec_T c 0); [lra|]. cbn.
  by destruct (Rlt_dec float_max (x / c * (x / c))); [|lra].
Qed.

Lemma final_std_Fin st f x c q :
  std_at st f = Some {| std_sum := Fin x; std_count := Fin c; std_sum_sqd := Fin q |} →
  (1 < c)%R → (x / c * (x / c) <= float_max)%R →
  compute_final_statistics st f "std"
  = Ok (sqrt (if lt0 (Fin ((q - c * (x / c * (x / c))) / (c - 1))) then zero
              else Fin ((q - c * (x / c * (x / c))) / (c - 1)))).
Proof.
  intros Hs Hc Hfit. rewrite (compute_final_std _ _ _ Hs). cbn [std_sum std_count std_sum_sqd].
  unfold le1. destruct (Rle_dec c 1); [lra|]. by rewrite raw_variance_Fin.
Qed.

Lemma final_std_overflow st f x c q :
  std_at st f = Some {| std_sum := Fin x; std_count := Fin c; std_sum_sqd := q |} →
  (1 < c)%R → (float_max < x / c * (x / c))%R →
  compute_final_statistics st f "std" = Raise OverflowError.
Proof.
  intros Hs Hc Hbig. rewrite (compute_final_std _ _ _ Hs). cbn [std_sum std_count std_sum_sqd].
  unfold le1. destruct (Rle_dec c 1); [lra|]. by rewrite raw_variance_overflow.
Qed.

(** The largest float is positive, and the squares of the small numbers of
    the examples are far below it. *)
Lemma float_max_large : (1000000 <= float_max)%R.
Proof. unfold float_max. apply IZR_le. by vm_compute. Qed.

Lemma sqrt_zero : sqrt zero = zero.
Proof.
  unfold sqrt, zero. destruct (Rlt_dec 0 0); [lra|]. by rewrite sqrt_0.
Qed.

End final_facts.

(** ** The replies of the nodes *)

Section node_facts.

Implicit Types (df : DataFrame) (dfs : list DataFrame) (r : MetricRecord).
Implicit Types (f g m k e : string) (fs ms : list string) (col : Series).

Lemma entries_mean f col :
  entries f col "mean"
  = [(f +:+ "_mean_sum", sum (tolist col));
     (f +:+ "_mean_count", of_nat (length (tolist col)))].
Proof. reflexivity. Qed.

Lemma entries_std f col :
  entries f col "std"
  = [(f +:+ "_std_sum", sum (tolist col));
     (f +:+ "_std_count", of_nat (length (tolist col)));
     (f +:+ "_std_sum_sqd", sum (tolist (pow2_series col)))].
Proof. reflexivity. Qed.

Lemma lookups_entries f col m k :
  k ∈ lookups f m ↔ ∃ v, (k, v) ∈ entries f col m.
Proof.
  unfold lookups, entries. repeat case_decide; rewrite ?elem_of_cons, ?elem_of_nil.
  - split; [intros [->|[->|[]]]; eexists; rewrite !elem_of_cons; eauto|].
    intros (v & Hv). rewrite !elem_of_cons, elem_of_nil in Hv.
    destruct_or?; simplify_eq; auto.
  - split; [intros [->|[->|[->|[]]]]; eexists; rewrite !elem_of_cons; eauto 6|].
    intros (v & Hv). rewrite !elem_of_cons, elem_of_nil in Hv.
    destruct_or?; simplify_eq; auto.
  - split; [done|]. by intros (v & ?%elem_of_nil).
Qed.

Lemma query_keys df fs ms r k :
  (query df fs ms).2 = Ok r → is_Some (r !! k) ↔ k ∈ keys_read fs ms.
Proof.
  unfold query. intros Hq. rewrite elem_of_keys_read. split.
  - intros [v Hv].
    destruct (query_loop_lookup _ _ _ _ _ _ _ Hq Hv)
      as [(f & col & m & Hf & Hm & Hdf & He)|Hemp];
      [|by cbn [fst] in Hemp; rewrite lookup_empty in Hemp].
    exists f, m. split; [done|]. split; [done|]. apply (lookups_entries f col). by exists v.
  - intros (f & m & Hf & Hm & Hk).
    destruct (df !! f) as [col|] eqn:Hdf.
    + destruct (proj1 (lookups_entries f col m k) Hk) as [v Hv].
      by eapply query_loop_present.
    + destruct (query_loop_absent df fs ms (∅, []) f Hf Hdf) as [e He]. congruence.
Qed.

Lemma node_reply_valid df fs ms :
  has_features fs df →
  ∃ r, (query df fs ms).2 = Ok r
       ∧ node_reply df fs ms = MsgContent {[ "query_results" := r ]}.
Proof.
  intros Hall. destruct (query_loop_ok df fs ms (∅, [])) as [r Hr].
  { intros f Hf. unfold has_features in Hall. rewrite Forall_forall in Hall. by apply Hall. }
  exists r. unfold node_reply, query. by rewrite Hr.
Qed.

Lemma node_reply_error df fs ms :
  ¬ has_features fs df →
  ∃ f, f ∈ fs ∧ df !! f = None
       ∧ (query df fs ms).2 = Raise (ValueError (feature_not_found f))
       ∧ node_reply df fs ms = MsgError (feature_not_found f).
Proof.
  intros Hnot. unfold has_features in Hnot.
  apply not_Forall_Exists in Hnot; [|apply _].
  apply Exists_exists in Hnot as (g & Hg & Hnone).
  assert (df !! g = None) as Hdf.
  { destruct (df !! g) eqn:E; [|done]. exfalso. apply Hnone. by eexists. }
  destruct (query_loop_absent df fs ms (∅, []) g Hg Hdf) as [e He].
  destruct (query_loop_raise _ _ _ _ _ He) as (f & Hf & Hfnone & ->).
  exists f. unfold node_reply, query. by rewrite He.
Qed.

Lemma node_reply_well_formed df fs ms : well_formed fs ms (node_reply df fs ms).
Proof.
  destruct (decide (has_features fs df)) as [Hall|Hnot].
  - destruct (node_reply_valid df fs ms Hall) as (r & Hr & ->).
    apply well_formed_content. exists r. split; [by rewrite lookup_singleton_eq|].
    intros k Hk. by apply (query_keys df fs ms).
  - by destruct (node_reply_error df fs ms Hnot) as (f & _ & _ & _ & ->).
Qed.

Lemma replies_well_formed dfs fs ms : Forall (well_formed fs ms) (replies dfs fs ms).
Proof.
  unfold replies. apply Forall_fmap, Forall_forall. intros df _.
  apply node_reply_well_formed.
Qed.

Lemma replies_valid_length dfs fs ms :
  length (valid_results (replies dfs fs ms)) = length (valid_frames fs dfs).
Proof.
  unfold replies, valid_frames. induction dfs as [|df dfs IH]; [done|].
  rewrite fmap_cons. destruct (decide (has_features fs df)) as [Hall|Hnot].
  - destruct (node_reply_valid df fs ms Hall) as (r & Hr & ->).
    rewrite (valid_results_content _ _ r) by by rewrite lookup_singleton_eq.
    rewrite filter_cons_True by done. cbn. by rewrite IH.
  - destruct (node_reply_error df fs ms Hnot) as (f & _ & _ & _ & ->).
    rewrite valid_results_error, filter_cons_False by done. done.
Qed.

(** The total of a statistic over the replies is the sum of the statistics
    of the local columns. *)
Lemma total_replies dfs fs ms f m e :
  f ∈ fs → m ∈ ms →
  (∀ col, (f +:+ e, statistic e col) ∈ entries f col m) →
  total (f +:+ e) (valid_results (replies dfs fs ms))
  = sum ((λ df, statistic e (series f df)) <$> valid_frames fs dfs).
Proof.
  intros Hf Hm He. unfold replies, valid_frames.
  induction dfs as [|df dfs IH]; [done|].
  rewrite fmap_cons. destruct (decide (has_features fs df)) as [Hall|Hnot].
  - destruct (node_reply_valid df fs ms Hall) as (r & Hr & ->).
    rewrite (valid_results_content _ _ r) by by rewrite lookup_singleton_eq.
    rewrite filter_cons_True by done. rewrite !fmap_cons, total_cons, sum_cons, IH.
    f_equal. apply lookup_total_correct.
    unfold has_features in Hall. rewrite Forall_forall in Hall.
    destruct (Hall f Hf) as [col Hcol]. unfold series. rewrite Hcol. cbn [default].
    destruct (query df fs ms) as [out res] eqn:Hq. cbn in Hr. subst res.
    by eapply query_lookup.
  - destruct (node_reply_error df fs ms Hnot) as (g & _ & _ & _ & ->).
    rewrite valid_results_error, filter_cons_False by done. done.
Qed.

Lemma sum_lengths (cols : list (list num)) :
  sum ((λ l, of_nat (length l)) <$> cols) = of_nat (length (concat cols)).
Proof.
  induction cols as [|l cols IH]; [by unfold of_nat; simpl|].
  rewrite fmap_cons, sum_cons, IH. cbn [concat]. rewrite length_app.
  unfold of_nat. simpl. f_equal. by rewrite plus_INR.
Qed.

Lemma total_sum_mean dfs fs ms f :
  f ∈ fs → "mean" ∈ ms →
  total (f +:+ "_mean_sum") (valid_results (replies dfs fs ms))
  = sum (concat (columns f fs dfs)).
Proof.
  intros Hf Hm. rewrite (total_replies dfs fs ms f "mean" "_mean_sum") by
    (try done; intros col; rewrite ?entries_mean, ?entries_std, !elem_of_cons; auto).
  unfold columns. by rewrite sum_concat, <- list_fmap_compose.
Qed.

Lemma total_count_mean dfs fs ms f :
  f ∈ fs → "mean" ∈ ms →
  total (f +:+ "_mean_count") (valid_results (replies dfs fs ms))
  = of_nat (length (concat (columns f fs dfs))).
Proof.
  intros Hf Hm. rewrite (total_replies dfs fs ms f "mean" "_mean_count") by
    (try done; intros col; rewrite ?entries_mean, ?entries_std, !elem_of_cons; auto).
  unfold columns. by rewrite <- sum_lengths, <- list_fmap_compose.
Qed.

Lemma total_sum_std dfs fs ms f :
  f ∈ fs → "std" ∈ ms →
  total (f +:+ "_std_sum") (valid_results (replies dfs fs ms))
  = sum (concat (columns f fs dfs)).
Proof.
  intros Hf Hm. rewrite (total_replies dfs fs ms f "std" "_std_sum") by
    (try done; intros col; rewrite ?entries_mean, ?entries_std, !elem_of_cons; auto).
  unfold columns. by rewrite sum_concat, <- list_fmap_compose.
Qed.

Lemma total_count_std dfs fs ms f :
  f ∈ fs → "std" ∈ ms →
  total (f +:+ "_std_count") (valid_results (replies dfs fs ms))
  = of_nat (length (concat (columns f fs dfs))).
Proof.
  intros Hf Hm. rewrite (total_replies dfs fs ms f "std" "_std_count") by
    (try done; intros col; rewrite ?entries_mean, ?entries_std, !elem_of_cons; auto).
  unfold columns. by rewrite <- sum_lengths, <- list_fmap_compose.
Qed.

Lemma total_sqd_std dfs fs ms f :
  f ∈ fs → "std" ∈ ms →
  total (f +:+ "_std_sum_sqd") (valid_results (replies dfs fs ms))
  = sum (concat (square_columns f fs dfs)).
Proof.
  intros Hf Hm. rewrite (total_replies dfs fs ms f "std" "_std_sum_sqd") by
    (try done; intros col; rewrite ?entries_mean, ?entries_std, !elem_of_cons; auto).
  unfold square_columns. by rewrite sum_concat, <- list_fmap_compose.
Qed.

(** A square that fits in 64 bits is not changed by the wrap-around, so the
    squares that a node computes are then the squares of the values. *)
Lemma wrap64_small (z : Z) : (0 <= z < 2 ^ 63)%Z → wrap64 z = z.
Proof. intros Hz. unfold wrap64. rewrite Z.mod_small; lia. Qed.

Lemma pow2_series_fit col :
  squares_fit col → tolist (pow2_series col) = pow2 <$> tolist col.
Proof.
  destruct col as [l|l]; cbn [squares_fit pow2_series tolist]; [|done].
  induction 1 as [|z l Hz _ IH]; [done|].
  rewrite !fmap_cons, IH. f_equal.
  rewrite wrap64_small by nia. cbn. by rewrite mult_IZR.
Qed.

End node_facts.

(** ** The node side: claims *)

Section node_claims.

Implicit Types (df : DataFrame) (r : MetricRecord).
Implicit Types (f m k : string) (fs ms : list string) (col : Series).

(** C8 (FeatureNotFound atomicity).  When a requested feature is absent from
    the local data set, [query] raises the feature-not-found error for an
    absent feature and the reply of the node is an error reply that carries
    no record at all, whatever the other features are; when every requested
    feature is present, [query] returns its metrics and the reply is a
    valid one. *)
Theorem feature_not_found_atomic df fs ms :
  ((∃ f, f ∈ fs ∧ df !! f = None) →
     ∃ f, f ∈ fs ∧ df !! f = None
          ∧ (query df fs ms).2 = Raise (ValueError (feature_not_found f))
          ∧ has_error (node_reply df fs ms) = true
          ∧ results_of (node_reply df fs ms) = None)
  ∧ ((∀ f, f ∈ fs → is_Some (df !! f)) →
     ∃ r, (query df fs ms).2 = Ok r
          ∧ node_reply df fs ms = MsgContent {[ "query_results" := r ]}).
Proof.
  split.
  - intros (g & Hg & Hnone).
    destruct (node_reply_error df fs ms) as (f & Hf & Hdf & Hq & Hreply).
    { unfold has_features. rewrite Forall_forall. intros Hall.
      destruct (Hall g Hg) as [col Hcol]. congruence. }
    exists f. rewrite Hreply. done.
  - intros Hall. apply node_reply_valid. unfold has_features.
    rewrite Forall_forall. done.
Qed.

Lemma feature_not_found_atomic_witness :
  (∃ f, f ∈ ["age"; "height"]
        ∧ ({[ "age" := FloatSeries [Fin 1] ]} : DataFrame) !! f = None
        ∧ (query {[ "age" := FloatSeries [Fin 1] ]} ["age"; "height"] ["mean"]).2
          = Raise (ValueError (feature_not_found f))
        ∧ has_error (node_reply {[ "age" := FloatSeries [Fin 1] ]} ["age"; "height"] ["mean"]) = true
        ∧ results_of (node_reply {[ "age" := FloatSeries [Fin 1] ]} ["age"; "height"] ["mean"]) = None)
  ∧ (∃ r, (query {[ "age" := FloatSeries [Fin 1] ]} ["age"] ["mean"]).2 = Ok r
          ∧ node_reply {[ "age" := FloatSeries [Fin 1] ]} ["age"] ["mean"]
            = MsgContent {[ "query_results" := r ]}).
Proof.
  split.
  - apply (proj1 (feature_not_found_atomic {[ "age" := FloatSeries [Fin 1] ]} ["age"; "height"] ["mean"])).
    exists "height". split; [|reflexivity].
    apply elem_of_cons; right. apply elem_of_cons; by left.
  - apply (proj2 (feature_not_found_atomic {[ "age" := FloatSeries [Fin 1] ]} ["age"] ["mean"])).
    intros f [->|[]%elem_of_nil]%elem_of_cons. by eexists.
Defined.

(** C9 fails as stated: on a column with a missing value the emitted count
    is the number of all rows and the emitted sum of squares is NaN, which is
    not at least zero; and on an [int64] column whose square does not fit in
    64 bits the emitted sum of squares is negative although no value is
    missing. *)
Lemma partial_statistics_counterexample :
  (∃ r, (query {[ "age" := FloatSeries [Fin 1; NaN] ]} ["age"] ["std"]).2 = Ok r
        ∧ r !! "age_std_count" = Some (of_nat 2)
        ∧ of_nat 2 ≠ of_nat (non_missing [Fin 1; NaN])
        ∧ r !! "age_std_sum_sqd" = Some NaN
        ∧ ge0 NaN = false)
  ∧ (∃ r, (query {[ "age" := IntSeries [3037000500]%Z ]} ["age"] ["std"]).2 = Ok r
          ∧ (NaN ∉ tolist (IntSeries [3037000500]%Z))
          ∧ r !! "age_std_sum_sqd"
            = Some (sum (tolist (pow2_series (IntSeries [3037000500]%Z))))
          ∧ sum (tolist (pow2_series (IntSeries [3037000500]%Z)))
            = Fin (IZR (-9223372036709301616))
          ∧ ge0 (Fin (IZR (-9223372036709301616))) = false).
Proof.
  split.
  - eexists. split; [reflexivity|]. split; [reflexivity|]. split; [|split; reflexivity].
    unfold of_nat, non_missing. cbn. intros [= H]. lra.
  - eexists. split; [reflexivity|]. split; [|split; [reflexivity|split]].
    + cbn [tolist fmap list_fmap]. by intros [?|[]%elem_of_nil]%elem_of_cons.
    + cbn [pow2_series tolist fmap list_fmap]. unfold sum. cbn [foldl].
      assert (Hw : wrap64 (3037000500 * 3037000500) = (-9223372036709301616)%Z)
        by by vm_compute.
      rewrite Hw.
      unfold zero. cbn [add]. f_equal. lra.
    + unfold ge0. destruct (Rle_dec 0 (IZR (-9223372036709301616))); [lra | done].
Qed.

(** C9, amended (PartialStatistics invariant).  In a reply of [query] the
    count of a requested feature is the number of rows of its column, the
    rows with a missing value included, and the sum of squares is at least
    zero when no value of the column is missing and, on an [int64] column,
    every square fits in 64 bits; the emitted sum of squares is then the
    sum of the squares of the values.  On a column without missing values
    the count is the number of non-missing rows. *)
Theorem partial_statistics_invariant df fs ms out r f col :
  query df fs ms = (out, Ok r) → f ∈ fs → df !! f = Some col →
  ("mean" ∈ ms → r !! (f +:+ "_mean_count") = Some (of_nat (length (tolist col))))
  ∧ ("std" ∈ ms →
       r !! (f +:+ "_std_count") = Some (of_nat (length (tolist col)))
       ∧ r !! (f +:+ "_std_sum_sqd") = Some (sum (tolist (pow2_series col)))
       ∧ (squares_fit col →
            sum (tolist (pow2_series col)) = sum (pow2 <$> tolist col)
            ∧ (NaN ∉ tolist col → ge0 (sum (tolist (pow2_series col))) = true)))
  ∧ (NaN ∉ tolist col → length (tolist col) = non_missing (tolist col)).
Proof.
  intros Hq Hf Hdf. split; [|split].
  - intros Hm. eapply query_lookup; [done..|]. rewrite entries_mean, !elem_of_cons. auto.
  - intros Hm. split; [|split].
    + eapply query_lookup; [done..|]. rewrite entries_std, !elem_of_cons. auto.
    + eapply query_lookup; [done..|]. rewrite entries_std, !elem_of_cons. auto.
    + intros Hfit. rewrite (pow2_series_fit col Hfit). split; [done|].
      intros Hnan. destruct (fin_or_nan (tolist col)) as [[xs ->]|?]; [|done].
      rewrite pow2_Fin, sum_Fin. unfold ge0.
      destruct (Rle_dec 0 (rsum ((λ x, x * x)%R <$> xs))) as [|Hneg]; [done|].
      destruct Hneg. apply rsum_sq_nonneg.
  - intros Hnan. unfold non_missing. f_equal. symmetry.
    clear -Hnan. induction (tolist col) as [|[x|] l IH].
    + done.
    + rewrite filter_cons_True by done. f_equal. apply IH.
      intros Hin. apply Hnan, elem_of_cons. by right.
    + destruct Hnan. apply elem_of_cons. by left.
Qed.

Lemma partial_statistics_invariant_witness :
  ∃ r, ("mean" ∈ ["mean"; "std"] →
          r !! ("age" +:+ "_mean_count") = Some (of_nat (length (tolist (IntSeries [1; 2]%Z)))))
       ∧ ("std" ∈ ["mean"; "std"] →
            r !! ("age" +:+ "_std_count") = Some (of_nat (length (tolist (IntSeries [1; 2]%Z))))
            ∧ r !! ("age" +:+ "_std_sum_sqd")
              = Some (sum (tolist (pow2_series (IntSeries [1; 2]%Z))))
            ∧ (squares_fit (IntSeries [1; 2]%Z) →
                 sum (tolist (pow2_series (IntSeries [1; 2]%Z)))
                 = sum (pow2 <$> tolist (IntSeries [1; 2]%Z))
                 ∧ (NaN ∉ tolist (IntSeries [1; 2]%Z) →
                    ge0 (sum (tolist (pow2_series (IntSeries [1; 2]%Z)))) = true)))
       ∧ (NaN ∉ tolist (IntSeries [1; 2]%Z) →
          length (tolist (IntSeries [1; 2]%Z)) = non_missing (tolist (IntSeries [1; 2]%Z))).
Proof.
  eexists.
  apply (partial_statistics_invariant {[ "age" := IntSeries [1; 2]%Z ]} ["age"] ["mean"; "std"]
           [] _ "age" (IntSeries [1; 2]%Z)).
  - reflexivity.
  - apply elem_of_cons; by left.
  - reflexivity.
Defined.

End node_claims.

(** ** The reply read by the server *)

Section schema_claims.

Implicit Types (df : DataFrame) (r : MetricRecord) (st : gmap string FeatureStats).
Implicit Types (f m k : string) (fs ms : list string).

(** C10 (reply-schema compatibility).  The keys of a reply of [query] are
    exactly the keys that the accumulation looks up for the same request,
    [keys_read]; the accumulation of the reply therefore succeeds from any
    initialised accumulators, and a round made of this reply alone is reduced
    with one valid reply.  [keys_read] is the true read set: the accumulation
    of any record succeeds exactly when the record has all these keys. *)
Theorem reply_schema_compatible df fs ms out r :
  query df fs ms = (out, Ok r) →
  (∀ k, is_Some (r !! k) ↔ k ∈ keys_read fs ms)
  ∧ (∀ st, initialised fs ms st → ∃ st', accumulate_reply fs ms r st = Ok st')
  ∧ (∃ st', reduce_round [MsgContent {[ "query_results" := r ]}] fs ms = Ok (st', 1))
  ∧ (∀ (r' : gmap string num) st, initialised fs ms st →
       (∃ st', accumulate_reply fs ms r' st = Ok st')
       ↔ (∀ k, k ∈ keys_read fs ms → is_Some (r' !! k))).
Proof.
  intros Hq. assert (Hr : (query df fs ms).2 = Ok r) by by rewrite Hq.
  assert (Hkeys : ∀ k, is_Some (r !! k) ↔ k ∈ keys_read fs ms).
  { intros k. by apply (query_keys df). }
  split; [done|]. split; [|split].
  - intros st Hi. apply accumulate_reply_ok; [done|]. intros k. apply Hkeys.
  - destruct (reduce_round_ok [MsgContent {[ "query_results" := r ]}] fs ms) as (st & Hst & _).
    + constructor; [|constructor]. apply well_formed_content.
      exists r. split; [by rewrite lookup_singleton_eq|]. intros k. apply Hkeys.
    + exists st. rewrite Hst. f_equal.
  - intros r' st Hi. split.
    + intros [st' Hst'] k Hk. by eapply accumulate_reply_found.
    + by apply accumulate_reply_ok.
Qed.

Lemma reply_schema_compatible_witness :
  ∃ r, (∀ k, is_Some (r !! k) ↔ k ∈ keys_read ["age"] ["mean"; "std"])
    ∧ (∀ st, initialised ["age"] ["mean"; "std"] st →
         ∃ st', accumulate_reply ["age"] ["mean"; "std"] r st = Ok st')
    ∧ (∃ st', reduce_round [MsgContent {[ "query_results" := r ]}] ["age"] ["mean"; "std"]
              = Ok (st', 1))
    ∧ (∀ (r' : gmap string num) st, initialised ["age"] ["mean"; "std"] st →
         (∃ st', accumulate_reply ["age"] ["mean"; "std"] r' st = Ok st')
         ↔ (∀ k, k ∈ keys_read ["age"] ["mean"; "std"] → is_Some (r' !! k))).
Proof.
  eexists.
  apply (reply_schema_compatible {[ "age" := FloatSeries [Fin 1; Fin 2] ]}
           ["age"] ["mean"; "std"] []).
  reflexivity.
Defined.

End schema_claims.

(** ** Rounds: auxiliary facts *)

Section round_facts.

Implicit Types (st : gmap string FeatureStats) (final : FinalStats) (msgs : list Message).
Implicit Types (f m k : string) (fs ms : list string).

Lemma bind_Raise {A B} (x : result A) (h : A → result B) e :
  x ≫= h = Raise e → x = Raise e ∨ ∃ a, x = Ok a ∧ h a = Raise e.
Proof. destruct x as [a|e']; intros H; [right; by exists a | left; by injection H as ->]. Qed.

Lemma getitem_Raise {A} (d : gmap string A) k e : getitem d k = Raise e → e = KeyError k.
Proof. unfold getitem. destruct (d !! k); [done | by intros [= <-]]. Qed.

Lemma getfield_Raise {A} k (o : option A) e : getfield k o = Raise e → e = KeyError k.
Proof. unfold getfield. destruct o; [done | by intros [= <-]]. Qed.

(** The reduction raises nothing but a [KeyError]. *)
Lemma accumulate_Raise st (r : gmap string num) f m e :
  accumulate_statistics st r f m = Raise e → ∃ k, e = KeyError k.
Proof.
  unfold accumulate_statistics.
  destruct (decide (m = "mean")) as [_|_]; [|destruct (decide (m = "std")) as [_|_]];
    [| |done];
    intros Hr; repeat (apply bind_Raise in Hr as [Hr|(? & _ & Hr)]);
    first [apply getitem_Raise in Hr | apply getfield_Raise in Hr | done]; by eexists.
Qed.

Lemma foldlM_Raise {A B} (P : error → Prop) (h : A → B → result A) l a e :
  (∀ a x e, h a x = Raise e → P e) → foldlM h a l = Raise e → P e.
Proof.
  intros Hh. revert a. induction l as [|x l IH]; intros a; cbn [foldlM]; [done|].
  intros [H|(a' & _ & H)]%bind_Raise; [by eapply Hh | by eapply IH].
Qed.

Lemma accumulate_reply_Raise fs ms (r : gmap string num) st e :
  accumulate_reply fs ms r st = Raise e → ∃ k, e = KeyError k.
Proof.
  unfold accumulate_reply. apply (foldlM_Raise (λ e, ∃ k, e = KeyError k)).
  intros a f e'. apply (foldlM_Raise (λ e, ∃ k, e = KeyError k)).
  intros a' m e''. apply accumulate_Raise.
Qed.

Lemma reduce_messages_Raise msgs fs ms (sn : gmap string FeatureStats * nat) e :
  reduce_messages msgs fs ms sn = Raise e → ∃ k, e = KeyError k.
Proof.
  revert sn. induction msgs as [|[reason|content] msgs IH]; intros sn;
    cbn [reduce_messages]; [done | apply IH |].
  intros [H|(r & _ & [H|(st1 & _ & H)]%bind_Raise)]%bind_Raise.
  - apply getitem_Raise in H. by eexists.
  - by eapply accumulate_reply_Raise.
  - by eapply IH.
Qed.

(** A round of error replies is reduced to the initial accumulators. *)
Lemma reduce_messages_errors msgs fs ms (sn : gmap string FeatureStats * nat) :
  Forall (λ msg, has_error msg = true) msgs → reduce_messages msgs fs ms sn = Ok sn.
Proof.
  induction 1 as [|[reason|content] msgs Hmsg _ IH]; cbn [reduce_messages]; done.
Qed.

Lemma valid_results_empty msgs fs ms :
  Forall (well_formed fs ms) msgs → valid_results msgs = [] →
  Forall (λ msg, has_error msg = true) msgs.
Proof.
  induction 1 as [|[reason|content] msgs Hmsg _ IH].
  - by constructor.
  - rewrite valid_results_error. intros ?%IH. by constructor.
  - apply well_formed_content in Hmsg as (r & Hr & _).
    by rewrite (valid_results_content _ _ _ Hr).
Qed.

Lemma valid_results_exists msgs fs ms :
  Forall (well_formed fs ms) msgs → Exists (λ msg, has_error msg = false) msgs →
  valid_results msgs ≠ [].
Proof.
  intros Hwf Hex Hnil. apply (valid_results_empty _ _ _ Hwf) in Hnil.
  apply Exists_exists in Hex as (msg & Hin & Hmsg).
  rewrite Forall_forall in Hnil. specialize (Hnil msg Hin). congruence.
Qed.

(** The round after a successful reduction with a valid reply. *)
Lemma aggregate_after_reduce msgs fs ms st n :
  reduce_round msgs fs ms = Ok (st, n) → n ≠ 0 → no_overflow msgs fs ms →
  initialised fs ms st
  ∧ ∃ final, aggregate_features msgs fs ms = (all_warnings st fs ms, Ok final)
      ∧ ∀ f m, final_at final f m
               = if decide (f ∈ fs ∧ m ∈ ms) then Some (final_value st f m) else None.
Proof.
  intros Hred Hn Hno.
  assert (Hwf : Forall (well_formed fs ms) msgs) by by eapply reduce_messages_well_formed.
  assert (n = length (valid_results msgs)) as ->.
  { by apply reduce_messages_count in Hred. }
  destruct (aggregate_features_spec msgs fs ms Hwf) as (st' & final & Hred' & Hi & Hagg & Hlook);
    [by destruct (valid_results msgs) | done |].
  rewrite Hred in Hred'. injection Hred' as <-. split; [done|]. by exists final.
Qed.

(** The result of a round after a successful reduction with a valid reply:
    the statistics, or the [OverflowError] of a standard deviation. *)
Lemma aggregate_result msgs fs ms st n :
  reduce_round msgs fs ms = Ok (st, n) → n ≠ 0 →
  (no_overflow msgs fs ms ∧ ∃ final, (aggregate_features msgs fs ms).2 = Ok final)
  ∨ ((aggregate_features msgs fs ms).2 = Raise OverflowError
     ∧ ∃ f, f ∈ fs ∧ "std" ∈ ms
            ∧ compute_final_statistics st f "std" = Raise OverflowError).
Proof.
  intros Hred Hn.
  assert (Hwf : Forall (well_formed fs ms) msgs) by by eapply reduce_messages_well_formed.
  destruct (reduce_round_ok msgs fs ms Hwf) as (st' & Hred' & Hi).
  rewrite Hred in Hred'. injection Hred' as <- _.
  unfold aggregate_features. rewrite Hred, decide_False by done.
  destruct (final_features st fs ms ∅ []) as [log [final|e]] eqn:Hfinal.
  - left. split; [|by exists final].
    intros st' n' f s Hred' Hf Hm Hs Hover.
    rewrite Hred in Hred'. injection Hred' as <- _.
    pose proof (final_features_Ok _ _ _ _ _ _ _ Hfinal f "std" Hf Hm) as Hc.
    apply (compute_final_overflow _ _ _ Hs) in Hover. by rewrite Hover in Hc.
  - right. apply final_features_raise in Hfinal as (f & m & Hf & Hm & Hcomp & Hnot).
    destruct (compute_final_cases fs ms st f m Hi Hf Hm) as [Hc|[-> Hov]].
    + by rewrite Hcomp in Hc.
    + rewrite Hov in Hcomp. injection Hcomp as <-. split; [done|]. by exists f.
Qed.

(** A request without the standard deviation does not overflow. *)
Lemma no_overflow_without_std msgs fs ms : "std" ∉ ms → no_overflow msgs fs ms.
Proof. intros Hnot st n f s _ _ Hm. done. Qed.

Lemma no_overflow_intro msgs fs ms st n :
  reduce_round msgs fs ms = Ok (st, n) →
  (∀ f, f ∈ fs → "std" ∈ ms →
     compute_final_statistics st f "std" ≠ Raise OverflowError) →
  no_overflow msgs fs ms.
Proof.
  intros Hred H st' n' f s Hred' Hf Hm Hs Hover.
  rewrite Hred in Hred'. injection Hred' as <- _.
  apply (H f Hf Hm). by apply (compute_final_overflow _ _ _ Hs).
Qed.

(** The lines of the log come from the entries whose computation raised a
    [ValueError], and every such error names its entry. *)
Lemma elem_of_all_warnings_inv st fs ms line :
  line ∈ all_warnings st fs ms →
  ∃ f m e, f ∈ fs ∧ m ∈ ms
           ∧ compute_final_statistics st f m = Raise (ValueError e) ∧ line = warning e.
Proof.
  unfold all_warnings. rewrite list_elem_of_bind. intros (f & Hline & Hf).
  unfold warnings_for in Hline. apply list_elem_of_bind in Hline as (m & Hline & Hm).
  unfold warnings_at in Hline.
  destruct (compute_final_statistics st f m) as [v|[k|e| |]] eqn:Hcomp;
    try by apply elem_of_nil in Hline.
  apply list_elem_of_singleton in Hline as ->. by exists f, m, e.
Qed.

Lemma raw_variance_Raise s c q e :
  raw_variance s c q = Raise e → e = ZeroDivisionError ∨ e = OverflowError.
Proof.
  unfold raw_variance, truediv, float_pow2.
  destruct s as [x|], c as [y|]; cbn;
    repeat first [ destruct (Req_dec_T _ _) | destruct (Rlt_dec _ _)
                 | destruct q | progress cbn ];
    intros [= <-]; auto.
Qed.

Lemma compute_final_ValueError st f m e :
  compute_final_statistics st f m = Raise (ValueError e) →
  (m = "mean" ∧ e = no_data_mean f) ∨ (m = "std" ∧ e = insufficient_std f)
  ∨ (m ≠ "mean" ∧ m ≠ "std" ∧ e = unsupported_method m).
Proof.
  unfold compute_final_statistics.
  destruct (decide (m = "mean")) as [->|Hm]; [|destruct (decide (m = "std")) as [->|Hs]].
  - intros [H|(a & _ & [H|(s & _ & H)]%bind_Raise)]%bind_Raise.
    + by apply getitem_Raise in H.
    + by apply getfield_Raise in H.
    + destruct (eq0 (mean_count s)); [injection H as <-; auto|].
      unfold truediv in H. destruct (mean_sum s), (mean_count s); try done.
      by destruct (Req_dec_T _ _).
  - intros [H|(a & _ & [H|(s & _ & H)]%bind_Raise)]%bind_Raise.
    + by apply getitem_Raise in H.
    + by apply getfield_Raise in H.
    + destruct (le1 (std_count s)); [injection H as <-; auto|].
      apply bind_Raise in H as [H|(v & _ & H)]; [|done].
      by apply raw_variance_Raise in H as [?|?].
  - intros [= <-]. auto.
Qed.

Lemma chars_inj_r (s t u : string) : s +:+ u = t +:+ u → s = t.
Proof.
  intros Heq. apply (f_equal Stdlib.Strings.String.list_ascii_of_string) in Heq.
  rewrite !chars_app in Heq. apply app_inv_tail in Heq. by apply chars_inj.
Qed.

(** An entry whose computation returns a value leaves no warning of its
    own in the log. *)
Lemma no_warning_mean st fs ms f v :
  compute_final_statistics st f "mean" = Ok v →
  warning (no_data_mean f) ∉ all_warnings st fs ms.
Proof.
  intros Hv (g & m & e & _ & _ & Hcomp & Heq)%elem_of_all_warnings_inv.
  apply (inj (String.append "Warning: ")) in Heq. subst e.
  apply compute_final_ValueError in Hcomp as Hcase.
  destruct Hcase as [[-> Heq]|[[-> Heq]|(_ & _ & Heq)]].
  - apply (inj (String.append "No data available for feature '")) in Heq.
    apply chars_inj_r in Heq. subst g. congruence.
  - discriminate Heq.
  - discriminate Heq.
Qed.

Lemma no_warning_std st fs ms f v :
  compute_final_statistics st f "std" = Ok v →
  warning (insufficient_std f) ∉ all_warnings st fs ms.
Proof.
  intros Hv (g & m & e & _ & _ & Hcomp & Heq)%elem_of_all_warnings_inv.
  apply (inj (String.append "Warning: ")) in Heq. subst e.
  apply compute_final_ValueError in Hcomp as Hcase.
  destruct Hcase as [[-> Heq]|[[-> Heq]|(_ & _ & Heq)]].
  - discriminate Heq.
  - apply (inj (String.append "Insufficient data for feature '")) in Heq.
    apply chars_inj_r in Heq. subst g. congruence.
  - discriminate Heq.
Qed.


Lemma std_Fin_no_overflow st f x c q :
  std_at st f = Some {| std_sum := Fin x; std_count := Fin c; std_sum_sqd := Fin q |} →
  (1 < c)%R → (x / c * (x / c) <= float_max)%R →
  compute_final_statistics st f "std" ≠ Raise OverflowError.
Proof. intros Hs Hc Hfit. by rewrite (final_std_Fin _ _ _ _ _ Hs Hc Hfit). Qed.

Lemma aggregate_overflow msgs fs ms st n f :
  reduce_round msgs fs ms = Ok (st, n) → n ≠ 0 → f ∈ fs → "std" ∈ ms →
  compute_final_statistics st f "std" = Raise OverflowError →
  (aggregate_features msgs fs ms).2 = Raise OverflowError.
Proof.
  intros Hred Hn Hf Hm Hov.
  destruct (aggregate_result msgs fs ms st n Hred Hn) as [[Hno _]|[H _]]; [|done].
  apply compute_final_overflow_inv in Hov as (s & Hs & Hover).
  by destruct (Hno st n f s Hred Hf Hm Hs).
Qed.

(** The round of [overflow_replies]: the mean of [bmi] is 10^200, its
    square is beyond the largest float. *)
Lemma huge_square : (float_max < IZR (10 ^ 200) * IZR (10 ^ 200))%R.
Proof. unfold float_max. rewrite <- mult_IZR. apply IZR_lt. by vm_compute. Qed.

Lemma overflow_round :
  ∃ st,
    reduce_round overflow_replies ["age"; "bmi"] ["std"] = Ok (st, 1)
    ∧ std_at st "age"
      = Some {| std_sum := Fin 5; std_count := Fin 1; std_sum_sqd := Fin 25 |}
    ∧ std_at st "bmi"
      = Some {| std_sum := Fin (2 * IZR (10 ^ 200)); std_count := Fin 2;
                std_sum_sqd := Fin 0 |}
    ∧ compute_final_statistics st "bmi" "std" = Raise OverflowError
    ∧ (aggregate_features overflow_replies ["age"; "bmi"] ["std"]).2 = Raise OverflowError.
Proof.
  assert (∃ st,
    reduce_round overflow_replies ["age"; "bmi"] ["std"] = Ok (st, 1)
    ∧ std_at st "age"
      = Some {| std_sum := Fin (0 + 5); std_count := Fin (0 + 1); std_sum_sqd := Fin (0 + 25) |}
    ∧ std_at st "bmi"
      = Some {| std_sum := Fin (0 + 2 * IZR (10 ^ 200)); std_count := Fin (0 + 2);
                std_sum_sqd := Fin (0 + 0) |}) as (st & Hred & Hage & Hbmi).
  { eexists. split; [reflexivity|]. split; reflexivity. }
  assert (compute_final_statistics st "bmi" "std" = Raise OverflowError) as Hov.
  { apply (final_std_overflow _ _ _ _ _ Hbmi); [lra|].
    replace ((0 + 2 * IZR (10 ^ 200)) / (0 + 2))%R with (IZR (10 ^ 200)) by lra.
    apply huge_square. }
  exists st. split; [done|]. split; [|split; [|split; [done|]]].
  - rewrite Hage. repeat f_equal; lra.
  - rewrite Hbmi. repeat f_equal; lra.
  - apply (aggregate_overflow _ _ _ st 1 "bmi"); [done | done | | | done].
    + apply elem_of_cons; right. apply elem_of_cons; by left.
    + apply elem_of_cons; by left.
Qed.

Lemma elem_of_all_warnings st fs ms f m e :
  f ∈ fs → m ∈ ms → compute_final_statistics st f m = Raise (ValueError e) →
  warning e ∈ all_warnings st fs ms.
Proof.
  intros Hf Hm He. unfold all_warnings. apply list_elem_of_bind. exists f. split; [|done].
  unfold warnings_for. apply list_elem_of_bind. exists m. split; [|done].
  unfold warnings_at. rewrite He. by apply list_elem_of_singleton.
Qed.

(** The methods that the server does not recognise change neither the
    initial accumulators nor the accumulation. *)
Lemma init_method_recognized ms (a : FeatureStats) :
  foldl init_method a ms = foldl init_method a (filter (λ agg, recognized agg = true) ms).
Proof.
  revert a. induction ms as [|m ms IH]; intros a; [done|].
  cbn [foldl]. destruct (recognized m) eqn:Hrec.
  - rewrite filter_cons_True by done. cbn [foldl]. apply IH.
  - rewrite filter_cons_False by (by rewrite Hrec). rewrite <- IH. f_equal.
    apply orb_false_elim in Hrec as [Hm Hs]. apply bool_decide_eq_false in Hm, Hs.
    unfold init_method. by rewrite !decide_False.
Qed.

Lemma initialize_recognized fs ms :
  initialize_aggregation_stats fs ms
  = initialize_aggregation_stats fs (filter (λ agg, recognized agg = true) ms).
Proof. unfold initialize_aggregation_stats. by rewrite <- init_method_recognized. Qed.

Lemma accumulate_other st (r : gmap string num) f m :
  m ≠ "mean" → m ≠ "std" → accumulate_statistics st r f m = Ok st.
Proof. intros H1 H2. unfold accumulate_statistics. by rewrite !decide_False. Qed.

Lemma methods_recognized (r : gmap string num) f ms st :
  foldlM (λ stats' agg_method, accumulate_statistics stats' r f agg_method) st ms
  = foldlM (λ stats' agg_method, accumulate_statistics stats' r f agg_method) st
           (filter (λ agg, recognized agg = true) ms).
Proof.
  revert st. induction ms as [|m ms IH]; intros st; [done|].
  cbn [foldlM]. destruct (recognized m) eqn:Hrec.
  - rewrite filter_cons_True by done. cbn [foldlM].
    destruct (accumulate_statistics st r f m); [apply IH | done].
  - rewrite filter_cons_False by (by rewrite Hrec).
    apply orb_false_elim in Hrec as [Hm Hs]. apply bool_decide_eq_false in Hm, Hs.
    rewrite accumulate_other by done. apply IH.
Qed.

Lemma accumulate_reply_recognized fs ms (r : gmap string num) st :
  accumulate_reply fs ms r st
  = accumulate_reply fs (filter (λ agg, recognized agg = true) ms) r st.
Proof.
  unfold accumulate_reply. revert st. induction fs as [|f fs IH]; intros st; [done|].
  cbn [foldlM]. rewrite <- methods_recognized.
  destruct (foldlM _ st ms); [apply IH | done].
Qed.

Lemma reduce_messages_recognized msgs fs ms (sn : gmap string FeatureStats * nat) :
  reduce_messages msgs fs ms sn
  = reduce_messages msgs fs (filter (λ agg, recognized agg = true) ms) sn.
Proof.
  revert sn. induction msgs as [|[reason|content] msgs IH]; intros sn;
    cbn [reduce_messages]; [done | apply IH |].
  destruct (getitem content "query_results") as [r|e]; [|done]. cbn.
  rewrite <- accumulate_reply_recognized.
  destruct (accumulate_reply fs ms r sn.1); [apply IH | done].
Qed.

Lemma reduce_round_recognized msgs fs ms :
  reduce_round msgs fs ms
  = reduce_round msgs fs (filter (λ agg, recognized agg = true) ms).
Proof.
  unfold reduce_round. by rewrite <- initialize_recognized, <- reduce_messages_recognized.
Qed.

End round_facts.

(** ** Rounds: claims on errors *)

Section round_claims.

Implicit Types (st : gmap string FeatureStats) (final : FinalStats) (msgs : list Message).
Implicit Types (f m k : string) (fs ms : list string).

(** C5 fails as stated: a round with a valid, well-formed reply raises the
    [OverflowError] of a standard deviation; it neither produces statistics
    nor fails with the no-valid-messages error. *)
Lemma no_valid_replies_gate_counterexample :
  Forall (well_formed ["age"; "bmi"] ["std"]) overflow_replies
  ∧ Exists (λ msg, has_error msg = false) overflow_replies
  ∧ (aggregate_features overflow_replies ["age"; "bmi"] ["std"]).2 = Raise OverflowError.
Proof.
  split; [|split].
  - apply (bool_decide_unpack _). by vm_compute.
  - apply Exists_cons; left. reflexivity.
  - by destruct overflow_round as (st & _ & _ & _ & _ & ?).
Qed.

(** C5, amended (no-valid-replies gate).  The round fails with the
    no-valid-messages error exactly when every reply is an error reply.
    With well-formed replies, one of them valid, the round produces its
    statistics unless a standard deviation overflows, and then it raises
    [OverflowError]; the statistics have an entry for exactly the requested
    features, and the entry of a requested feature and method is the value of
    its final computation on the totals reduced from the valid replies.  The
    error replies contribute nothing to the reduced totals: the reduction of
    all replies is the reduction of the valid ones. *)
Theorem no_valid_replies_gate msgs fs ms :
  ((aggregate_features msgs fs ms).2 = Raise (ValueError no_valid_messages)
   ↔ Forall (λ msg, has_error msg = true) msgs)
  ∧ (Forall (well_formed fs ms) msgs → Exists (λ msg, has_error msg = false) msgs →
     ((∃ final, (aggregate_features msgs fs ms).2 = Ok final)
      ∨ (aggregate_features msgs fs ms).2 = Raise OverflowError)
     ∧ (no_overflow msgs fs ms →
        ∃ st log final,
          reduce_round msgs fs ms = Ok (st, length (valid_results msgs))
          ∧ aggregate_features msgs fs ms = (log, Ok final)
          ∧ (∀ f, is_Some (final !! f) ↔ f ∈ fs)
          ∧ (∀ f m, final_at final f m
                    = if decide (f ∈ fs ∧ m ∈ ms) then Some (final_value st f m)
                      else None)))
  ∧ reduce_round msgs fs ms
    = reduce_round (filter (λ msg, has_error msg = false) msgs) fs ms.
Proof.
  split; [split|split].
  - unfold aggregate_features.
    destruct (reduce_round msgs fs ms) as [[st n]|e] eqn:Hred.
    + destruct (decide (n = 0)) as [->|Hn].
      * intros _. eapply valid_results_empty.
        -- by eapply reduce_messages_well_formed.
        -- apply reduce_messages_count in Hred. by destruct (valid_results msgs).
      * intros Hagg. exfalso.
        destruct (aggregate_result msgs fs ms st n Hred Hn) as [[_ [final H]]|[H _]];
          unfold aggregate_features in H; rewrite Hred, decide_False in H by done;
          by rewrite H in Hagg.
    + cbn. intros [= ->]. by apply reduce_messages_Raise in Hred as [k ?].
  - intros Herr. unfold aggregate_features, reduce_round.
    by rewrite reduce_messages_errors.
  - intros Hwf Hex.
    assert (Hne : valid_results msgs ≠ []) by by eapply valid_results_exists.
    split.
    + destruct (reduce_round_ok msgs fs ms Hwf) as (st & Hred & _).
      destruct (aggregate_result msgs fs ms st _ Hred) as [[_ ?]|[? _]]; auto.
      by destruct (valid_results msgs).
    + intros Hno.
      destruct (aggregate_features_spec msgs fs ms Hwf Hne Hno)
        as (st & final & Hred & _ & Hagg & Hlook).
      exists st, (all_warnings st fs ms), final.
      split; [done|]. split; [done|]. split; [|done].
      by eapply aggregate_features_dom.
  - apply reduce_messages_skip_errors.
Qed.

Lemma no_valid_replies_gate_witness :
  let reply : gmap string num := {[ "age_mean_sum" := Fin 30; "age_mean_count" := Fin 3 ]} in
  let msgs := [MsgError "node down"; MsgContent {[ "query_results" := reply ]}] in
  ((aggregate_features [MsgError "a"; MsgError "b"] ["age"] ["mean"]).2
   = Raise (ValueError no_valid_messages))
  ∧ (∃ st log final,
       reduce_round msgs ["age"] ["mean"] = Ok (st, length (valid_results msgs))
       ∧ aggregate_features msgs ["age"] ["mean"] = (log, Ok final)
       ∧ (∀ f, is_Some (final !! f) ↔ f ∈ ["age"])
       ∧ (∀ f m, final_at final f m
                 = if decide (f ∈ ["age"] ∧ m ∈ ["mean"]) then Some (final_value st f m)
                   else None)).
Proof.
  intros reply msgs. split.
  - apply (proj1 (no_valid_replies_gate [MsgError "a"; MsgError "b"] ["age"] ["mean"])).
    repeat constructor.
  - apply (proj1 (proj2 (no_valid_replies_gate msgs ["age"] ["mean"]))).
    + apply (bool_decide_unpack _). by vm_compute.
    + apply Exists_cons; right. apply Exists_cons; left. reflexivity.
    + apply no_overflow_without_std. apply (bool_decide_unpack _). by vm_compute.
Defined.




(** C4 fails as stated: on the totals of [bmi] in the round of
    [overflow_replies] the count is above one and the variance of the
    formula is negative, and the final computation raises [OverflowError]
    when it squares the mean. *)
Lemma variance_floor_counterexample :
  ∃ st,
    reduce_round overflow_replies ["age"; "bmi"] ["std"] = Ok (st, 1)
    ∧ std_at st "bmi"
      = Some {| std_sum := Fin (2 * IZR (10 ^ 200)); std_count := Fin 2;
                std_sum_sqd := Fin 0 |}
    ∧ (1 < 2)%R
    ∧ ((0 - 2 * (2 * IZR (10 ^ 200) / 2 * (2 * IZR (10 ^ 200) / 2))) / (2 - 1) < 0)%R
    ∧ compute_final_statistics st "bmi" "std" = Raise OverflowError.
Proof.
  destruct overflow_round as (st & Hred & _ & Hbmi & Hov & _).
  exists st. split; [done|]. split; [done|]. split; [lra|]. split; [|done].
  replace (2 * IZR (10 ^ 200) / 2)%R with (IZR (10 ^ 200)) by lra.
  pose proof huge_square as Hbig. pose proof float_max_large as Hmax.
  replace ((0 - 2 * (IZR (10 ^ 200) * IZR (10 ^ 200))) / (2 - 1))%R
    with (- (2 * (IZR (10 ^ 200) * IZR (10 ^ 200))))%R by (field; lra).
  lra.
Qed.

(** C4, amended (variance floor).  On reduced totals with a count above one
    whose mean has a square within the range of the floats and whose
    variance, as the code computes it, is negative, the final computation of
    the standard deviation returns 0: it raises nothing and the result is not
    NaN; in a round without overflow whose reduction gave these totals the
    entry of the standard deviation is 0. *)
Theorem variance_floor st f x c q :
  std_at st f = Some {| std_sum := Fin x; std_count := Fin c; std_sum_sqd := Fin q |} →
  (1 < c)%R →
  (x / c * (x / c) <= float_max)%R →
  ((q - c * (x / c * (x / c))) / (c - 1) < 0)%R →
  raw_variance (Fin x) (Fin c) (Fin q) = Ok (Fin ((q - c * (x / c * (x / c))) / (c - 1)))
  ∧ compute_final_statistics st f "std" = Ok (Fin 0)
  ∧ ∀ msgs fs ms n,
      reduce_round msgs fs ms = Ok (st, n) → n ≠ 0 → f ∈ fs → "std" ∈ ms →
      no_overflow msgs fs ms →
      ∃ log final, aggregate_features msgs fs ms = (log, Ok final)
                   ∧ final_at final f "std" = Some (Some (Fin 0)).
Proof.
  intros Hs Hc Hfit Hneg.
  assert (compute_final_statistics st f "std" = Ok (Fin 0)) as Hcomp.
  { rewrite (final_std_Fin _ _ _ _ _ Hs Hc Hfit). unfold lt0.
    destruct (Rlt_dec _ 0); [|done]. by rewrite sqrt_zero. }
  split; [by apply raw_variance_Fin|]. split; [done|].
  intros msgs fs ms n Hred Hn Hf Hm Hno.
  destruct (aggregate_after_reduce msgs fs ms st n Hred Hn Hno) as (_ & final & Hagg & Hlook).
  exists (all_warnings st fs ms), final. split; [done|].
  rewrite Hlook, decide_True by done. unfold final_value. by rewrite Hcomp.
Qed.

Lemma variance_floor_witness :
  let reply : gmap string num :=
    {[ "age_std_sum" := Fin 10; "age_std_count" := Fin 2; "age_std_sum_sqd" := Fin 0 ]} in
  let msgs := [MsgContent {[ "query_results" := reply ]}] in
  ∃ log final, aggregate_features msgs ["age"] ["std"] = (log, Ok final)
               ∧ final_at final "age" "std" = Some (Some (Fin 0)).
Proof.
  intros reply msgs.
  assert (∃ st, reduce_round msgs ["age"] ["std"] = Ok (st, 1)
                ∧ std_at st "age" = Some {| std_sum := Fin (0 + 10); std_count := Fin (0 + 2);
                                            std_sum_sqd := Fin (0 + 0) |})
    as (st & Hred & Hst).
  { eexists. split; reflexivity. }
  assert (Hfit : ((0 + 10) / (0 + 2) * ((0 + 10) / (0 + 2)) <= float_max)%R).
  { pose proof float_max_large. assert ((0 + 10) / (0 + 2) = 5)%R as -> by lra. lra. }
  refine (proj2 (proj2 (variance_floor st "age" (0 + 10) (0 + 2) (0 + 0) Hst _ Hfit _))
            msgs ["age"] ["std"] 1 Hred _ _ _ _).
  - lra.
  - assert ((0 + 10) / (0 + 2) = 5)%R as -> by lra. lra.
  - done.
  - apply elem_of_cons; by left.
  - apply elem_of_cons; by left.
  - apply (no_overflow_intro _ _ _ _ _ Hred). intros f [->|[]%elem_of_nil]%elem_of_cons _.
    apply (std_Fin_no_overflow _ _ _ _ _ Hst); [lra | done].
Defined.

(** C7 (unknown-method tolerance).  A method outside mean and std in the
    request changes nothing on the node but a printed line for each feature:
    the reply, or the failure, of [query] is the one of the request without
    the unrecognised methods.  On the server it changes nothing in the
    reduction; in a round with well-formed replies, one of them valid, the
    round produces its statistics, the entry of the unrecognised method is
    null with a logged warning, and the mean is the value of its final
    computation on the reduced totals. *)
Theorem unknown_method_tolerated (df : DataFrame) msgs fs ms m :
  m ∈ ms → recognized m = false →
  (query df fs ms).2 = (query df fs (filter (λ agg, recognized agg = true) ms)).2
  ∧ (∀ r f, (query df fs ms).2 = Ok r → f ∈ fs →
       not_recognized m ∈ (query df fs ms).1)
  ∧ reduce_round msgs fs ms
    = reduce_round msgs fs (filter (λ agg, recognized agg = true) ms)
  ∧ (Forall (well_formed fs ms) msgs → Exists (λ msg, has_error msg = false) msgs →
     no_overflow msgs fs ms →
     ∃ st log final,
       reduce_round msgs fs ms = Ok (st, length (valid_results msgs))
       ∧ aggregate_features msgs fs ms = (log, Ok final)
       ∧ ∀ f, f ∈ fs →
           final_at final f m = Some None
           ∧ warning (unsupported_method m) ∈ log
           ∧ ("mean" ∈ ms → final_at final f "mean" = Some (final_value st f "mean"))).
Proof.
  intros Hm Hrec.
  assert (m ≠ "mean" ∧ m ≠ "std") as [Hne1 Hne2].
  { unfold recognized in Hrec. apply orb_false_elim in Hrec as [H1 H2].
    by apply bool_decide_eq_false in H1, H2. }
  split; [|split; [|split]].
  - unfold query. by apply query_loop_recognized.
  - intros r f Hr Hf. unfold query in *. by eapply query_loop_prints.
  - apply reduce_round_recognized.
  - intros Hwf Hex Hno.
    destruct (aggregate_features_spec msgs fs ms Hwf)
      as (st & final & Hred & Hi & Hagg & Hlook); [by eapply valid_results_exists | done |].
    exists st, (all_warnings st fs ms), final.
    split; [done|]. split; [done|]. intros f Hf. split; [|split].
    + rewrite Hlook, decide_True by done. unfold final_value.
      by rewrite compute_final_other.
    + eapply elem_of_all_warnings; [done..|]. by apply compute_final_other.
    + intros Hmean. by rewrite Hlook, decide_True.
Qed.

Lemma unknown_method_tolerated_witness :
  let df : DataFrame := {[ "age" := FloatSeries [Fin 10; Fin 20] ]} in
  let msgs := replies [df] ["age"] ["mean"; "median"] in
  (∃ r, (query df ["age"] ["mean"; "median"]).2 = Ok r
        ∧ (query df ["age"] ["mean"]).2 = Ok r)
  ∧ not_recognized "median" ∈ (query df ["age"] ["mean"; "median"]).1
  ∧ ∃ log final,
      aggregate_features msgs ["age"] ["mean"; "median"] = (log, Ok final)
      ∧ final_at final "age" "median" = Some None
      ∧ warning (unsupported_method "median") ∈ log
      ∧ final_at final "age" "mean" = Some (Some (Fin 15)).
Proof.
  intros df msgs.
  assert (Hin : "median" ∈ ["mean"; "median"]).
  { apply elem_of_cons; right. apply elem_of_cons; by left. }
  destruct (unknown_method_tolerated df msgs ["age"] ["mean"; "median"] "median" Hin eq_refl)
    as (Hq & Hprint & _ & Hround).
  split; [|split].
  - eexists. split; [reflexivity|]. change ["mean"] with
      (filter (λ agg, recognized agg = true) ["mean"; "median"]).
    rewrite <- Hq. reflexivity.
  - eapply Hprint; [reflexivity|]. apply elem_of_cons; by left.
  - destruct Hround as (st & log & final & Hred & Hagg & Hentries).
    { apply (bool_decide_unpack _). by vm_compute. }
    { apply Exists_cons; left. reflexivity. }
    { apply no_overflow_without_std. apply (bool_decide_unpack _). by vm_compute. }
    vm_compute in Hred. injection Hred as <-.
    destruct (Hentries "age") as (Hnull & Hlog & Hmean); [apply elem_of_cons; by left|].
    exists log, final. split; [done|]. split; [done|]. split; [done|].
    rewrite Hmean by (apply elem_of_cons; by left). unfold final_value.
    rewrite (final_mean_Fin _ "age" (0 + (0 + 10 + 20)) (0 + INR 2)).
    + do 3 f_equal. simpl. lra.
    + reflexivity.
    + simpl. lra.
Defined.

End round_claims.

(** ** The statistics of the union of the nodes *)

Section statistics_facts.

Implicit Types (xs : list R) (values : list num).

(** The squared deviations from any centre [a]. *)
Lemma rsum_deviations xs (a : R) :
  rsum ((λ x, (x - a) * (x - a))%R <$> xs)
  = (rsum ((λ x, x * x)%R <$> xs) - 2 * a * rsum xs + INR (length xs) * (a * a))%R.
Proof.
  induction xs as [|x xs IH]; [simpl; lra|].
  rewrite !fmap_cons. cbn [rsum length]. rewrite IH, S_INR. lra.
Qed.

Lemma rsum_deviations_nonneg xs (a : R) :
  (0 <= rsum ((λ x, (x - a) * (x - a))%R <$> xs))%R.
Proof.
  induction xs as [|x xs IH]; [simpl; lra|].
  rewrite fmap_cons. cbn [rsum]. pose proof (Rle_0_sqr (x - a)) as Hsq.
  unfold Rsqr in Hsq. lra.
Qed.

(** The variance computed from the totals is the one computed from the
    deviations, and it is not negative. *)
Lemma variance_of_totals xs :
  1 < length xs →
  let c := INR (length xs) in
  let s := rsum xs in
  let q := rsum ((λ x, x * x)%R <$> xs) in
  ((q - c * (s / c * (s / c))) / (c - 1)
   = rsum ((λ x, (x - s / c) * (x - s / c))%R <$> xs) / (c - 1))%R
  ∧ (0 <= (q - c * (s / c * (s / c))) / (c - 1))%R.
Proof.
  intros Hlen c s q.
  assert (1 < c)%R as Hc.
  { unfold c. change 1%R with (INR 1). by apply lt_INR. }
  assert ((q - c * (s / c * (s / c)))
          = rsum ((λ x, (x - s / c) * (x - s / c))%R <$> xs))%R as Heq.
  { rewrite rsum_deviations. fold c s q. field. lra. }
  split; [by rewrite Heq|].
  rewrite Heq. apply Rmult_le_pos.
  - apply rsum_deviations_nonneg.
  - apply Rlt_le, Rinv_0_lt_compat. lra.
Qed.

Lemma sqrt_Fin (x : R) : (0 <= x)%R → sqrt (Fin x) = Fin (R_sqrt.sqrt x).
Proof. intros Hx. unfold sqrt. destruct (Rlt_dec x 0); [lra | done]. Qed.

Lemma deviations_Fin xs (a : R) :
  (λ x, pow2 (sub x (Fin a))) <$> (Fin <$> xs) = Fin <$> ((λ x, (x - a) * (x - a))%R <$> xs).
Proof. induction xs as [|x xs IH]; [done|]. rewrite !fmap_cons, IH. done. Qed.

(** The direct computation on a list of numbers. *)
Lemma sample_std_Fin xs :
  1 < length xs →
  sample_std (Fin <$> xs)
  = Ok (Fin (R_sqrt.sqrt
          (rsum ((λ x, (x - rsum xs / INR (length xs)) * (x - rsum xs / INR (length xs)))%R
                 <$> xs) / (INR (length xs) - 1)))).
Proof.
  intros Hlen. destruct (variance_of_totals xs Hlen) as [Heq Hpos]. cbn zeta in Heq, Hpos.
  assert (1 < INR (length xs))%R as Hc.
  { change 1%R with (INR 1). by apply lt_INR. }
  unfold sample_std. rewrite length_fmap, sum_Fin. unfold of_nat, one. cbn.
  destruct (Req_dec_T (INR (length xs)) 0); [lra|]. cbn.
  rewrite deviations_Fin, sum_Fin. cbn.
  destruct (Req_dec_T (INR (length xs) - 1) 0); [lra|]. cbn.
  rewrite sqrt_Fin; [done|]. by rewrite <- Heq.
Qed.

End statistics_facts.

(** ** Mean, additivity and standard deviation *)

Section statistics_claims.

Implicit Types (st : gmap string FeatureStats) (final : FinalStats) (msgs : list Message).
Implicit Types (f m k : string) (fs ms : list string) (dfs : list DataFrame).

(** C2 (mean correctness).  In a round with well-formed replies whose total
    count for a feature is positive, and in which no standard deviation
    requested beside the mean overflows, the round produces its statistics
    and the mean of the feature is the total of the sums of the valid replies
    divided by the total of their counts; when the replies are those of the
    nodes, this is the sum of all the values of the nodes that answered
    divided by their number.  In the scenario (node A with sum 30 and count
    3, node B in error, node C with sum 50 and count 5) the mean is 10 and
    two replies are counted as valid. *)
Theorem mean_correct :
  (∀ msgs fs ms f c,
     Forall (well_formed fs ms) msgs → f ∈ fs → "mean" ∈ ms →
     total (f +:+ "_mean_count") (valid_results msgs) = Fin c → (0 < c)%R →
     no_overflow msgs fs ms →
     ∃ log final v,
       aggregate_features msgs fs ms = (log, Ok final)
       ∧ final_at final f "mean" = Some (Some v)
       ∧ truediv (total (f +:+ "_mean_sum") (valid_results msgs)) (Fin c) = Ok v
       ∧ ∀ dfs, msgs = replies dfs fs ms →
           truediv (sum (concat (columns f fs dfs)))
                   (of_nat (length (concat (columns f fs dfs)))) = Ok v)
  ∧ (∃ st log final,
       reduce_round scenario_replies ["age"] ["mean"] = Ok (st, 2)
       ∧ aggregate_features scenario_replies ["age"] ["mean"] = (log, Ok final)
       ∧ final_at final "age" "mean" = Some (Some (Fin 10))).
Proof.
  assert (Hgen : ∀ msgs fs ms f c,
     Forall (well_formed fs ms) msgs → f ∈ fs → "mean" ∈ ms →
     total (f +:+ "_mean_count") (valid_results msgs) = Fin c → (0 < c)%R →
     no_overflow msgs fs ms →
     ∃ st log final v,
       reduce_round msgs fs ms = Ok (st, length (valid_results msgs))
       ∧ aggregate_features msgs fs ms = (log, Ok final)
       ∧ final_at final f "mean" = Some (Some v)
       ∧ truediv (total (f +:+ "_mean_sum") (valid_results msgs)) (Fin c) = Ok v).
  { intros msgs fs ms f c Hwf Hf Hm Hcount Hc Hno.
    destruct (aggregate_features_spec msgs fs ms Hwf)
      as (st & final & Hred & Hi & Hagg & Hlook); [|done|].
    { intros Hnil. rewrite Hnil, total_nil in Hcount. injection Hcount as <-. lra. }
    pose proof (reduce_round_mean_at _ _ _ _ _ f Hred Hf Hm) as Hst.
    set (K := occurrences f fs * occurrences "mean" ms) in Hst.
    assert (0 < INR K)%R as HK.
    { apply lt_0_INR. unfold K.
      pose proof (occurrences_pos _ _ Hf). pose proof (occurrences_pos _ _ Hm). nia. }
    rewrite Hcount, scale_Fin in Hst.
    assert (∃ v, compute_final_statistics st f "mean" = Ok v
                 ∧ truediv (total (f +:+ "_mean_sum") (valid_results msgs)) (Fin c) = Ok v)
      as (v & Hcomp & Hv).
    { destruct (total (f +:+ "_mean_sum") (valid_results msgs)) as [x|].
      - rewrite scale_Fin in Hst. exists (Fin (x / c)). split.
        + rewrite (final_mean_Fin _ _ _ _ Hst) by nra. do 2 f_equal. field. lra.
        + cbn. destruct (Req_dec_T c 0); [lra | done].
      - rewrite scale_nan in Hst by (by apply INR_lt).
        exists NaN. split; [|done]. rewrite (compute_final_mean _ _ _ Hst). cbn.
        destruct (Req_dec_T (INR K * c) 0); [nra | done]. }
    exists st, (all_warnings st fs ms), final, v.
    split; [done|]. split; [done|]. split; [|done].
    rewrite Hlook, decide_True by done. unfold final_value. by rewrite Hcomp. }
  split.
  - intros msgs fs ms f c Hwf Hf Hm Hcount Hc Hno.
    destruct (Hgen msgs fs ms f c Hwf Hf Hm Hcount Hc Hno)
      as (st & log & final & v & _ & Hagg & Hfinal & Hv).
    exists log, final, v. split; [done|]. split; [done|]. split; [done|].
    intros dfs ->.
    rewrite total_count_mean in Hcount by done. rewrite total_sum_mean in Hv by done.
    by rewrite Hcount.
  - destruct (Hgen scenario_replies ["age"] ["mean"] "age" 8%R)
      as (st & log & final & v & Hred & Hagg & Hfinal & Hv).
    + apply (bool_decide_unpack _). by vm_compute.
    + apply elem_of_cons; by left.
    + apply elem_of_cons; by left.
    + vm_compute. f_equal. lra.
    + lra.
    + apply no_overflow_without_std. apply (bool_decide_unpack _). by vm_compute.
    + exists st, log, final. split; [done|]. split; [done|].
      rewrite Hfinal. vm_compute in Hv.
      destruct (Req_dec_T _ _) as [Heq|_] in Hv; [lra|]. injection Hv as <-.
      do 3 f_equal. lra.
Qed.

Lemma mean_correct_witness :
  ∃ log final v,
    aggregate_features scenario_replies ["age"] ["mean"] = (log, Ok final)
    ∧ final_at final "age" "mean" = Some (Some v)
    ∧ truediv (total ("age" +:+ "_mean_sum") (valid_results scenario_replies)) (Fin 8%R) = Ok v.
Proof.
  destruct (proj1 mean_correct scenario_replies ["age"] ["mean"] "age" 8%R)
    as (log & final & v & Hagg & Hfinal & Hv & _).
  - apply (bool_decide_unpack _). by vm_compute.
  - apply elem_of_cons; by left.
  - apply elem_of_cons; by left.
  - vm_compute. f_equal. lra.
  - lra.
  - apply no_overflow_without_std. apply (bool_decide_unpack _). by vm_compute.
  - by exists log, final, v.
Defined.

(** C1 (additivity) fails on the code: a feature requested twice is
    accumulated twice by the reduction, so the reduced totals of one node
    with the rows 1 and 2 are the sum 6 and the count 4, not the sum 3 and
    the count 2 of the data set. *)
Lemma additivity_counterexample :
  let df : DataFrame := {[ "age" := IntSeries [1; 2]%Z ]} in
  ∃ st, reduce_round (replies [df] ["age"; "age"] ["mean"]) ["age"; "age"] ["mean"]
        = Ok (st, 1)
        ∧ mean_at st "age" = Some {| mean_sum := Fin 6; mean_count := Fin 4 |}
        ∧ sum (concat (columns "age" ["age"; "age"] [df])) = Fin 3
        ∧ of_nat (length (concat (columns "age" ["age"; "age"] [df]))) = Fin 2
        ∧ Fin 6 ≠ Fin 3 ∧ Fin 4 ≠ Fin 2.
Proof.
  intros df. eexists. split; [vm_compute; reflexivity|].
  split; [vm_compute; do 2 f_equal; f_equal; lra|].
  split; [vm_compute; f_equal; lra|].
  split; [vm_compute; f_equal; lra|].
  split; intros [= H]; lra.
Qed.

(** C3 (std correctness) fails on the code: with the feature requested
    twice, one node with the rows 1 and 2 gets the standard deviation
    sqrt(1/3) from the doubled totals 6, 4 and 10, while the sample standard
    deviation of the rows is sqrt(1/2). *)
Lemma std_counterexample :
  let df : DataFrame := {[ "age" := IntSeries [1; 2]%Z ]} in
  ∃ st log final,
    reduce_round (replies [df] ["age"; "age"] ["std"]) ["age"; "age"] ["std"] = Ok (st, 1)
    ∧ std_at st "age"
      = Some {| std_sum := Fin 6; std_count := Fin 4; std_sum_sqd := Fin 10 |}
    ∧ aggregate_features (replies [df] ["age"; "age"] ["std"]) ["age"; "age"] ["std"]
      = (log, Ok final)
    ∧ final_at final "age" "std" = Some (Some (Fin (R_sqrt.sqrt (1 / 3))))
    ∧ sample_std (column "age" df) = Ok (Fin (R_sqrt.sqrt (1 / 2)))
    ∧ R_sqrt.sqrt (1 / 3) ≠ R_sqrt.sqrt (1 / 2).
Proof.
  intros df.
  destruct (reduce_round_ok (replies [df] ["age"; "age"] ["std"]) ["age"; "age"] ["std"])
    as (st & Hred & _); [apply replies_well_formed|].
  assert (std_at st "age"
          = Some {| std_sum := Fin 6; std_count := Fin 4; std_sum_sqd := Fin 10 |}) as Hst.
  { vm_compute in Hred. injection Hred as <-.
    vm_compute. do 2 f_equal; f_equal; lra. }
  assert (6 / 4 * (6 / 4) <= float_max)%R as Hfit.
  { pose proof float_max_large. lra. }
  destruct (aggregate_features_spec (replies [df] ["age"; "age"] ["std"])
              ["age"; "age"] ["std"]) as (st' & final & Hred' & _ & Hagg & Hlook).
  { apply replies_well_formed. }
  { by vm_compute. }
  { apply (no_overflow_intro _ _ _ _ _ Hred).
    intros f [->|[->|[]%elem_of_nil]%elem_of_cons]%elem_of_cons _;
      by apply (std_Fin_no_overflow _ _ _ _ _ Hst); [lra|]. }
  rewrite Hred in Hred'. injection Hred' as <-.
  exists st, (all_warnings st ["age"; "age"] ["std"]), final.
  split; [by rewrite Hred|]. split; [done|]. split; [done|]. split; [|split].
  - rewrite Hlook, decide_True.
    + unfold final_value. rewrite (final_std_Fin _ _ _ _ _ Hst) by (done || lra).
      unfold lt0. destruct (Rlt_dec _ 0); [lra|].
      rewrite sqrt_Fin by lra. do 4 f_equal. lra.
    + split; apply elem_of_cons; by left.
  - change (column "age" df) with (Fin <$> [IZR 1; IZR 2]).
    rewrite (sample_std_Fin [IZR 1; IZR 2]) by (cbn; lia). do 3 f_equal. simpl. lra.
  - intros Heq. apply sqrt_inj in Heq; lra.
Qed.

End statistics_claims.

(** ** The request of a round: parsing and dispatch *)

Section request_facts.

Implicit Types (s w : string) (l ws : list string) (sep : ascii).

Lemma split_nonempty sep s : split sep s ≠ [].
Proof.
  destruct s as [|c s]; cbn [split]; [done|].
  destruct (decide (c = sep)); [done|]. by destruct (split sep s).
Qed.

Lemma split_cons sep c s :
  split sep (String c s)
  = if decide (c = sep) then EmptyString :: split sep s
    else match split sep s with
         | [] => [String c EmptyString]
         | w :: ws => String c w :: ws
         end.
Proof. done. Qed.

Lemma append_nil_l s : EmptyString +:+ s = s.
Proof. done. Qed.

Lemma append_cons c w s : String c w +:+ s = String c (w +:+ s).
Proof. done. Qed.

Lemma join_cons (sp : string) w w' l :
  join sp (w :: w' :: l) = w +:+ sp +:+ join sp (w' :: l).
Proof. done. Qed.

(** A string without the separator is one piece. *)
Lemma split_no_sep sep w :
  sep ∉ Stdlib.Strings.String.list_ascii_of_string w → split sep w = [w].
Proof.
  induction w as [|c w IH]; [done|]. cbn [Stdlib.Strings.String.list_ascii_of_string].
  intros [Hc Hw]%not_elem_of_cons. rewrite split_cons, decide_False by done.
  by rewrite IH.
Qed.

Lemma split_app_no_sep sep w s :
  sep ∉ Stdlib.Strings.String.list_ascii_of_string w →
  split sep (w +:+ String sep s) = w :: split sep s.
Proof.
  induction w as [|c w IH]; cbn [Stdlib.Strings.String.list_ascii_of_string].
  - intros _. by rewrite append_nil_l, split_cons, decide_True.
  - intros [Hc Hw]%not_elem_of_cons.
    rewrite append_cons, split_cons, decide_False by done. by rewrite IH.
Qed.

(** X10 (request parsing).  Splitting a configuration value at the commas
    loses nothing: joining the pieces with commas gives the value back; the
    list of pieces is never empty; and a list of names without commas, one
    name at least, is read back from its comma-separated form exactly as it
    is, blanks and duplicates included. *)
Theorem parse_list_round_trip :
  (∀ value, join "," (parse_list value) = value)
  ∧ (∀ value, parse_list value ≠ [])
  ∧ (∀ names,
       names ≠ [] →
       Forall (λ w, ","%char ∉ Stdlib.Strings.String.list_ascii_of_string w) names →
       parse_list (join "," names) = names).
Proof.
  unfold parse_list. split; [|split].
  - intros value. induction value as [|c s IH]; [done|].
    rewrite split_cons. destruct (decide (c = ","%char)) as [->|Hc].
    + pose proof (split_nonempty ","%char s) as Hne.
      destruct (split ","%char s) as [|w ws] eqn:Hs; [done|].
      rewrite join_cons, IH. done.
    + pose proof (split_nonempty ","%char s) as Hne.
      destruct (split ","%char s) as [|w ws] eqn:Hs; [done|].
      destruct ws as [|w' ws].
      * cbn [join] in IH |- *. by rewrite IH.
      * rewrite join_cons in IH |- *. by rewrite append_cons, IH.
  - intros value. apply split_nonempty.
  - intros names Hne Hall. induction Hall as [|w names Hw Hall IH]; [done|].
    destruct names as [|w' names].
    + cbn [join]. by apply split_no_sep.
    + rewrite join_cons. change ("," +:+ join "," (w' :: names))
        with (String ","%char (join "," (w' :: names))).
      rewrite split_app_no_sep by done. by rewrite IH.
Qed.

Lemma parse_list_round_trip_witness :
  parse_list (join "," ["age"; " bmi"; "age"]) = ["age"; " bmi"; "age"].
Proof.
  apply (proj2 (proj2 parse_list_round_trip)); [done|].
  apply (bool_decide_unpack _). by vm_compute.
Defined.

End request_facts.

Section dispatch_facts.

Implicit Types (df : DataFrame) (fs ms : list string) (node_ids : list Z).

(** X11 (dispatch and handler).  The coordinator builds one query message for
    each sampled node, in order, and every message carries the two lists of
    the request; the handler of a node, run on any of these messages, reads
    the lists back and returns the metrics of [query] for them under the key
    ["query_results"], or the exception of [query], with the same printed
    lines.  What the runtime delivers is the reply [node_reply], which is
    well formed for the lists the coordinator aggregates with. *)
Theorem dispatch_reaches_query fs ms node_ids :
  rq_dst_node_id <$> make_messages fs ms node_ids = node_ids
  ∧ ∀ msg df, msg ∈ make_messages fs ms node_ids →
      rq_message_type msg = QUERY
      ∧ query_message msg df
        = ((query df fs ms).1, metrics ← (query df fs ms).2; Ok {[ "query_results" := metrics ]})
      ∧ deliver (query_message msg df) = node_reply df fs ms
      ∧ well_formed fs ms (deliver (query_message msg df)).
Proof.
  split.
  - unfold make_messages. rewrite <- list_fmap_compose.
    induction node_ids as [|i node_ids IH]; [done|]. rewrite fmap_cons. by f_equal.
  - intros msg df (i & -> & _)%list_elem_of_fmap.
    assert (query_message
              {| rq_content := {[ "config" := make_config fs ms ]}; rq_message_type := QUERY;
                 rq_dst_node_id := i; rq_group_id := "1" |} df
            = ((query df fs ms).1,
               metrics ← (query df fs ms).2; Ok {[ "query_results" := metrics ]})) as Hq.
    { unfold query_message, getitem. cbn [rq_content].
      rewrite lookup_singleton_eq. unfold make_config.
      rewrite lookup_insert_eq.
      rewrite lookup_insert_ne by done. rewrite lookup_singleton_eq.
      by destruct (query df fs ms). }
    assert (deliver (query_message
              {| rq_content := {[ "config" := make_config fs ms ]}; rq_message_type := QUERY;
                 rq_dst_node_id := i; rq_group_id := "1" |} df) = node_reply df fs ms) as Hd.
    { rewrite Hq. unfold deliver, node_reply. cbn [snd].
      by destruct (query df fs ms).2 as [metrics|[k|e| |]]. }
    split; [done|]. split; [done|]. split; [done|].
    rewrite Hd. apply node_reply_well_formed.
Qed.

Lemma dispatch_reaches_query_witness :
  let df : DataFrame := {[ "age" := FloatSeries [Fin 1; Fin 2] ]} in
  let msg := {| rq_content := {[ "config" := make_config ["age"] ["mean"] ]};
                rq_message_type := QUERY; rq_dst_node_id := 7; rq_group_id := "1" |} in
  deliver (query_message msg df) = node_reply df ["age"] ["mean"]
  ∧ well_formed ["age"] ["mean"] (deliver (query_message msg df)).
Proof.
  intros df msg.
  destruct (proj2 (dispatch_reaches_query ["age"] ["mean"] [3; 7]%Z) msg df)
    as (_ & _ & Hd & Hwf).
  - apply elem_of_cons; right. apply elem_of_cons; by left.
  - by split.
Defined.

End dispatch_facts.

Section more_node_facts.

Implicit Types (df : DataFrame) (r : MetricRecord).
Implicit Types (f m k : string) (fs ms : list string) (col : Series).

Lemma present_prefix_all df fs :
  (∀ f, f ∈ fs → is_Some (df !! f)) → present_prefix df fs = fs.
Proof.
  induction fs as [|f fs IH]; intros Hall; [done|]. cbn [present_prefix].
  destruct (Hall f) as [col ->]; [by apply elem_of_cons; left|].
  rewrite IH; [done|]. intros g Hg. apply Hall. by apply elem_of_cons; right.
Qed.

Lemma query_fold_out f col ms (st : MetricRecord * list string) :
  (foldl (query_agg f col) st ms).2
  = st.2 ++ (not_recognized <$> filter (λ agg, recognized agg = false) ms).
Proof.
  revert st. induction ms as [|m ms IH]; intros [metrics out]; cbn [foldl].
  - cbn [snd]. by rewrite filter_nil, fmap_nil, app_nil_r.
  - rewrite IH. destruct (recognized m) eqn:Hrec.
    + rewrite filter_cons_False by (by rewrite Hrec). f_equal.
      unfold recognized in Hrec. apply orb_true_iff in Hrec.
      unfold query_agg. repeat case_decide; try done.
      destruct Hrec as [?%bool_decide_eq_true|?%bool_decide_eq_true]; done.
    + rewrite filter_cons_True by done. rewrite fmap_cons.
      apply orb_false_elim in Hrec as [Hm Hs]. apply bool_decide_eq_false in Hm, Hs.
      rewrite query_agg_other by done. cbn [snd]. by rewrite <- app_assoc.
Qed.

(** X9 (what the node prints).  [query] prints, for each requested feature
    in order up to the first one that the data set lacks, one line for each
    method of the request that is not recognised, in order, and nothing
    else; with every feature present these are the lines of all the
    features, and a request of recognised methods prints nothing. *)
Theorem query_printed_lines df fs ms :
  (query df fs ms).1
  = (_ ← present_prefix df fs;
     not_recognized <$> filter (λ agg, recognized agg = false) ms)
  ∧ (is_Some (match (query df fs ms).2 with Ok r => Some r | Raise _ => None end)
     ↔ present_prefix df fs = fs).
Proof.
  unfold query.
  assert (∀ st : MetricRecord * list string,
    (query_loop df fs ms st).1
    = st.2 ++ (_ ← present_prefix df fs;
               not_recognized <$> filter (λ agg, recognized agg = false) ms)) as Hout.
  { induction fs as [|f fs IH]; intros st; cbn [query_loop present_prefix].
    - cbn. by rewrite app_nil_r.
    - destruct (df !! f) as [col|]; [|cbn; by rewrite app_nil_r].
      rewrite IH, query_fold_out. cbn [mbind list_bind]. by rewrite <- app_assoc. }
  split; [by rewrite Hout|]. clear Hout.
  generalize (∅ : MetricRecord, @nil string). induction fs as [|f fs IH]; intros st;
    cbn [query_loop present_prefix].
  - cbn. split; [done | by eexists].
  - destruct (df !! f) as [col|]; [|cbn; split; [by intros [? ?] | done]].
    rewrite IH. split; [by intros -> | by intros [= ->]].
Qed.

(** X8 (the reply depends on the request as a set).  Two requests with the
    same features and the same recognised methods, in any order and with any
    repetition, get the same metrics from a node: when [query] answers the
    first it answers the second with the same record. *)
Theorem query_depends_on_sets df fs fs' ms ms' r :
  (∀ f, f ∈ fs ↔ f ∈ fs') →
  (∀ m, recognized m = true → m ∈ ms ↔ m ∈ ms') →
  (query df fs ms).2 = Ok r → (query df fs' ms').2 = Ok r.
Proof.
  intros Hfs Hms Hr.
  assert (Hsub : ∀ fs1 fs2 ms1 ms2 (r1 r2 : MetricRecord) k v,
    (∀ f, f ∈ fs1 → f ∈ fs2) → (∀ m, recognized m = true → m ∈ ms1 → m ∈ ms2) →
    (query df fs1 ms1).2 = Ok r1 → (query df fs2 ms2).2 = Ok r2 →
    r1 !! k = Some v → r2 !! k = Some v).
  { intros fs1 fs2 ms1 ms2 r1 r2 k v H1 H2 Hr1 Hr2 Hk.
    unfold query in Hr1. destruct (query_loop_lookup _ _ _ _ _ _ _ Hr1 Hk)
      as [(f & col & m & Hf & Hm & Hdf & He)|Hemp];
      [|by cbn [fst] in Hemp; rewrite lookup_empty in Hemp].
    assert (recognized m = true) as Hrec.
    { unfold recognized, entries in *. repeat case_decide; subst; try done.
      by apply elem_of_nil in He. }
    destruct (query df fs2 ms2) as [out2 res2] eqn:Hq2. cbn [snd] in Hr2. subst res2.
    eapply query_lookup; [exact Hq2 | by apply H1 | by apply H2 | done..]. }
  assert (∃ r', (query df fs' ms').2 = Ok r') as [r' Hr'].
  { unfold query. apply query_loop_ok. intros f Hf%Hfs.
    destruct (df !! f) as [col|] eqn:Hdf; [by eexists|].
    destruct (query_loop_absent df fs ms (∅, []) f Hf Hdf) as [e He].
    unfold query in Hr. congruence. }
  rewrite Hr'. f_equal. apply map_eq. intros k.
  destruct (r !! k) as [v|] eqn:Hk.
  - eapply Hsub; [| |exact Hr|exact Hr'|exact Hk].
    + intros f. apply Hfs.
    + intros m Hrec. by apply Hms.
  - destruct (r' !! k) as [v|] eqn:Hk'; [|done].
    assert (r !! k = Some v); [|congruence].
    eapply Hsub; [| |exact Hr'|exact Hr|exact Hk'].
    + intros f. apply Hfs.
    + intros m Hrec. by apply Hms.
Qed.

Lemma query_depends_on_sets_witness :
  let df : DataFrame :=
    {[ "age" := FloatSeries [Fin 1; Fin 2]; "bmi" := FloatSeries [Fin 3; Fin 4] ]} in
  ∃ r, (query df ["age"; "bmi"] ["mean"; "std"]).2 = Ok r
       ∧ (query df ["bmi"; "age"; "bmi"] ["std"; "median"; "mean"]).2 = Ok r.
Proof.
  intros df. eexists. split; [reflexivity|].
  apply (query_depends_on_sets df ["age"; "bmi"] ["bmi"; "age"; "bmi"]
           ["mean"; "std"] ["std"; "median"; "mean"]).
  - intros f. rewrite !elem_of_cons, !elem_of_nil. tauto.
  - intros m Hrec. rewrite !elem_of_cons, !elem_of_nil.
    split; [tauto|]. intros [?|[->|[?|[]]]]; [auto | done | auto].
  - reflexivity.
Defined.

End more_node_facts.

(** ** More on the reduction *)

Section more_reduce_facts.

Implicit Types (st : gmap string FeatureStats) (r : gmap string num) (msgs : list Message).
Implicit Types (f g m k : string) (fs ms : list string).

(** X1 (fresh accumulators).  The initial table has an entry for exactly
    the requested features; each entry has a mean accumulator, all zero,
    exactly when mean is requested and a std accumulator, all zero, exactly
    when std is requested; other methods get no accumulator. *)
Theorem initialize_entries fs ms f :
  initialize_aggregation_stats fs ms !! f
  = if decide (f ∈ fs)
    then Some {| at_mean := if decide ("mean" ∈ ms)
                            then Some {| mean_sum := zero; mean_count := zero |}
                            else None;
                 at_std := if decide ("std" ∈ ms)
                           then Some {| std_sum := zero; std_count := zero;
                                        std_sum_sqd := zero |}
                           else None |}
    else None.
Proof.
  rewrite init_lookup. case_decide; [|done]. f_equal.
  rewrite <- init_method_mean with (a0 := no_stats).
  rewrite <- init_method_std with (a0 := no_stats).
  by destruct (foldl init_method no_stats ms).
Qed.

(** The accumulation keeps the set of features of the table. *)
Lemma accumulate_dom st r f m st' g :
  accumulate_statistics st r f m = Ok st' → is_Some (st' !! g) ↔ is_Some (st !! g).
Proof.
  unfold accumulate_statistics.
  destruct (decide (m = "mean")) as [->|Hm]; [|destruct (decide (m = "std")) as [->|Hs]].
  - intros (a & Ha%getitem_Ok & (ms0 & _
      & (s & _ & (c & _ & [= <-])%bind_Ok)%bind_Ok)%bind_Ok)%bind_Ok.
    rewrite lookup_insert. destruct (decide (f = g)) as [->|Hne]; [|done].
    rewrite Ha. split; by eexists.
  - intros (a & Ha%getitem_Ok & (ms0 & _
      & (s & _ & (c & _ & (q & _ & [= <-])%bind_Ok)%bind_Ok)%bind_Ok)%bind_Ok)%bind_Ok.
    rewrite lookup_insert. destruct (decide (f = g)) as [->|Hne]; [|done].
    rewrite Ha. split; by eexists.
  - by intros [= <-].
Qed.

Lemma accumulate_reply_dom fs ms r st st' g :
  accumulate_reply fs ms r st = Ok st' → is_Some (st' !! g) ↔ is_Some (st !! g).
Proof.
  unfold accumulate_reply. revert st. induction fs as [|f fs IH]; intros st; cbn [foldlM].
  - by intros [= <-].
  - intros (st1 & H1 & Hrest)%bind_Ok. rewrite (IH _ Hrest). clear IH Hrest.
    revert st H1. induction ms as [|m ms IH]; intros st; cbn [foldlM].
    + by intros [= <-].
    + intros (st2 & H2 & Hrest)%bind_Ok. rewrite (IH _ Hrest).
      by eapply accumulate_dom.
Qed.

Lemma reduce_messages_dom msgs fs ms st n st' n' g :
  reduce_messages msgs fs ms (st, n) = Ok (st', n') →
  is_Some (st' !! g) ↔ is_Some (st !! g).
Proof.
  revert st n. induction msgs as [|[reason|content] msgs IH]; intros st n;
    cbn [reduce_messages].
  - by intros [= <- <-].
  - apply IH.
  - intros (r & _ & (st1 & H1 & Hrest)%bind_Ok)%bind_Ok. rewrite (IH _ _ Hrest).
    cbn [fst] in H1. by eapply accumulate_reply_dom.
Qed.

(** A table is determined by its features and its accumulators. *)
Lemma stats_eq st st' :
  (∀ g, is_Some (st !! g) ↔ is_Some (st' !! g)) →
  (∀ g, mean_at st g = mean_at st' g) → (∀ g, std_at st g = std_at st' g) →
  st = st'.
Proof.
  intros Hdom Hmean Hstd. apply map_eq. intros g.
  specialize (Hdom g). specialize (Hmean g). specialize (Hstd g).
  unfold mean_at, std_at in *.
  destruct (st !! g) as [[a b]|], (st' !! g) as [[a' b']|]; cbn in *.
  - by subst.
  - destruct Hdom as [Hd _]. by destruct Hd.
  - destruct Hdom as [_ Hd]. by destruct Hd.
  - done.
Qed.

Lemma total_Permutation k (rs rs' : list (gmap string num)) :
  rs ≡ₚ rs' → total k rs = total k rs'.
Proof. intros Hp. unfold total. apply sum_Permutation. by apply fmap_Permutation. Qed.

Lemma fold_bump_mean_Permutation g K (rs rs' : list (gmap string num))
    (o : option MeanStats) :
  rs ≡ₚ rs' →
  foldl (λ o r, bump_mean r g K <$> o) o rs = foldl (λ o r, bump_mean r g K <$> o) o rs'.
Proof.
  intros Hp. destruct o as [m0|].
  - by rewrite !fold_bump_mean, !(total_Permutation _ _ _ Hp).
  - transitivity (@None MeanStats); [|symmetry]; clear Hp.
    + induction rs as [|r rs1 IH]; [done | exact IH].
    + induction rs' as [|r rs1 IH]; [done | exact IH].
Qed.

Lemma fold_bump_std_Permutation g K (rs rs' : list (gmap string num))
    (o : option StdStats) :
  rs ≡ₚ rs' →
  foldl (λ o r, bump_std r g K <$> o) o rs = foldl (λ o r, bump_std r g K <$> o) o rs'.
Proof.
  intros Hp. destruct o as [s0|].
  - by rewrite !fold_bump_std, !(total_Permutation _ _ _ Hp).
  - transitivity (@None StdStats); [|symmetry]; clear Hp.
    + induction rs as [|r rs1 IH]; [done | exact IH].
    + induction rs' as [|r rs1 IH]; [done | exact IH].
Qed.

(** X2 (the order of the replies).  With replies that are well formed, the
    reduced totals, the count of valid replies, the final statistics and the
    log of a round do not depend on the order in which the replies came
    back. *)
Theorem reply_order_irrelevant msgs msgs' fs ms :
  msgs ≡ₚ msgs' → Forall (well_formed fs ms) msgs →
  reduce_round msgs fs ms = reduce_round msgs' fs ms
  ∧ aggregate_features msgs fs ms = aggregate_features msgs' fs ms.
Proof.
  intros Hperm Hwf.
  assert (Hwf' : Forall (well_formed fs ms) msgs') by by rewrite <- Hperm.
  assert (Hvalid : valid_results msgs ≡ₚ valid_results msgs').
  { unfold valid_results. by rewrite Hperm. }
  assert (reduce_round msgs fs ms = reduce_round msgs' fs ms) as Heq.
  { destruct (reduce_round_ok msgs fs ms Hwf) as (st & Hred & _).
    destruct (reduce_round_ok msgs' fs ms Hwf') as (st' & Hred' & _).
    rewrite Hred, Hred'. f_equal. f_equal; [|by rewrite Hvalid].
    unfold reduce_round in Hred, Hred'. apply stats_eq.
    - intros g. rewrite (reduce_messages_dom _ _ _ _ _ _ _ g Hred).
      by rewrite (reduce_messages_dom _ _ _ _ _ _ _ g Hred').
    - intros g. rewrite (reduce_messages_mean_at _ _ _ _ _ _ _ g Hred).
      rewrite (reduce_messages_mean_at _ _ _ _ _ _ _ g Hred').
      by apply fold_bump_mean_Permutation.
    - intros g. rewrite (reduce_messages_std_at _ _ _ _ _ _ _ g Hred).
      rewrite (reduce_messages_std_at _ _ _ _ _ _ _ g Hred').
      by apply fold_bump_std_Permutation. }
  split; [done|]. unfold aggregate_features. by rewrite Heq.
Qed.

Lemma reply_order_irrelevant_witness :
  let a : DataFrame := {[ "age" := FloatSeries [Fin 1; Fin 2] ]} in
  let b : DataFrame := {[ "age" := FloatSeries [Fin 3] ]} in
  aggregate_features (replies [a; b] ["age"] ["mean"]) ["age"] ["mean"]
  = aggregate_features (replies [b; a] ["age"] ["mean"]) ["age"] ["mean"].
Proof.
  intros a b.
  apply (reply_order_irrelevant (replies [a; b] ["age"] ["mean"])
           (replies [b; a] ["age"] ["mean"]) ["age"] ["mean"]).
  - apply perm_swap.
  - apply (bool_decide_unpack _). by vm_compute.
Defined.



(** One call of the accumulation reads nothing but its keys. *)
Lemma accumulate_agree st r r' f m :
  (∀ k, k ∈ lookups f m → r !! k = r' !! k) →
  accumulate_statistics st r f m = accumulate_statistics st r' f m.
Proof.
  unfold accumulate_statistics, lookups, getitem. intros Hk.
  destruct (decide (m = "mean")) as [->|Hm]; [|destruct (decide (m = "std")) as [->|Hs]].
  - rewrite (Hk (f +:+ "_mean_sum")), (Hk (f +:+ "_mean_count"));
      [done | rewrite !elem_of_cons; auto..].
  - rewrite (Hk (f +:+ "_std_sum")), (Hk (f +:+ "_std_count")), (Hk (f +:+ "_std_sum_sqd"));
      [done | rewrite !elem_of_cons; auto..].
  - done.
Qed.

(** X4 (metrics that are not asked for).  The accumulation of a reply reads
    only the keys of the request: two records that agree on these keys are
    accumulated alike, so metrics under other keys change nothing. *)
Theorem accumulate_reads_request_keys fs ms r r' st :
  (∀ k, k ∈ keys_read fs ms → r !! k = r' !! k) →
  accumulate_reply fs ms r st = accumulate_reply fs ms r' st.
Proof.
  unfold accumulate_reply. intros Hk. revert st.
  induction fs as [|f fs IH]; intros st; cbn [foldlM]; [done|].
  assert (∀ st0, foldlM (λ stats' agg_method, accumulate_statistics stats' r f agg_method)
                   st0 ms
                 = foldlM (λ stats' agg_method, accumulate_statistics stats' r' f agg_method)
                     st0 ms) as Hin.
  { assert (∀ m k, m ∈ ms → k ∈ lookups f m → r !! k = r' !! k) as Hk'.
    { intros m k Hm Hl. apply Hk, elem_of_keys_read. exists f, m.
      split; [by apply elem_of_cons; left | done]. }
    clear IH Hk. induction ms as [|m ms IHm]; intros st0; cbn [foldlM]; [done|].
    rewrite (accumulate_agree st0 r r' f m).
    - destruct (accumulate_statistics st0 r' f m); [|done]. cbn. apply IHm.
      intros m' k Hm'. apply Hk'. by apply elem_of_cons; right.
    - intros k. apply Hk'. by apply elem_of_cons; left. }
  rewrite Hin. destruct (foldlM _ st ms); [|done]. cbn. apply IH.
  intros k (g & m & Hg & Hm & Hl)%elem_of_keys_read. apply Hk, elem_of_keys_read.
  exists g, m. split; [by apply elem_of_cons; right | done].
Qed.

Lemma accumulate_reads_request_keys_witness :
  let r : gmap string num := {[ "age_mean_sum" := Fin 30; "age_mean_count" := Fin 3 ]} in
  let r' : gmap string num := <[ "age_median" := Fin 9 ]> r in
  accumulate_reply ["age"] ["mean"] r (initialize_aggregation_stats ["age"] ["mean"])
  = accumulate_reply ["age"] ["mean"] r' (initialize_aggregation_stats ["age"] ["mean"]).
Proof.
  intros r r'. apply accumulate_reads_request_keys.
  intros k Hk. apply elem_of_keys_read in Hk as (f & m & Hf & Hm & Hk).
  apply list_elem_of_singleton in Hf, Hm. subst f m.
  unfold r'. rewrite lookup_insert_ne; [done|].
  intros <-. change (lookups "age" "mean") with ["age_mean_sum"; "age_mean_count"] in Hk.
  rewrite !elem_of_cons, elem_of_nil in Hk. by destruct Hk as [?|[?|[]]].
Defined.

End more_reduce_facts.

(** ** More on the rounds *)

Section more_round_facts.

Implicit Types (st : gmap string FeatureStats) (final : FinalStats) (msgs : list Message).
Implicit Types (f g m k : string) (fs ms : list string) (dfs : list DataFrame).

Lemma valid_results_length msgs fs ms :
  Forall (well_formed fs ms) msgs →
  length (valid_results msgs) = length (filter (λ msg, has_error msg = false) msgs).
Proof.
  induction 1 as [|[reason|content] msgs Hmsg _ IH]; [done| |].
  - rewrite valid_results_error, filter_cons_False by done. exact IH.
  - apply well_formed_content in Hmsg as (r & Hr & _).
    rewrite (valid_results_content _ _ _ Hr), filter_cons_True by done. cbn. by rewrite IH.
Qed.

(** X14 (what the reduction keeps).  After a successful reduction the count
    of valid replies is the number of replies without error, and the table
    has an entry for exactly the requested features. *)
Theorem reduce_round_shape msgs fs ms st n :
  reduce_round msgs fs ms = Ok (st, n) →
  n = length (filter (λ msg, has_error msg = false) msgs)
  ∧ ∀ f, is_Some (st !! f) ↔ f ∈ fs.
Proof.
  intros Hred. split.
  - rewrite <- (valid_results_length msgs fs ms) by by eapply reduce_messages_well_formed.
    by apply reduce_messages_count in Hred.
  - intros f. unfold reduce_round in Hred.
    rewrite (reduce_messages_dom _ _ _ _ _ _ _ f Hred), init_lookup.
    case_decide as Hd.
    + split; [done | intros _; by eexists].
    + split; [by intros [? ?] | done].
Qed.

Lemma reduce_round_shape_witness :
  ∃ st, reduce_round scenario_replies ["age"] ["mean"] = Ok (st, 2)
        ∧ 2 = length (filter (λ msg, has_error msg = false) scenario_replies)
        ∧ ∀ f, is_Some (st !! f) ↔ f ∈ ["age"].
Proof.
  assert (∃ st, reduce_round scenario_replies ["age"] ["mean"] = Ok (st, 2)) as [st Hst].
  { eexists. reflexivity. }
  exists st. split; [exact Hst|]. exact (reduce_round_shape _ _ _ _ _ Hst).
Defined.

(** X5 (the shape of the result).  The statistics of a round in which no
    standard deviation overflows have an entry
    for exactly the requested features, each with an entry for exactly the
    requested methods, recognised or not; the log holds a warning for every
    null entry and nothing else, so a round without null entries logs
    nothing. *)
Theorem final_stats_shape msgs fs ms :
  Forall (well_formed fs ms) msgs → Exists (λ msg, has_error msg = false) msgs →
  no_overflow msgs fs ms →
  ∃ st log final,
    reduce_round msgs fs ms = Ok (st, length (valid_results msgs))
    ∧ aggregate_features msgs fs ms = (log, Ok final)
    ∧ (∀ f, is_Some (final !! f) ↔ f ∈ fs)
    ∧ (∀ f entry m, final !! f = Some entry → is_Some (entry !! m) ↔ m ∈ ms)
    ∧ (∀ line, line ∈ log ↔
         ∃ f m e, f ∈ fs ∧ m ∈ ms ∧ final_at final f m = Some None
                  ∧ compute_final_statistics st f m = Raise (ValueError e)
                  ∧ line = warning e).
Proof.
  intros Hwf Hex Hno.
  destruct (aggregate_features_spec msgs fs ms Hwf)
    as (st & final & Hred & Hi & Hagg & Hlook); [by eapply valid_results_exists | done |].
  exists st, (all_warnings st fs ms), final.
  split; [done|]. split; [done|]. split; [|split].
  - intros f. unfold aggregate_features in Hagg. rewrite Hred in Hagg.
    destruct (decide (length (valid_results msgs) = 0)); [done|].
    rewrite (final_features_dom _ _ _ _ _ _ _ Hagg f), lookup_empty.
    split; [intros [?|[? ?]]; done | auto].
  - intros f entry m Hf. specialize (Hlook f m). unfold final_at in Hlook.
    rewrite Hf in Hlook. cbn in Hlook. rewrite Hlook.
    case_decide as Hd; [split; [tauto | by eexists]|].
    split; [by intros [? ?]|]. intros Hm. destruct Hd. split; [|done].
    unfold aggregate_features in Hagg. rewrite Hred in Hagg.
    destruct (decide (length (valid_results msgs) = 0)); [done|].
    pose proof (proj1 (final_features_dom _ _ _ _ _ _ _ Hagg f)) as Hdom.
    rewrite lookup_empty in Hdom. destruct Hdom as [?|[? ?]]; [by eexists | done..].
  - intros line. unfold all_warnings. rewrite list_elem_of_bind. split.
    + intros (f & Hline & Hf). unfold warnings_for in Hline.
      apply list_elem_of_bind in Hline as (m & Hline & Hm).
      unfold warnings_at in Hline.
      destruct (compute_final_statistics st f m) as [v|[k|e| |]] eqn:Hcomp;
        try by apply elem_of_nil in Hline.
      apply list_elem_of_singleton in Hline as ->.
      exists f, m, e. split; [done|]. split; [done|]. split; [|done].
      rewrite Hlook, decide_True by done. unfold final_value. by rewrite Hcomp.
    + intros (f & m & e & Hf & Hm & _ & Hcomp & ->). exists f. split; [|done].
      unfold warnings_for. apply list_elem_of_bind. exists m. split; [|done].
      unfold warnings_at. rewrite Hcomp. by apply list_elem_of_singleton.
Qed.

Lemma final_stats_shape_witness :
  ∃ log final,
    aggregate_features scenario_replies ["age"] ["mean"] = (log, Ok final)
    ∧ (∀ f, is_Some (final !! f) ↔ f ∈ ["age"])
    ∧ (∀ f entry m, final !! f = Some entry → is_Some (entry !! m) ↔ m ∈ ["mean"]).
Proof.
  destruct (final_stats_shape scenario_replies ["age"] ["mean"])
    as (st & log & final & _ & Hagg & Hfs & Hms & _).
  - apply (bool_decide_unpack _). by vm_compute.
  - apply Exists_cons; left. reflexivity.
  - apply no_overflow_without_std. apply (bool_decide_unpack _). by vm_compute.
  - by exists log, final.
Defined.

(** X13 (the range of the standard deviation).  A standard deviation that
    the final computation returns is NaN or a number that is not negative,
    and it is a number whenever the three reduced totals are numbers. *)
Theorem std_not_negative st f v :
  compute_final_statistics st f "std" = Ok v →
  (v = NaN ∨ ∃ y, v = Fin y ∧ (0 <= y)%R)
  ∧ (∀ x c q,
       std_at st f
       = Some {| std_sum := Fin x; std_count := Fin c; std_sum_sqd := Fin q |} →
       ∃ y, v = Fin y).
Proof.
  intros Hv. split.
  - unfold compute_final_statistics in Hv. cbn [decide] in Hv.
    rewrite decide_False, decide_True in Hv by done.
    apply bind_Ok in Hv as (a & _ & (s & _ & Hv)%bind_Ok).
    destruct (le1 (std_count s)); [done|].
    apply bind_Ok in Hv as (w & _ & [= <-]).
    destruct (if lt0 w then zero else w) as [y|]; [|by left].
    unfold sqrt. destruct (Rlt_dec y 0); [by left|].
    right. eexists. split; [done|]. apply sqrt_pos.
  - intros x c q Hs. rewrite (compute_final_std _ _ _ Hs) in Hv.
    cbn [std_sum std_count std_sum_sqd] in Hv.
    destruct (le1 (Fin c)) eqn:Hc; [done|].
    assert (1 < c)%R as Hc1.
    { unfold le1 in Hc. destruct (Rle_dec c 1); [done | lra]. }
    destruct (Rlt_dec float_max (x / c * (x / c))) as [Hbig|Hfit];
      [by rewrite raw_variance_overflow in Hv|].
    rewrite raw_variance_Fin in Hv by (done || lra). cbn in Hv. injection Hv as <-.
    unfold lt0. destruct (Rlt_dec _ 0).
    + rewrite sqrt_zero. by eexists.
    + rewrite sqrt_Fin by lra. by eexists.
Qed.

Lemma std_not_negative_witness :
  ∃ st v, compute_final_statistics st "age" "std" = Ok v
          ∧ (v = NaN ∨ ∃ y, v = Fin y ∧ (0 <= y)%R).
Proof.
  set (st := {[ "age" := {| at_mean := None;
                            at_std := Some {| std_sum := Fin 3; std_count := Fin 2;
                                              std_sum_sqd := Fin 5 |} |} ]}
             : gmap string FeatureStats).
  assert (std_at st "age"
          = Some {| std_sum := Fin 3; std_count := Fin 2; std_sum_sqd := Fin 5 |}) as Hst
    by reflexivity.
  assert (3 / 2 * (3 / 2) <= float_max)%R as Hfit.
  { pose proof float_max_large. lra. }
  pose proof (final_std_Fin st "age" 3 2 5 Hst ltac:(lra) Hfit) as Hcomp.
  eexists st, _. split; [exact Hcomp|].
  exact (proj1 (std_not_negative st "age" _ Hcomp)).
Defined.

End more_round_facts.

(** ** Rounds over the data sets of the nodes *)

Section more_statistics_facts.

Implicit Types (st : gmap string FeatureStats) (final : FinalStats).
Implicit Types (f m : string) (fs ms : list string) (dfs : list DataFrame).

Lemma occurrences_product_pos f m fs ms :
  f ∈ fs → m ∈ ms → 0 < occurrences f fs * occurrences m ms.
Proof.
  intros Hf Hm. pose proof (occurrences_pos _ _ Hf). pose proof (occurrences_pos _ _ Hm). nia.
Qed.

(** The squares that fit are the squares of the values, and a missing value
    stays missing in the squares. *)
Lemma square_columns_fit f fs dfs :
  (∀ df, df ∈ valid_frames fs dfs → squares_fit (series f df)) →
  concat (square_columns f fs dfs) = pow2 <$> concat (columns f fs dfs).
Proof.
  unfold square_columns, columns.
  induction (valid_frames fs dfs) as [|df l IH]; intros Hfit; [done|].
  rewrite !fmap_cons. cbn [concat]. rewrite fmap_app, IH.
  - unfold column. rewrite pow2_series_fit; [done|]. apply Hfit, elem_of_cons. by left.
  - intros df' Hin. apply Hfit, elem_of_cons. by right.
Qed.

Lemma nan_pow2_series (col : Series) : NaN ∈ tolist col → NaN ∈ tolist (pow2_series col).
Proof.
  destruct col as [l|l]; cbn [tolist pow2_series].
  - by intros (z & ? & _)%list_elem_of_fmap.
  - apply pow2_nan.
Qed.

Lemma nan_square_columns f fs dfs :
  NaN ∈ concat (columns f fs dfs) → NaN ∈ concat (square_columns f fs dfs).
Proof.
  unfold square_columns, columns.
  induction (valid_frames fs dfs) as [|df l IH]; [done|].
  rewrite !fmap_cons. cbn [concat]. rewrite !elem_of_app.
  intros [Hin|Hin]; [left | right; by apply IH]. by apply nan_pow2_series.
Qed.

(** In rectangular data sets the columns of two requested features have
    the same number of rows. *)
Lemma columns_length_rectangular f g fs dfs :
  f ∈ fs → g ∈ fs → Forall rectangular dfs →
  length (concat (columns f fs dfs)) = length (concat (columns g fs dfs)).
Proof.
  intros Hf Hg. unfold columns, valid_frames.
  induction 1 as [|df dfs Hrect _ IH]; [done|].
  destruct (decide (has_features fs df)) as [Hall|Hnot].
  - rewrite filter_cons_True by done. rewrite !fmap_cons. cbn [concat].
    rewrite !length_app, IH. f_equal.
    unfold has_features in Hall. rewrite Forall_forall in Hall.
    destruct (Hall f Hf) as [s Hs]. destruct (Hall g Hg) as [t Ht].
    unfold column, series. rewrite Hs, Ht. cbn [default].
    exact (Hrect f s Hs g t Ht).
  - by rewrite filter_cons_False.
Qed.

(** X12 (a feature or a method listed several times).  In a round of node
    replies the reduced totals of a feature are the sum and the number of
    the values of the nodes that answered and the sum of the squares that
    the nodes computed, each added once for every occurrence of the feature
    in the request times every occurrence of the method.  The squares of an
    [int64] column are wrapped to 64 bits; when every square fits, they are
    the squares of the values. *)
Theorem repeated_request_scales dfs fs ms f :
  f ∈ fs →
  ∃ st,
    reduce_round (replies dfs fs ms) fs ms = Ok (st, length (valid_frames fs dfs))
    ∧ ("mean" ∈ ms →
       mean_at st f
       = Some {| mean_sum := scale (occurrences f fs * occurrences "mean" ms)
                               (sum (concat (columns f fs dfs)));
                 mean_count := scale (occurrences f fs * occurrences "mean" ms)
                                 (of_nat (length (concat (columns f fs dfs)))) |})
    ∧ ("std" ∈ ms →
       std_at st f
       = Some {| std_sum := scale (occurrences f fs * occurrences "std" ms)
                              (sum (concat (columns f fs dfs)));
                 std_count := scale (occurrences f fs * occurrences "std" ms)
                                (of_nat (length (concat (columns f fs dfs))));
                 std_sum_sqd := scale (occurrences f fs * occurrences "std" ms)
                                  (sum (concat (square_columns f fs dfs))) |})
    ∧ ((∀ df, df ∈ valid_frames fs dfs → squares_fit (series f df)) →
       concat (square_columns f fs dfs) = pow2 <$> concat (columns f fs dfs))
    ∧ ∀ k x, scale k (Fin x) = Fin (INR k * x).
Proof.
  intros Hf.
  destruct (reduce_round_ok (replies dfs fs ms) fs ms) as (st & Hred & _);
    [apply replies_well_formed|].
  exists st. split; [by rewrite <- (replies_valid_length dfs fs ms)|].
  split; [|split; [|split]].
  - intros Hm. rewrite (reduce_round_mean_at _ _ _ _ _ f Hred Hf Hm).
    by rewrite total_sum_mean, total_count_mean.
  - intros Hm. rewrite (reduce_round_std_at _ _ _ _ _ f Hred Hf Hm).
    by rewrite total_sum_std, total_count_std, total_sqd_std.
  - apply square_columns_fit.
  - apply scale_Fin.
Qed.

Lemma repeated_request_scales_witness :
  let df : DataFrame := {[ "age" := IntSeries [1; 2]%Z ]} in
  ∃ st, reduce_round (replies [df] ["age"; "age"] ["std"]) ["age"; "age"] ["std"]
        = Ok (st, 1)
        ∧ std_at st "age"
          = Some {| std_sum := scale 2 (sum (concat (columns "age" ["age"; "age"] [df])));
                    std_count :=
                      scale 2 (of_nat (length (concat (columns "age" ["age"; "age"] [df]))));
                    std_sum_sqd :=
                      scale 2 (sum (concat (square_columns "age" ["age"; "age"] [df]))) |}.
Proof.
  intros df.
  destruct (repeated_request_scales [df] ["age"; "age"] ["std"] "age")
    as (st & Hred & _ & Hstd & _).
  - apply elem_of_cons; by left.
  - exists st. split; [exact Hred|]. apply Hstd. apply elem_of_cons; by left.
Defined.

(** X6 (a missing value reaches the result).  When a node that answers has
    a missing value in the column of a feature, and no standard deviation of
    the round overflows, the round produces its statistics and the mean of
    the feature is NaN, not null, and the log has no warning for it; so it
    is for its standard deviation when the nodes hold more than one row in
    all. *)
Theorem missing_value_poisons dfs fs ms f :
  f ∈ fs → NaN ∈ concat (columns f fs dfs) → no_overflow (replies dfs fs ms) fs ms →
  ∃ log final,
    aggregate_features (replies dfs fs ms) fs ms = (log, Ok final)
    ∧ ("mean" ∈ ms →
       final_at final f "mean" = Some (Some NaN) ∧ warning (no_data_mean f) ∉ log)
    ∧ ("std" ∈ ms → 1 < length (concat (columns f fs dfs)) →
       final_at final f "std" = Some (Some NaN) ∧ warning (insufficient_std f) ∉ log).
Proof.
  intros Hf Hnan Hno.
  assert (0 < length (concat (columns f fs dfs))) as Hlen.
  { destruct (concat (columns f fs dfs)); [by apply elem_of_nil in Hnan | cbn; lia]. }
  destruct (aggregate_features_spec (replies dfs fs ms) fs ms)
    as (st & final & Hred & _ & Hagg & Hlook); [apply replies_well_formed | | done |].
  { intros Hnil. apply (f_equal length) in Hnil.
    rewrite replies_valid_length in Hnil. unfold columns in Hlen.
    destruct (valid_frames fs dfs); [cbn in Hlen; lia | done]. }
  exists (all_warnings st fs ms), final. split; [done|]. split.
  - intros Hm. pose proof (occurrences_product_pos f "mean" fs ms Hf Hm) as HK.
    pose proof (reduce_round_mean_at _ _ _ _ _ f Hred Hf Hm) as Hst.
    rewrite total_sum_mean, total_count_mean in Hst by done.
    rewrite (sum_nan _ Hnan), scale_nan in Hst by done.
    unfold of_nat in Hst. rewrite scale_Fin in Hst.
    assert (compute_final_statistics st f "mean" = Ok NaN) as Hcomp.
    { rewrite (compute_final_mean _ _ _ Hst). cbn.
      destruct (Req_dec_T _ 0) as [Hz|_]; [|done].
      apply Rmult_integral in Hz as [Hz|Hz]; change 0%R with (INR 0) in Hz;
        apply INR_eq in Hz; lia. }
    split; [|by eapply no_warning_mean].
    rewrite Hlook, decide_True by done. unfold final_value. by rewrite Hcomp.
  - intros Hm Hlen2. pose proof (occurrences_product_pos f "std" fs ms Hf Hm) as HK.
    pose proof (reduce_round_std_at _ _ _ _ _ f Hred Hf Hm) as Hst.
    rewrite total_sum_std, total_count_std, total_sqd_std in Hst by done.
    rewrite (sum_nan _ Hnan), (sum_nan _ (nan_square_columns _ _ _ Hnan)), !scale_nan
      in Hst by done.
    unfold of_nat in Hst. rewrite scale_Fin in Hst.
    assert (compute_final_statistics st f "std" = Ok NaN) as Hcomp.
    { rewrite (compute_final_std _ _ _ Hst). cbn [std_sum std_count std_sum_sqd].
      unfold le1. destruct (Rle_dec _ 1) as [Hle|_]; [|done].
      exfalso. rewrite <- mult_INR in Hle. change 1%R with (INR 1) in Hle.
      apply INR_le in Hle. nia. }
    split; [|by eapply no_warning_std].
    rewrite Hlook, decide_True by done. unfold final_value. by rewrite Hcomp.
Qed.

Lemma missing_value_poisons_witness :
  let a : DataFrame := {[ "age" := FloatSeries [Fin 1; NaN] ]} in
  let b : DataFrame := {[ "age" := FloatSeries [Fin 3] ]} in
  ∃ log final,
    aggregate_features (replies [a; b] ["age"] ["mean"]) ["age"] ["mean"] = (log, Ok final)
    ∧ final_at final "age" "mean" = Some (Some NaN)
    ∧ warning (no_data_mean "age") ∉ log.
Proof.
  intros a b.
  destruct (missing_value_poisons [a; b] ["age"] ["mean"] "age")
    as (log & final & Hagg & Hmean & _).
  - apply elem_of_cons; by left.
  - assert (concat (columns "age" ["age"] [a; b]) = [Fin 1; NaN; Fin 3]) as -> by reflexivity.
    apply elem_of_cons; right. apply elem_of_cons; by left.
  - apply no_overflow_without_std. apply (bool_decide_unpack _). by vm_compute.
  - exists log, final. split; [exact Hagg|]. apply Hmean. apply elem_of_cons; by left.
Defined.

(** X7 (nodes without rows).  When the nodes that answer, one at least,
    hold no row for a feature, the round still produces its statistics and
    the mean and the standard deviation of the feature are null, each logged
    with its warning.  The columns of a data set have the same number of
    rows, so no other feature has a row either and nothing overflows. *)
Theorem empty_columns_null dfs fs ms f :
  Forall rectangular dfs →
  f ∈ fs → valid_frames fs dfs ≠ [] → concat (columns f fs dfs) = [] →
  ∃ log final,
    aggregate_features (replies dfs fs ms) fs ms = (log, Ok final)
    ∧ ("mean" ∈ ms →
       final_at final f "mean" = Some None ∧ warning (no_data_mean f) ∈ log)
    ∧ ("std" ∈ ms →
       final_at final f "std" = Some None ∧ warning (insufficient_std f) ∈ log).
Proof.
  intros Hrect Hf Hvalid Hempty.
  assert (∀ g st, g ∈ fs → "std" ∈ ms →
    reduce_round (replies dfs fs ms) fs ms = Ok (st, length (valid_results (replies dfs fs ms))) →
    compute_final_statistics st g "std" = Raise (ValueError (insufficient_std g))) as Hstd.
  { intros g st Hg Hm Hred.
    pose proof (reduce_round_std_at _ _ _ _ _ g Hred Hg Hm) as Hst.
    rewrite total_sum_std, total_count_std, total_sqd_std in Hst by done.
    rewrite <- (columns_length_rectangular f g fs dfs Hf Hg Hrect), Hempty in Hst.
    unfold of_nat in Hst. rewrite (scale_Fin _ (INR _)) in Hst. cbn [length INR] in Hst.
    rewrite (compute_final_std _ _ _ Hst). cbn [std_count]. unfold le1.
    destruct (Rle_dec _ 1) as [_|Hnle]; [done | lra]. }
  destruct (reduce_round_ok (replies dfs fs ms) fs ms) as (st0 & Hred0 & _);
    [apply replies_well_formed|].
  destruct (aggregate_features_spec (replies dfs fs ms) fs ms)
    as (st & final & Hred & _ & Hagg & Hlook); [apply replies_well_formed | | |].
  { intros Hnil. apply (f_equal length) in Hnil.
    rewrite replies_valid_length in Hnil. by destruct (valid_frames fs dfs). }
  { apply (no_overflow_intro _ _ _ _ _ Hred0). intros g Hg Hm.
    by rewrite (Hstd g st0 Hg Hm Hred0). }
  exists (all_warnings st fs ms), final. split; [done|]. split.
  - intros Hm. pose proof (reduce_round_mean_at _ _ _ _ _ f Hred Hf Hm) as Hst.
    rewrite total_sum_mean, total_count_mean, Hempty in Hst by done.
    unfold of_nat in Hst. rewrite scale_Fin in Hst. cbn [length INR] in Hst.
    assert (compute_final_statistics st f "mean" = Raise (ValueError (no_data_mean f)))
      as Hcomp.
    { rewrite (compute_final_mean _ _ _ Hst). cbn.
      destruct (Req_dec_T _ 0) as [_|Hnz]; [done | lra]. }
    split; [|by eapply elem_of_all_warnings].
    rewrite Hlook, decide_True by done. unfold final_value. by rewrite Hcomp.
  - intros Hm. pose proof (Hstd f st Hf Hm Hred) as Hcomp.
    split; [|by eapply elem_of_all_warnings].
    rewrite Hlook, decide_True by done. unfold final_value. by rewrite Hcomp.
Qed.

Lemma empty_columns_null_witness :
  let a : DataFrame := {[ "age" := FloatSeries [] ]} in
  ∃ log final,
    aggregate_features (replies [a] ["age"] ["mean"; "std"]) ["age"] ["mean"; "std"]
    = (log, Ok final)
    ∧ final_at final "age" "mean" = Some None
    ∧ final_at final "age" "std" = Some None.
Proof.
  intros a.
  destruct (empty_columns_null [a] ["age"] ["mean"; "std"] "age")
    as (log & final & Hagg & Hmean & Hstd).
  - apply (bool_decide_unpack _). by vm_compute.
  - apply elem_of_cons; by left.
  - by vm_compute.
  - reflexivity.
  - exists log, final. split; [exact Hagg|]. split.
    + apply Hmean. apply elem_of_cons; by left.
    + apply Hstd. apply elem_of_cons; right. apply elem_of_cons; by left.
Defined.

End more_statistics_facts.
